(** * K-means++ with RUNS parallel trials: a shallow embedding

    Source: [Homework4/HW4-k-means-plus-plus.ipynb] (Python 2, NumPy, Spark).
    The functions embedded are [compute_entropy], [choice], [kmeans_init]
    (with its local [update_dist]), [get_closest], [kmeans] and [get_cost]
    (with its local [_get_cost]), and from the cells that follow them the
    counting loop of the entropy cell.

    Numbers.  NumPy's [float64] is rendered as the reals extended with
    [+inf], [-inf] and [nan]: arithmetic on finite values is exact (rounding,
    overflow and signed zeros are not modelled), while the special values
    follow IEEE 754 as NumPy applies it ([0/0 = nan], [x/0 = inf],
    comparisons with [nan] are false, [np.min]/[np.max]/[np.sum] propagate
    [nan]).  Statements about values are made in this arithmetic and hold
    of the program up to rounding.  Where the program takes a decision by
    comparing computed numbers (the index [get_closest] answers, the test
    of the loop of [kmeans]), the functions are embedded a second time, in
    [Machine], over any arithmetic, with IEEE 754 binary64 (Rocq's
    primitive floats) as an instance: statements about decisions are made
    there.

    Data.  A feature vector is a list of numbers; a set of centroids is a
    list of vectors and [centers] / [k_points] is a list of such sets
    (NumPy shape [(RUNS, K, shape)]).  The RDD is the list of its
    [(name, vec)] records, in collection order.  All vectors of one data set
    have the same dimension (the arrays of the source are rectangular);
    element-wise operations on the extended reals are written for that
    case, and [RUNS > 0].  In [Machine] a subtraction of arrays checks the
    shapes as NumPy does.

    [K] and [RUNS] are natural numbers.

    Effects.  Raised exceptions are values of [exn] in the [result] monad;
    the global generator [np.random] is an explicit state threaded through
    [choice] and [kmeans_init]; the [while] loop of [kmeans] takes fuel.
    Logging and timing ([print_log], [iters], [st]) have no part in the
    values computed and are left out. *)

From Stdlib Require Import Floats.
From Stdlib Require Import String DecimalString.
From Stdlib Require Import Reals Lra Lia Arith ZArith QArith Qabs Qreals Bool List
  Permutation.
Import ListNotations.

Open Scope R_scope.

(* ================================================================= *)
(** ** Numbers *)

Inductive float : Type :=
| Fin (x : R)
| PInf
| NInf
| NaN.

Definition Req_bool (a b : R) : bool := if Req_dec_T a b then true else false.
Definition Rlt_bool (a b : R) : bool := if Rlt_dec a b then true else false.

Definition is_nan (a : float) : bool :=
  match a with NaN => true | _ => false end.

Definition fopp (a : float) : float :=
  match a with
  | Fin x => Fin (- x)
  | PInf => NInf
  | NInf => PInf
  | NaN => NaN
  end.

Definition fadd (a b : float) : float :=
  match a, b with
  | NaN, _ | _, NaN => NaN
  | Fin x, Fin y => Fin (x + y)
  | PInf, NInf | NInf, PInf => NaN
  | PInf, _ | _, PInf => PInf
  | NInf, _ | _, NInf => NInf
  end.

Definition fsub (a b : float) : float := fadd a (fopp b).

(** [inf_signed pos] is [+inf] when [pos] holds and [-inf] otherwise. *)
Definition inf_signed (pos : bool) : float := if pos then PInf else NInf.

Definition fmul (a b : float) : float :=
  match a, b with
  | NaN, _ | _, NaN => NaN
  | Fin x, Fin y => Fin (x * y)
  | Fin x, PInf | PInf, Fin x =>
      if Req_bool x 0 then NaN else inf_signed (Rlt_bool 0 x)
  | Fin x, NInf | NInf, Fin x =>
      if Req_bool x 0 then NaN else inf_signed (Rlt_bool x 0)
  | PInf, PInf | NInf, NInf => PInf
  | PInf, NInf | NInf, PInf => NInf
  end.

(** NumPy division: a zero divisor gives [nan] or an infinity (with a
    warning), never an exception. *)
Definition fdiv (a b : float) : float :=
  match a, b with
  | NaN, _ | _, NaN => NaN
  | Fin x, Fin y =>
      if Req_bool y 0
      then (if Req_bool x 0 then NaN else inf_signed (Rlt_bool 0 x))
      else Fin (x / y)
  | Fin _, (PInf | NInf) => Fin 0
  | PInf, Fin y => inf_signed (negb (Rlt_bool y 0))
  | NInf, Fin y => inf_signed (Rlt_bool y 0)
  | (PInf | NInf), (PInf | NInf) => NaN
  end.

Definition fsqrt (a : float) : float :=
  match a with
  | Fin x => if Rlt_bool x 0 then NaN else Fin (sqrt x)
  | PInf => PInf
  | NInf | NaN => NaN
  end.

(** [a < b]; false as soon as one side is [nan]. *)
Definition fltb (a b : float) : bool :=
  match a, b with
  | NaN, _ | _, NaN => false
  | Fin x, Fin y => Rlt_bool x y
  | NInf, (Fin _ | PInf) => true
  | Fin _, PInf => true
  | _, _ => false
  end.

(** [a > b] *)
Definition fgtb (a b : float) : bool := fltb b a.

(** [a ** 2] *)
Definition fsquare (a : float) : float := fmul a a.

(** The order on numbers used to state results: [fle a b] holds when
    neither side is [nan] and [a <= b]. *)
Definition fle (a b : float) : Prop :=
  match a, b with
  | NaN, _ | _, NaN => False
  | NInf, _ | _, PInf => True
  | Fin x, Fin y => x <= y
  | _, _ => False
  end.

(* ================================================================= *)
(** ** Exceptions *)

Inductive exn : Type :=
| AssertionError
| IndexError
| ValueError.

Inductive result (A : Type) : Type :=
| Ok (a : A)
| Raise (e : exn).
Arguments Ok {A} a.
Arguments Raise {A} e.

Definition bind {A B : Type} (m : result A) (k : A -> result B) : result B :=
  match m with
  | Ok a => k a
  | Raise e => Raise e
  end.

Notation "x <- m ;; k" := (bind m (fun x => k))
  (at level 61, m at next level, right associativity).
Notation "' p <- m ;; k" := (bind m (fun x => let 'p := x in k))
  (at level 61, p pattern, m at next level, right associativity).

(** [l[i]] for a non-negative index. *)
Definition getitem {A : Type} (l : list A) (i : nat) : result A :=
  match nth_error l i with
  | Some a => Ok a
  | None => Raise IndexError
  end.

(* ================================================================= *)
(** ** NumPy arrays *)

(** A 1-d array of numbers: a feature vector, a row of a table. *)
Abbreviation vec := (list float) (only parsing).

(** [zip_with f a b]: the element-wise operation of two arrays of one
    shape. *)
Fixpoint zip_with {A B C : Type} (f : A -> B -> C) (a : list A) (b : list B)
  : list C :=
  match a, b with
  | x :: a', y :: b' => f x y :: zip_with f a' b'
  | _, _ => []
  end.

(** [a - b] on 1-d arrays. *)
Definition vsub (a b : vec) : vec := zip_with fsub a b.

(** [a + b] on 1-d arrays. *)
Definition vadd (a b : vec) : vec := zip_with fadd a b.

(** [np.sum] of a 1-d array. *)
Definition np_sum (l : list float) : float := fold_left fadd l (Fin 0).

(** [numpy.linalg.norm] of a 1-d array: the square root of the sum of the
    squares. *)
Definition norm (v : vec) : float := fsqrt (np_sum (map fsquare v)).

(** [np.min([a, b], axis=0)] on one entry: the smaller one, [nan] when
    either is. *)
Definition np_min2 (a b : float) : float :=
  if is_nan a || is_nan b then NaN else if fltb b a then b else a.

Definition np_max2 (a b : float) : float :=
  if is_nan a || is_nan b then NaN else if fltb a b then b else a.

(** [np.max] of a list of numbers; NumPy refuses an empty one. *)
Definition np_max (l : list float) : result float :=
  match l with
  | [] => Raise ValueError
  | x :: l' => Ok (fold_left np_max2 l' x)
  end.

(** What [EachSet.mean(axis=0)] and [new_points[(i, j)]] hold: a 1-d array,
    or the 0-d scalar that the mean of an empty array is. *)
Inductive ndarray : Type :=
| Scalar (x : float)
| Array1 (v : vec).

(** [np.array(rows).mean(axis=0)]: the coordinate-wise mean of the rows;
    for no row at all NumPy returns the scalar [nan] (with a warning). *)
Definition mean_axis0 (rows : list vec) : ndarray :=
  match rows with
  | [] => Scalar NaN
  | r :: rs =>
      Array1 (map (fun s => fdiv s (Fin (INR (length rows))))
                  (fold_left vadd rs r))
  end.

(** [v - a] with NumPy broadcasting of a scalar [a]. *)
Definition vsub_nd (v : vec) (a : ndarray) : vec :=
  match a with
  | Scalar x => map (fun c => fsub c x) v
  | Array1 w => vsub v w
  end.

(** [k_points[idx][j] = p]: the row takes the values of [p]; a scalar is
    broadcast to every coordinate of the row. *)
Definition assign_row (old : vec) (p : ndarray) : vec :=
  match p with
  | Scalar x => map (fun _ => x) old
  | Array1 w => w
  end.

(** [enumerate(l)] *)
Definition enumerate {A : Type} (l : list A) : list (nat * A) :=
  combine (seq 0 (length l)) l.

(** [M[:, x]] of a 2-d array given by its rows. *)
Definition column {A : Type} (d : A) (M : list (list A)) (x : nat) : list A :=
  map (fun row => nth x row d) M.

(** [np.array(rows).T] for rows of [ncols] entries. *)
Definition transpose {A : Type} (d : A) (ncols : nat) (M : list (list A))
  : list (list A) :=
  map (column d M) (seq 0 ncols).

(** Loops whose body may raise. *)
Fixpoint foldM {A S : Type} (f : S -> A -> result S) (l : list A) (s : S)
  : result S :=
  match l with
  | [] => Ok s
  | a :: l' => s' <- f s a ;; foldM f l' s'
  end.

Fixpoint mapM {A B : Type} (f : A -> result B) (l : list A) : result (list B) :=
  match l with
  | [] => Ok []
  | a :: l' => b <- f a ;; bs <- mapM f l' ;; Ok (b :: bs)
  end.

(** [l[i] = v] for [i] in range. *)
Fixpoint set_nth {A : Type} (l : list A) (i : nat) (v : A) : list A :=
  match l, i with
  | [], _ => []
  | _ :: l', O => v :: l'
  | a :: l', S i' => a :: set_nth l' i' v
  end.

(* ================================================================= *)
(** ** The generator [np.random] *)

(** The state of NumPy's global generator and the two draws the program
    makes from it: [np.random.random()] and one value of
    [np.random.randint(0, high, ...)]. *)
Class RandomSource (G : Type) : Type := {
  np_random_random : G -> R * G;
  np_random_randint : nat -> G -> nat * G
}.

(** The ranges NumPy documents for the two draws. *)
Record RandomSourceLaws (G : Type) `{RandomSource G} : Prop := {
  random_range : forall g, 0 <= fst (np_random_random g) < 1;
  randint_range : forall high g,
      (0 < high)%nat -> (fst (np_random_randint high g) < high)%nat
}.

(** [np.random.randint(0, high, size)]: [size] successive draws. *)
Fixpoint randint_array {G : Type} `{RandomSource G} (high size : nat) (g : G)
  : list nat * G :=
  match size with
  | O => ([], g)
  | S size' =>
      let (k, g1) := np_random_randint high g in
      let (ks, g2) := randint_array high size' g1 in
      (k :: ks, g2)
  end.

(** A generator for worked examples: the tape of its future draws.  A tape
    cell [n] read by [random()] is [n / (n + 1)], read by [randint] it is
    [n mod high]; an exhausted tape keeps giving zero. *)
Definition tape : Type := list nat.

#[export] Instance tape_source : RandomSource tape := {|
  np_random_random t :=
    match t with
    | [] => (0, [])
    | n :: t' => (INR n / INR (S n), t')
    end;
  np_random_randint high t :=
    match t with
    | [] => (O, [])
    | n :: t' => (Nat.modulo n high, t')
    end
|}.

(* ================================================================= *)
(** ** [choice] *)

(** The [for] loop of [choice], entered at index [idx] with running sum
    [r]; falling out of the loop reaches [assert(False)]. *)
Fixpoint choice_loop (p : list float) (idx : nat) (r random : float)
  : result nat :=
  match p with
  | [] => Raise AssertionError
  | w :: p' =>
      let r := fadd r w in
      if fgtb r random then Ok idx else choice_loop p' (S idx) r random
  end.

Definition choice {G : Type} `{RandomSource G} (p : list float) (g : G)
  : result (nat * G) :=
  let (random, g') := np_random_random g in
  ind <- choice_loop p 0 (Fin 0) (Fin random) ;;
  Ok (ind, g').

(* ================================================================= *)
(** ** [kmeans_init] *)

(** The records [(name, vec)] of the RDD. *)
Abbreviation dataset := (list (string * vec)) (only parsing).

(** [centers], [k_points]: one list of centroids per run. *)
Abbreviation centroid_sets := (list (list vec)) (only parsing).

(** The local function [update_dist] of [kmeans_init]; [centers] is the
    variable of the enclosing function at the time of the call, and
    [centers[:, k]] is in range ([k < K]). *)
Definition update_dist (centers : centroid_sets) (v : vec) (dist : list float)
  (k : nat) : list float :=
  let new_dist := map (fun c => fsquare (norm (vsub v (nth k c [])))) centers in
  zip_with np_min2 dist new_dist.

(** The variables [centers], [D] and the generator, as the [for] loop of
    [kmeans_init] carries them from round to round. *)
Definition init_state (G : Type) : Type :=
  (centroid_sets * list (list float) * G)%type.

(** The inner loop [for i in range(RUNS)] of one round. *)
Definition init_sample {G : Type} `{RandomSource G} (local_data : list vec)
  (prob : list (list float)) (idx : nat) (s : centroid_sets * G) (i : nat)
  : result (centroid_sets * G) :=
  let (centers, g) := s in
  p <- getitem prob i ;;
  '(ind, g') <- choice p g ;;
  v <- getitem local_data ind ;;
  Ok (set_nth centers i (set_nth (nth i centers []) (S idx) v), g').

(** The table assigned to [D] at the start of round [idx]:
    [np.array([update_dist(vec, D[:,x], idx)
               for x, vec in enumerate(local_data)]).T]. *)
Definition next_D (local_data : list vec) (RUNS : nat) (centers : centroid_sets)
  (D : list (list float)) (idx : nat) : list (list float) :=
  transpose NaN RUNS
    (map (fun xv => update_dist centers (snd xv) (column NaN D (fst xv)) idx)
         (enumerate local_data)).

(** [((D.T)/D.sum(axis=1)).T]: every row of [D] divided by its sum. *)
Definition prob_of (D : list (list float)) : list (list float) :=
  map (fun row => map (fun d => fdiv d (np_sum row)) row) D.

(** One round [idx] of the loop [for idx in range(K - 1)]. *)
Definition init_round {G : Type} `{RandomSource G} (local_data : list vec)
  (RUNS : nat) (s : init_state G) (idx : nat) : result (init_state G) :=
  let '(centers, D, g) := s in
  let D := next_D local_data RUNS centers D idx in
  let prob := prob_of D in
  '(centers, g) <-
     foldM (init_sample local_data prob idx) (seq 0 RUNS) (centers, g) ;;
  Ok (centers, D, g).

(** [kmeans_init] up to the [for] loop: allocation, the first centroid of
    every run, and the initial [D]. *)
Definition kmeans_init_start {G : Type} `{RandomSource G} (rdd : dataset)
  (K RUNS : nat) (g : G) : result (init_state G) :=
  let n_data := length rdd in
  first <- getitem rdd 0 ;;
  let shape := length (snd first) in
  let centers := repeat (repeat (repeat (Fin 0) shape) K) RUNS in
  let local_data := map snd rdd in
  let (ks, g) := randint_array (length local_data) RUNS g in
  sample <- mapM (getitem local_data) ks ;;
  centers <-
    (if (K =? 0)%nat then Raise IndexError
     else Ok (zip_with (fun c s => s :: tl c) centers sample)) ;;
  let D := repeat (repeat PInf n_data) RUNS in
  Ok (centers, D, g).

(** The state after the first [n] rounds of the loop. *)
Definition kmeans_init_rounds {G : Type} `{RandomSource G} (rdd : dataset)
  (K RUNS : nat) (g : G) (n : nat) : result (init_state G) :=
  s <- kmeans_init_start rdd K RUNS g ;;
  foldM (init_round (map snd rdd) RUNS) (seq 0 n) s.

(** [kmeans_init(rdd, K, RUNS, seed)], run from the generator state [g];
    the result is [centers] together with the state the generator is left
    in. *)
Definition kmeans_init {G : Type} `{RandomSource G} (rdd : dataset)
  (K RUNS : nat) (seed : Z) (g : G) : result (centroid_sets * G) :=
  '(centers, _, g') <- kmeans_init_rounds rdd K RUNS g (K - 1) ;;
  Ok (centers, g').

(* ================================================================= *)
(** ** [get_closest] *)

(** The loop [for j in range(len(centers[0]))] for one run: the pair
    [(best[idx], closest[idx])] it leaves. *)
Definition closest_step (p : vec) (run : list vec) (s : nat * float) (j : nat)
  : result (nat * float) :=
  let (best, closest) := s in
  c <- getitem run j ;;
  let temp_dist := norm (vsub p c) in
  if fltb temp_dist closest then Ok (j, temp_dist) else Ok (best, closest).

Definition closest_scan (p : vec) (run : list vec) (K0 : nat)
  : result (nat * float) :=
  foldM (closest_step p run) (seq 0 K0) (O, PInf).

Definition get_closest (p : vec) (centers : centroid_sets)
  : result (list nat) :=
  mapM (fun run => s <- closest_scan p run (length (hd [] centers)) ;;
                   Ok (fst s))
       centers.

(* ================================================================= *)
(** ** [kmeans] *)

(** [EachSet] for run [i] and cluster [j]. *)
Definition EachSet (local_data : list vec) (local_cluster : list (list nat))
  (i j : nat) : list vec :=
  map snd
      (filter (fun xy => (nth (fst xy) (nth i local_cluster []) O =? j)%nat)
              (enumerate local_data)).

(** The dictionary [new_points] after the two nested loops: every key
    [(i, j)] of [range(RUNS) x range(K)] is written in each iteration, so
    the dictionary is the table of its values, entry [(i, j)] at row [i],
    column [j]. *)
Definition compute_new_points (local_data : list vec)
  (local_cluster : list (list nat)) (K RUNS : nat) : list (list ndarray) :=
  map (fun i => map (fun j => mean_axis0 (EachSet local_data local_cluster i j))
                    (seq 0 K))
      (seq 0 RUNS).

(** The expression assigned to [temp_dist] in the loop body. *)
Definition max_shift (k_points : centroid_sets)
  (new_points : list (list ndarray)) (K RUNS : nat) : result float :=
  np_max
    (map (fun idx =>
            np_sum
              (map (fun j =>
                      norm (vsub_nd (nth j (nth idx k_points []) [])
                                    (nth j (nth idx new_points [])
                                         (Scalar NaN))))
                   (seq 0 K)))
         (seq 0 RUNS)).

(** The loop [for ((idx, j), p) in new_points.items()]. *)
Definition update_centroids (k_points : centroid_sets)
  (new_points : list (list ndarray)) : centroid_sets :=
  zip_with (zip_with assign_row) k_points new_points.

(** One pass through the body of the [while] loop: the new [k_points] and
    the new [temp_dist].  [k_points] holds [RUNS] sets of [K] centroids, as
    [kmeans_init] returns it, so that a row of [cluster] has [RUNS]
    entries. *)
Definition kmeans_body (rdd : dataset) (K RUNS : nat) (k_points : centroid_sets)
  : result (centroid_sets * float) :=
  let local_data := map snd rdd in
  cluster <- mapM (fun x => get_closest (snd x) k_points) rdd ;;
  let local_cluster := transpose O RUNS cluster in
  let new_points := compute_new_points local_data local_cluster K RUNS in
  temp_dist <- max_shift k_points new_points K RUNS ;;
  Ok (update_centroids k_points new_points, temp_dist).

(** The [while temp_dist > converge_dist] loop.  [None]: the fuel ran out
    with the loop still running. *)
Fixpoint kmeans_loop (fuel : nat) (rdd : dataset) (K RUNS : nat)
  (converge_dist : float) (k_points : centroid_sets) (temp_dist : float)
  : option (result centroid_sets) :=
  if fgtb temp_dist converge_dist then
    match fuel with
    | O => None
    | S fuel' =>
        match kmeans_body rdd K RUNS k_points with
        | Ok (k_points', temp_dist') =>
            kmeans_loop fuel' rdd K RUNS converge_dist k_points' temp_dist'
        | Raise e => Some (Raise e)
        end
    end
  else Some (Ok k_points).

Definition kmeans {G : Type} `{RandomSource G} (fuel : nat) (rdd : dataset)
  (K RUNS : nat) (converge_dist : float) (seed : Z) (g : G)
  : option (result centroid_sets) :=
  match kmeans_init rdd K RUNS seed g with
  | Raise e => Some (Raise e)
  | Ok (k_points, _) =>
      kmeans_loop fuel rdd K RUNS converge_dist k_points (Fin 1)
  end.

(* ================================================================= *)
(** ** [get_cost] *)

(** The local function [_get_cost]: the loops of [get_closest], returning
    [np.array(closest)**2]. *)
Definition _get_cost (p : vec) (centers : centroid_sets) : result vec :=
  mapM (fun run => s <- closest_scan p run (length (hd [] centers)) ;;
                   Ok (fsquare (snd s)))
       centers.

(** [np.array(cost).sum(axis=0)]: the sum of the rows; of no row, the
    scalar zero. *)
Definition sum_axis0 (rows : list vec) : ndarray :=
  match rows with
  | [] => Scalar (Fin 0)
  | r :: rs => Array1 (fold_left vadd rs r)
  end.

(** [get_cost(rdd, centers)].  The body reads the notebook's global
    variable [centroids], which is the first argument here. *)
Definition get_cost (centroids : centroid_sets) (rdd : dataset)
  (centers : centroid_sets) : result ndarray :=
  cost <- mapM (fun nv => _get_cost (snd nv) centroids) rdd ;;
  Ok (sum_axis0 cost).

(* ================================================================= *)
(** ** [compute_entropy] *)

(** [np.log2]: [-inf] at zero, [nan] below it (with a warning). *)
Definition flog2 (a : float) : float :=
  match a with
  | Fin x =>
      if Rlt_bool 0 x then Fin (ln x / ln 2)
      else if Req_bool x 0 then NInf else NaN
  | PInf => PInf
  | NInf | NaN => NaN
  end.

(** [compute_entropy(d)]; [d] is the array [np.array(d)]. *)
Definition compute_entropy (d : list float) : float :=
  let s := np_sum d in
  let d := map (fun x => fdiv (fmul (Fin 1) x) s) d in
  fopp (np_sum (map (fun x => fmul x (flog2 x)) d)).

(* ================================================================= *)
(** ** The entropy cell *)

(** [str(n)] of a non-negative integer. *)
Definition str (n : nat) : string := NilEmpty.string_of_uint (Nat.to_uint n).

(** A Python [dict] with string keys. *)
Fixpoint dict_get {V : Type} (d : list (string * V)) (k : string) (default : V) : V :=
  match d with
  | [] => default
  | (k', v) :: d' => if String.eqb k' k then v else dict_get d' k default
  end.

Fixpoint dict_set {V : Type} (d : list (string * V)) (k : string) (v : V)
  : list (string * V) :=
  match d with
  | [] => [(k, v)]
  | (k', v') :: d' =>
      if String.eqb k' k then (k', v) :: d' else (k', v') :: dict_set d' k v
  end.

(** [','.join(map(str, sig[:(i + 1)]))] *)
Definition signature_key (sig : list nat) (i : nat) : string :=
  String.concat "," (map str (firstn (S i) sig)).

(** The body of [for g, sig in group] for the run index [i]. *)
Definition count_step (i : nat) (count : list (string * Z)) (gs : string * list nat)
  : list (string * Z) :=
  let _s := signature_key (snd gs) i in
  dict_set count _s (dict_get count _s 0%Z + 1)%Z.

(** [count] after the inner loop of the entropy cell for the run index [i]. *)
Definition count_signatures (group : list (string * list nat)) (i : nat)
  : list (string * Z) :=
  fold_left (count_step i) group [].

(** The array NumPy makes of a list of integers, as floats. *)
Definition int_array (l : list Z) : list float := map (fun z => Fin (IZR z)) l.

(* ================================================================= *)
(** ** The program on machine numbers

    Which centroid [get_closest] answers and whether the loop of [kmeans]
    goes on are decided by comparisons of computed numbers, and float64
    rounds and overflows where the reals do not.  The functions that take
    these decisions are therefore embedded a second time, over any
    arithmetic: the operations and comparisons NumPy applies to its
    numbers.  Two arithmetics are given: the extended reals above, and
    IEEE 754 binary64 (Rocq's primitive floats). *)

Class Arithmetic (num : Type) : Type := {
  num_add : num -> num -> num;
  num_sub : num -> num -> num;
  num_mul : num -> num -> num;
  num_div : num -> num -> num;
  num_sqrt : num -> num;
  num_ltb : num -> num -> bool;
  num_is_nan : num -> bool;
  num_of_nat : nat -> num;
  num_inf : num;
  num_nan : num
}.

(** What the comparison [<] of an arithmetic obeys: a strict order that
    ranks all numbers but [nan], with [+inf] on top; no comparison with
    [nan] holds. *)
Class ArithmeticLaws (num : Type) `{Arithmetic num} : Prop := {
  num_ltb_irrefl : forall a, num_ltb a a = false;
  num_ltb_trans : forall a b c,
      num_ltb a b = true -> num_ltb b c = true -> num_ltb a c = true;
  num_ltb_below : forall a b c,
      num_ltb a c = true -> num_ltb b c = false -> num_is_nan b = false ->
      num_ltb a b = true;
  num_inf_top : forall a b,
      num_ltb a num_inf = false -> num_ltb b num_inf = false ->
      num_ltb b a = false;
  num_ltb_nan_r : forall a b, num_is_nan b = true -> num_ltb a b = false
}.

(** The extended reals. *)
#[export] Instance exact_arithmetic : Arithmetic float := {|
  num_add := fadd;
  num_sub := fsub;
  num_mul := fmul;
  num_div := fdiv;
  num_sqrt := fsqrt;
  num_ltb := fltb;
  num_is_nan := is_nan;
  num_of_nat n := Fin (INR n);
  num_inf := PInf;
  num_nan := NaN
|}.

(** IEEE 754 binary64, round to nearest even: NumPy's [float64]. *)
#[export] Instance binary64 : Arithmetic PrimFloat.float := {|
  num_add := PrimFloat.add;
  num_sub := PrimFloat.sub;
  num_mul := PrimFloat.mul;
  num_div := PrimFloat.div;
  num_sqrt := PrimFloat.sqrt;
  num_ltb := PrimFloat.ltb;
  num_is_nan := PrimFloat.is_nan;
  num_of_nat n := PrimFloat.of_uint63 (Uint63.of_Z (Z.of_nat n));
  num_inf := PrimFloat.infinity;
  num_nan := PrimFloat.nan
|}.

Module Machine.
Section Program.
Context {num : Type} `{Arithmetic num}.

(** [a - b] on 1-d arrays, with NumPy's rule for their shapes: equal
    lengths, or one side of length one, which is repeated; anything else
    is a [ValueError]. *)
Definition np_sub (a b : list num) : result (list num) :=
  if (length a =? length b)%nat then Ok (zip_with num_sub a b)
  else match a, b with
       | _, [y] => Ok (map (fun x => num_sub x y) a)
       | [x], _ => Ok (map (fun y => num_sub x y) b)
       | _, _ => Raise ValueError
       end.

(** [np.sum] of a 1-d array. *)
Definition np_sum (l : list num) : num := fold_left num_add l (num_of_nat 0).

(** [numpy.linalg.norm] of a 1-d array. *)
Definition norm (v : list num) : num :=
  num_sqrt (np_sum (map (fun x => num_mul x x) v)).

Definition np_max2 (a b : num) : num :=
  if num_is_nan a then a
  else if num_is_nan b then b
  else if num_ltb a b then b else a.

(** [np.max] of a list of numbers: [nan] as soon as one of them is. *)
Definition np_max (l : list num) : result num :=
  match l with
  | [] => Raise ValueError
  | x :: l' => Ok (fold_left np_max2 l' x)
  end.

(** A 1-d array, or the 0-d scalar that the mean of an empty array is. *)
Inductive ndarray : Type :=
| Scalar (x : num)
| Array1 (v : list num).

(** [np.array(rows).mean(axis=0)] for rows of one length. *)
Definition mean_axis0 (rows : list (list num)) : ndarray :=
  match rows with
  | [] => Scalar num_nan
  | r :: rs =>
      Array1 (map (fun s => num_div s (num_of_nat (length rows)))
                  (fold_left (zip_with num_add) rs r))
  end.

(** [v - a] *)
Definition sub_nd (v : list num) (a : ndarray) : result (list num) :=
  match a with
  | Scalar x => Ok (map (fun c => num_sub c x) v)
  | Array1 w => np_sub v w
  end.

(** [k_points[idx][j] = p]: the row takes the values of [p], repeated when
    [p] is a scalar or has one entry; another length is a [ValueError]. *)
Definition assign_row (old : list num) (p : ndarray) : result (list num) :=
  match p with
  | Scalar x => Ok (map (fun _ => x) old)
  | Array1 w =>
      if (length w =? length old)%nat then Ok w
      else match w with
           | [x] => Ok (map (fun _ => x) old)
           | _ => Raise ValueError
           end
  end.

(** [norm(p - c)] for [p] and [c] of one length. *)
Definition distance (p c : list num) : num := norm (zip_with num_sub p c).

(** *** [get_closest] *)

Definition closest_step (p : list num) (run : list (list num)) (s : nat * num)
  (j : nat) : result (nat * num) :=
  let (best, closest) := s in
  c <- getitem run j ;;
  diff <- np_sub p c ;;
  let temp_dist := norm diff in
  if num_ltb temp_dist closest then Ok (j, temp_dist) else Ok (best, closest).

Definition closest_scan (p : list num) (run : list (list num)) (K0 : nat)
  : result (nat * num) :=
  foldM (closest_step p run) (seq 0 K0) (O, num_inf).

Definition get_closest (p : list num) (centers : list (list (list num)))
  : result (list nat) :=
  mapM (fun run => s <- closest_scan p run (length (hd [] centers)) ;;
                   Ok (fst s))
       centers.

(** *** The loop of [kmeans] *)

Definition EachSet (local_data : list (list num)) (local_cluster : list (list nat))
  (i j : nat) : list (list num) :=
  map snd
      (filter (fun xy => (nth (fst xy) (nth i local_cluster []) O =? j)%nat)
              (enumerate local_data)).

Definition compute_new_points (local_data : list (list num))
  (local_cluster : list (list nat)) (K RUNS : nat) : list (list ndarray) :=
  map (fun i => map (fun j => mean_axis0 (EachSet local_data local_cluster i j))
                    (seq 0 K))
      (seq 0 RUNS).

(** The expression assigned to [temp_dist]. *)
Definition max_shift (k_points : list (list (list num)))
  (new_points : list (list ndarray)) (K RUNS : nat) : result num :=
  sums <- mapM (fun idx =>
                  ds <- mapM (fun j =>
                                c <- getitem (nth idx k_points []) j ;;
                                p <- getitem (nth idx new_points []) j ;;
                                diff <- sub_nd c p ;;
                                Ok (norm diff))
                             (seq 0 K) ;;
                  Ok (np_sum ds))
               (seq 0 RUNS) ;;
  np_max sums.

(** The loop [for ((idx, j), p) in new_points.items()]: one assignment
    [k_points[idx][j] = p] for every key of [range(RUNS) x range(K)]. *)
Definition update_centroids (k_points : list (list (list num)))
  (new_points : list (list ndarray)) (K RUNS : nat)
  : result (list (list (list num))) :=
  foldM (fun kp idx =>
           foldM (fun kp j =>
                    run <- getitem kp idx ;;
                    old <- getitem run j ;;
                    p <- getitem (nth idx new_points []) j ;;
                    row <- assign_row old p ;;
                    Ok (set_nth kp idx (set_nth run j row)))
                 (seq 0 K) kp)
        (seq 0 RUNS) k_points.

Definition kmeans_body (rdd : list (string * list num)) (K RUNS : nat)
  (k_points : list (list (list num)))
  : result (list (list (list num)) * num) :=
  let local_data := map snd rdd in
  cluster <- mapM (fun x => get_closest (snd x) k_points) rdd ;;
  let local_cluster := transpose O RUNS cluster in
  let new_points := compute_new_points local_data local_cluster K RUNS in
  temp_dist <- max_shift k_points new_points K RUNS ;;
  k_points' <- update_centroids k_points new_points K RUNS ;;
  Ok (k_points', temp_dist).

(** The [while temp_dist > converge_dist] loop. *)
Fixpoint kmeans_loop (fuel : nat) (rdd : list (string * list num)) (K RUNS : nat)
  (converge_dist : num) (k_points : list (list (list num))) (temp_dist : num)
  : option (result (list (list (list num)))) :=
  if num_ltb converge_dist temp_dist then
    match fuel with
    | O => None
    | S fuel' =>
        match kmeans_body rdd K RUNS k_points with
        | Ok (k_points', temp_dist') =>
            kmeans_loop fuel' rdd K RUNS converge_dist k_points' temp_dist'
        | Raise e => Some (Raise e)
        end
    end
  else Some (Ok k_points).

End Program.
End Machine.

(* ================================================================= *)
(** ** Reference notions over the reals

    The quantities the properties below speak about, written directly on
    real-valued vectors and independently of the program. *)

(** A vector of reals. *)
Abbreviation rvec := (list R) (only parsing).

Definition inj_vec (v : rvec) : vec := map Fin v.
Definition inj_sets (c : list (list rvec)) : centroid_sets :=
  map (map inj_vec) c.
Definition inj_data (pts : list (string * rvec)) : dataset :=
  map (fun nv => (fst nv, inj_vec (snd nv))) pts.

(** Sum of a list of reals. *)
Definition Rsum (l : list R) : R := fold_right Rplus 0 l.

(** Euclidean distance between two vectors of one dimension. *)
Definition euclid (a b : rvec) : R :=
  sqrt (Rsum (zip_with (fun x y => (x - y) * (x - y)) a b)).

(** Largest element of a non-empty list of reals. *)
Fixpoint Rmaximum (x : R) (l : list R) : R :=
  match l with
  | [] => x
  | y :: l' => Rmax x (Rmaximum y l')
  end.

(** The shift between two collections: the largest, over the runs, of the
    summed displacement of the run's centroids. *)
Definition run_shift (old new : list rvec) : R :=
  Rsum (zip_with euclid old new).

Definition shift_metric (old new : list (list rvec)) : R :=
  match zip_with run_shift old new with
  | [] => 0
  | x :: l => Rmaximum x l
  end.

(** [first_argmin d l b]: [b] is the first position of [l] at which [d] is
    least. *)
Definition first_argmin {A : Type} (d : A -> R) (l : list A) (b : nat) : Prop :=
  exists cb, nth_error l b = Some cb /\
    (forall j c, nth_error l j = Some c -> d cb <= d c) /\
    (forall j c, (j < b)%nat -> nth_error l j = Some c -> d cb < d c).

(** Squared distance from [p] to the nearest centroid of a non-empty
    [run]. *)
Definition nearest_sq (p : rvec) (run : list rvec) : R :=
  match map (euclid p) run with
  | [] => 0
  | d :: ds => let m := fold_left Rmin ds d in m * m
  end.

(** The k-means objective of one run. *)
Definition run_cost (pts : list rvec) (run : list rvec) : R :=
  Rsum (map (fun p => nearest_sq p run) pts).

Definition finite (a : float) : Prop :=
  match a with Fin _ => True | _ => False end.

Definition finite_data (rdd : dataset) : Prop :=
  Forall (fun nv => Forall finite (snd nv)) rdd.

(** Entry [D[r][x]] of the distance table. *)
Definition entry (D : list (list float)) (r x : nat) : float :=
  nth x (nth r D []) NaN.

(** What the loop of [kmeans_init] maintains for [N] points: [centers] has
    [RUNS] sets of real-valued vectors, and [D] is a [RUNS x N] table of
    non-negative entries. *)
Definition init_inv (N RUNS : nat) (centers : centroid_sets)
  (D : list (list float)) : Prop :=
  length centers = RUNS /\
  Forall (Forall (Forall finite)) centers /\
  length D = RUNS /\
  Forall (fun row => length row = N) D /\
  (forall r x, (r < RUNS)%nat -> (x < N)%nat -> fle (Fin 0) (entry D r x)).

(** The table [new_points] when every entry is a finite vector. *)
Definition inj_new (cand : list (list rvec)) : list (list ndarray) :=
  map (map (fun c => Array1 (inj_vec c))) cand.

(** State of the scan of one run after its first [n] centroids. *)
Definition scan_inv (p : rvec) (run : list rvec) (n : nat) (s : nat * float) : Prop :=
  match n with
  | O => s = (O, PInf)
  | S _ =>
      exists cb, nth_error run (fst s) = Some cb /\ (fst s < n)%nat /\
        snd s = Fin (euclid p cb) /\
        (forall j c, (j < n)%nat -> nth_error run j = Some c -> euclid p cb <= euclid p c) /\
        (forall j c, (j < fst s)%nat -> nth_error run j = Some c -> euclid p cb < euclid p c)
  end.

(** A weight that can carry the running sum of [choice] past the draw. *)
Definition positive (a : float) : Prop :=
  match a with
  | Fin w => 0 < w
  | PInf => True
  | _ => False
  end.

(** What the seeding loop maintains for run [0] after [n] rounds: the
    centroids [0..n] of the run are the points at the pairwise distinct
    positions [cs] of the data, and the table holds zero at the positions
    of the centroids it has already taken into account. *)
Definition run0_inv (local_data : list vec) (K n : nat) (centers : centroid_sets)
  (D : list (list float)) : Prop :=
  length (nth 0 centers []) = K /\
  exists cs : list nat,
    length cs = S n /\ NoDup cs /\
    (forall c, In c cs -> (c < length local_data)%nat) /\
    (forall j, (j <= n)%nat ->
       nth j (nth 0 centers []) [] = nth (nth j cs O) local_data []) /\
    (forall j, (j < n)%nat -> entry D 0 (nth j cs O) = Fin 0).

(** [centers] holds [RUNS] sets of real-valued vectors. *)
Definition centers_ok (RUNS : nat) (centers : centroid_sets) : Prop :=
  length centers = RUNS /\ Forall (Forall (Forall finite)) centers.

(** Every point of the data has [d] coordinates. *)
Definition same_dim (d : nat) (rdd : dataset) : Prop :=
  Forall (fun nv => length (snd nv) = d) rdd.

(** The squared distance [update_dist] computes between point [x] of the
    data and centroid [j] of a run. *)
Definition sq_dist (local_data : list vec) (run : list vec) (x j : nat) : float :=
  fsquare (norm (vsub (nth x local_data []) (nth j run []))).

(** What the seeding loop maintains for run [r] after [n] rounds: the run
    has [K] slots, its centroids [0..n] are pairwise distinct points of the
    data, and the table holds [+inf] before the first round and afterwards
    the least squared distance to the centroids [0..n-1]. *)
Definition seed_inv (local_data : list vec) (K n r : nat) (centers : centroid_sets)
  (D : list (list float)) : Prop :=
  let run := nth r centers [] in
  length run = K /\
  (forall j, (j <= n)%nat -> In (nth j run []) local_data) /\
  NoDup (firstn (S n) run) /\
  forall x, (x < length local_data)%nat ->
    (n = O -> entry D r x = PInf) /\
    (forall j, (j < n)%nat -> fle (entry D r x) (sq_dist local_data run x j)) /\
    ((0 < n)%nat -> exists j, (j < n)%nat /\ entry D r x = sq_dist local_data run x j).

(** The Shannon entropy, in bits, of the distribution with weights [ps]. *)
Definition shannon (ps : list R) : R :=
  - Rsum (map (fun p => p * (ln p / ln 2)) ps).

(** Sum of a list of integers. *)
Definition Zsum (l : list Z) : Z := fold_right Z.add 0%Z l.

(** The number a binary64 value stands for ([0] for an infinity or [nan]),
    as a fraction and as a real. *)
Definition SF2Q (f : spec_float) : Q :=
  match f with
  | S754_finite s m e =>
      let v := if (0 <=? e)%Z then inject_Z (Zpos m * 2 ^ e)
               else Qmake (Zpos m) (Z.to_pos (2 ^ (- e))) in
      Qred (if s then Qopp v else v)
  | _ => 0%Q
  end.

Definition B2R (x : PrimFloat.float) : R := Q2R (SF2Q (Prim2SF x)).

(** The points assigned to cluster [j] of run [i], their coordinate-wise
    mean, and the table of these means: the candidates of an iteration,
    over the reals. *)
Definition real_EachSet (pts : list (list R)) (local_cluster : list (list nat))
  (i j : nat) : list (list R) :=
  map snd
      (filter (fun xy => (nth (fst xy) (nth i local_cluster []) O =? j)%nat)
              (enumerate pts)).

Definition real_mean (rows : list (list R)) : list R :=
  map (fun s => s / INR (length rows))
      (fold_left (zip_with Rplus) (tl rows) (hd [] rows)).

Definition real_candidates (pts : list (list R)) (local_cluster : list (list nat))
  (K RUNS : nat) : list (list (list R)) :=
  map (fun i => map (fun j => real_mean (real_EachSet pts local_cluster i j))
                    (seq 0 K))
      (seq 0 RUNS).

(* ================================================================= *)
(** ** Data sets of the worked examples *)

(** One point. *)
Definition rdd_one : dataset := [("a"%string, [Fin 0])].

(** Two distinct points. *)
Definition rdd_two : dataset := [("a"%string, [Fin 0]); ("b"%string, [Fin 1])].

(** Two copies of one point. *)
Definition rdd_twins : dataset := [("a"%string, [Fin 3]); ("b"%string, [Fin 3])].


(** Two points that mirror each other. *)
Definition rdd_mirror : list (string * list PrimFloat.float) :=
  [("a"%string, [0.5%float; 0x1p-31%float]);
   ("b"%string, [(-0.5)%float; (-0x1p-31)%float])].

(* ================================================================= *)
(** * Properties *)

(** ** Deciding comparisons of reals *)

Lemma Rlt_bool_true (a b : R) : a < b -> Rlt_bool a b = true.
Proof. intros Hab. unfold Rlt_bool. destruct (Rlt_dec a b); [reflexivity | contradiction]. Qed.

Lemma Rlt_bool_false (a b : R) : b <= a -> Rlt_bool a b = false.
Proof. intros Hab. unfold Rlt_bool. destruct (Rlt_dec a b); [lra | reflexivity]. Qed.

Lemma Rlt_bool_iff (a b : R) : Rlt_bool a b = true <-> a < b.
Proof.
  unfold Rlt_bool. destruct (Rlt_dec a b); split; intros; auto; discriminate.
Qed.

Lemma Req_bool_true (a b : R) : a = b -> Req_bool a b = true.
Proof. intros Hab. unfold Req_bool. destruct (Req_dec_T a b); [reflexivity | contradiction]. Qed.

Lemma Req_bool_false (a b : R) : a <> b -> Req_bool a b = false.
Proof. intros Hab. unfold Req_bool. destruct (Req_dec_T a b); [contradiction | reflexivity]. Qed.

(** ** The monad and the list helpers *)

Lemma foldM_app {A S : Type} (f : S -> A -> result S) (l1 l2 : list A) (s : S) :
  foldM f (l1 ++ l2) s = (s' <- foldM f l1 s ;; foldM f l2 s').
Proof.
  revert s. induction l1 as [|a l1 IH]; intros s; simpl; [reflexivity|].
  destruct (f s a); simpl; auto.
Qed.

Lemma mapM_length {A B : Type} (f : A -> result B) (l : list A) (bs : list B) :
  mapM f l = Ok bs -> length bs = length l.
Proof.
  revert bs. induction l as [|a l IH]; simpl; intros bs Hm.
  - injection Hm as <-. reflexivity.
  - destruct (f a); simpl in Hm; [|discriminate].
    destruct (mapM f l); simpl in Hm; [|discriminate].
    injection Hm as <-. simpl. f_equal. auto.
Qed.

Lemma mapM_ok_pointwise {A B : Type} (f : A -> result B) (g : A -> B) (l : list A) :
  (forall a, In a l -> f a = Ok (g a)) -> mapM f l = Ok (map g l).
Proof.
  induction l as [|a l IH]; simpl; intros Hf; [reflexivity|].
  rewrite (Hf a) by auto. simpl. rewrite IH by auto. reflexivity.
Qed.

(** ** [kmeans]: the first test of the loop *)

Lemma kmeans_loop_exit (fuel : nat) (rdd : dataset) (K RUNS : nat)
  (converge_dist : float) (k_points : centroid_sets) (temp_dist : float) :
  fgtb temp_dist converge_dist = false ->
  kmeans_loop fuel rdd K RUNS converge_dist k_points temp_dist = Some (Ok k_points).
Proof. intros Hgt. destruct fuel; simpl; rewrite Hgt; reflexivity. Qed.


Lemma fgtb_one_false (c : float) : fle (Fin 1) c -> fgtb (Fin 1) c = false.
Proof.
  destruct c as [x| | |]; simpl; intros Hle; try reflexivity; try contradiction.
  apply Rlt_bool_false. exact Hle.
Qed.

(** C10.  When [converge_dist >= 1.0] the loop of [kmeans] is never
    entered ([temp_dist] starts at the constant [1.0] and the test is the
    strict [temp_dist > converge_dist]): with any fuel, even none, [kmeans]
    returns exactly the collection [kmeans_init] produced, and an exception
    of [kmeans_init] is passed on. *)
Theorem kmeans_threshold_ge_one_returns_init :
  forall (G : Type) (RS : RandomSource G) (fuel : nat) (rdd : dataset)
         (K RUNS : nat) (converge_dist : float) (seed : Z) (g : G),
    fle (Fin 1) converge_dist ->
    kmeans fuel rdd K RUNS converge_dist seed g =
    match kmeans_init rdd K RUNS seed g with
    | Ok (k_points, _) => Some (Ok k_points)
    | Raise e => Some (Raise e)
    end.
Proof.
  intros G RS fuel rdd K RUNS cd seed g Hle. unfold kmeans.
  destruct (kmeans_init rdd K RUNS seed g) as [[kp g']|e]; [|reflexivity].
  apply kmeans_loop_exit, fgtb_one_false, Hle.
Qed.

(** ** Evaluating the program on rational data

    On one-coordinate vectors with rational entries every number the
    program computes is rational; the tactics below evaluate the program
    there, deciding each comparison with [lra] after the closed real
    expressions have been brought to a numeral or a quotient of numerals. *)

Lemma norm_1d (x : R) : norm [Fin x] = Fin (Rabs x).
Proof.
  unfold norm, np_sum, fsquare. simpl.
  rewrite Rlt_bool_false by nra.
  f_equal. replace (0 + x * x) with (Rsqr x) by (unfold Rsqr; ring).
  apply sqrt_Rsqr_abs.
Qed.

Arguments norm : simpl never.

Ltac r2q e :=
  lazymatch e with
  | IZR ?z => constr:(inject_Z z)
  | INR ?n => constr:(inject_Z (Z.of_nat n))
  | - ?a => let x := r2q a in constr:(Qopp x)
  | / ?a => let x := r2q a in constr:(Qinv x)
  | ?a + ?b => let x := r2q a in let y := r2q b in constr:(Qplus x y)
  | ?a - ?b => let x := r2q a in let y := r2q b in constr:(Qminus x y)
  | ?a * ?b => let x := r2q a in let y := r2q b in constr:(Qmult x y)
  | ?a / ?b => let x := r2q a in let y := r2q b in constr:(Qdiv x y)
  | Rabs ?a => let x := r2q a in constr:(Qabs x)
  end.

Ltac q2lit q :=
  let q' := eval vm_compute in (Qred q) in
  lazymatch q' with
  | Qmake ?n 1%positive => constr:(IZR n)
  | Qmake ?n ?d => constr:(IZR n / IZR (Zpos d))
  end.

Ltac rnorm_term e :=
  let q := r2q e in
  let l := q2lit q in
  tryif constr_eq e l then fail
  else replace e with l
         by (simpl INR;
             first [ lra | field; lra
                   | unfold Rabs; destruct (Rcase_abs _); lra ]).

Ltac fnorm :=
  match goal with
  | |- context [Fin ?e] => rnorm_term e
  | |- context [Rlt_bool ?a ?b] => first [rnorm_term a | rnorm_term b]
  | |- context [Req_bool ?a ?b] => first [rnorm_term a | rnorm_term b]
  end.

Ltac rdec :=
  match goal with
  | |- context [Rlt_bool ?a ?b] =>
      first [ rewrite (Rlt_bool_true a b) by lra
            | rewrite (Rlt_bool_false a b) by lra ]
  | |- context [Req_bool ?a ?b] =>
      first [ rewrite (Req_bool_true a b) by lra
            | rewrite (Req_bool_false a b) by lra ]
  end.

Ltac fstep :=
  first
    [ rewrite norm_1d
    | fnorm
    | rdec
    | progress simpl
    | progress
        (unfold kmeans, kmeans_init, kmeans_init_rounds, kmeans_init_start,
           init_round, next_D, prob_of, init_sample, choice, update_dist, column,
           transpose,
           enumerate, vsub, vadd, fsquare, fsub, np_sum, np_min2, np_max2,
           np_max, fgtb, getitem, kmeans_body, get_closest, closest_scan,
           closest_step, compute_new_points, EachSet, max_shift, mean_axis0,
           vsub_nd, update_centroids, assign_row, get_cost, _get_cost,
           sum_axis0, inj_sets, inj_vec, inj_data,
           np_random_random, np_random_randint, tape_source) ].

Ltac feval := repeat fstep.

Lemma kmeans_threshold_ge_one_returns_init_witness :
  fle (Fin 1) (Fin 2) /\
  kmeans 0 [("a"%string, [Fin 0])] 1 1 (Fin 2) 7%Z ([] : tape) =
  match kmeans_init [("a"%string, [Fin 0])] 1 1 7%Z ([] : tape) with
  | Ok (k_points, _) => Some (Ok k_points)
  | Raise e => Some (Raise e)
  end.
Proof.
  split; [simpl; lra|].
  apply (kmeans_threshold_ge_one_returns_init tape tape_source).
  simpl; lra.
Defined.

(** ** [get_closest] on empty sets of centroids *)

(** C7, as the code behaves.  With [K = 0] the inner loop of [get_closest]
    has no iteration, nothing is raised, and the initial [best = [0] * RUNS]
    is returned: index [0] for every run. *)
Theorem get_closest_no_centroid_returns_zeros :
  forall (p : vec) (RUNS : nat),
    get_closest p (repeat [] RUNS) = Ok (repeat O RUNS).
Proof.
  intros p RUNS. unfold get_closest.
  replace (repeat O RUNS) with (map (fun _ : list vec => O) (repeat [] RUNS)).
  - apply mapM_ok_pointwise. intros run Hin.
    destruct RUNS as [|n]; [contradiction|]. reflexivity.
  - induction RUNS as [|n IH]; simpl; [reflexivity | now rewrite IH].
Qed.

(** C7 fails as stated: for two runs without centroids [get_closest]
    returns a list of indices and raises nothing. *)
Lemma get_closest_no_centroid_no_fault :
  get_closest [Fin 1] [[]; []] = Ok [O; O].
Proof. reflexivity. Qed.

(** ** [choice] when the running sum never passes the draw *)





(** Two coinciding points and [K = 2]: after the first centroid every
    entry of [D] is zero, the weights are [0/0], and seeding ends in the
    assertion failure of [choice]. *)
Example kmeans_init_coinciding_points :
  prob_of (next_D (map snd rdd_twins) 1 [[[Fin 3]; [Fin 0]]] [[PInf; PInf]] 0)
    = [[NaN; NaN]] /\
  kmeans_init rdd_twins 2 1 7%Z ([1%nat] : tape) = Raise AssertionError.
Proof. unfold rdd_twins. split; feval; reflexivity. Qed.

(** ** [kmeans_init] and its [seed] argument *)

(** C3, as the code behaves.  [kmeans_init] never reads [seed]: its draws
    come from the global generator, so the result is determined by the
    points, [K], [RUNS] and the state of that generator at the call,
    whatever seed is passed. *)
Theorem kmeans_init_determined_by_generator_state :
  forall (G : Type) (RS : RandomSource G) (rdd : dataset) (K RUNS : nat)
         (seed1 seed2 : Z) (g : G),
    kmeans_init rdd K RUNS seed1 g = kmeans_init rdd K RUNS seed2 g.
Proof. intros. reflexivity. Qed.

(** C3 fails as stated: the same points, [K], [RUNS] and seed [7], run
    from two states of the generator, give two different collections. *)
Lemma kmeans_init_same_seed_differs :
  kmeans_init rdd_two 1 1 7%Z ([0%nat] : tape) = Ok ([[[Fin 0]]], []) /\
  kmeans_init rdd_two 1 1 7%Z ([1%nat] : tape) = Ok ([[[Fin 1]]], []) /\
  [[[Fin 0]]] <> [[[Fin 1]]].
Proof.
  split; [|split].
  - unfold rdd_two. feval. reflexivity.
  - unfold rdd_two. feval. reflexivity.
  - intros Heq. injection Heq as Heq. lra.
Qed.

(** ** [get_closest] on real-valued data *)

Lemma vsub_inj (a b : rvec) :
  vsub (inj_vec a) (inj_vec b) = inj_vec (zip_with Rminus a b).
Proof.
  revert b. induction a as [|x a IH]; intros [|y b]; simpl; try reflexivity.
  unfold vsub, inj_vec in *. simpl. f_equal. apply IH.
Qed.

Lemma fold_fadd_inj (l : list R) (acc : R) :
  fold_left fadd (map fsquare (inj_vec l)) (Fin acc) =
  Fin (acc + Rsum (map (fun x => x * x) l)).
Proof.
  revert acc. induction l as [|x l IH]; intros acc; simpl.
  - f_equal. lra.
  - rewrite IH. f_equal. lra.
Qed.

Lemma sq_zip (a b : rvec) :
  map (fun x => x * x) (zip_with Rminus a b) =
  zip_with (fun x y => (x - y) * (x - y)) a b.
Proof.
  revert b. induction a as [|x a IH]; intros [|y b]; simpl; try reflexivity.
  f_equal. apply IH.
Qed.

Lemma Rsum_squares_nonneg (l : list R) : 0 <= Rsum (map (fun x => x * x) l).
Proof. induction l as [|x l IH]; simpl; [lra | nra]. Qed.

Lemma norm_vsub_inj (a b : rvec) :
  norm (vsub (inj_vec a) (inj_vec b)) = Fin (euclid a b).
Proof.
  rewrite vsub_inj. unfold norm, np_sum. rewrite fold_fadd_inj.
  rewrite Rplus_0_l. simpl. 
  rewrite Rlt_bool_false by apply Rsum_squares_nonneg.
  unfold euclid. now rewrite sq_zip.
Qed.

Lemma euclid_nonneg (a b : rvec) : 0 <= euclid a b.
Proof. apply sqrt_pos. Qed.

Lemma seq_snoc (n : nat) : seq 0 (S n) = seq 0 n ++ [n].
Proof. rewrite seq_S. reflexivity. Qed.

Lemma nth_error_inj_run (run : list rvec) (j : nat) :
  nth_error (map inj_vec run) j = option_map inj_vec (nth_error run j).
Proof. apply nth_error_map. Qed.

Lemma closest_scan_prefix (p : rvec) (run : list rvec) (n : nat) :
  (n <= length run)%nat ->
  exists s, closest_scan (inj_vec p) (map inj_vec run) n = Ok s /\ scan_inv p run n s.
Proof.
  unfold closest_scan. induction n as [|n IH]; intros Hn.
  - exists (O, PInf). split; reflexivity.
  - destruct IH as [[best closest] [Hs Hinv]]; [lia|].
    rewrite seq_snoc, foldM_app, Hs. simpl.
    destruct (nth_error run n) as [c|] eqn:Ec.
    2:{ apply nth_error_None in Ec. lia. }
    unfold getitem. rewrite nth_error_inj_run, Ec. simpl.
    rewrite norm_vsub_inj.
    destruct n as [|n'].
    + simpl in Hinv. injection Hinv as -> ->. simpl.
      exists (O, Fin (euclid p c)). split; [reflexivity|].
      exists c. simpl. repeat split; auto.
      * intros j c' Hj Hc'. assert (j = O) as -> by lia. rewrite Ec in Hc'.
        injection Hc' as <-. lra.
      * intros j c' Hj. lia.
    + destruct Hinv as (cb & Hcb & Hlt & Hcl & Hmin & Hfirst). cbn [fst snd] in *.
      subst closest. cbn [fltb].
      destruct (Rlt_dec (euclid p c) (euclid p cb)) as [Hless|Hge].
      * rewrite Rlt_bool_true by assumption.
        exists (S n', Fin (euclid p c)). split; [reflexivity|].
        exists c. simpl. repeat split; auto.
        -- intros j c' Hj Hc'. destruct (Nat.eq_dec j (S n')) as [->|Hne].
           ++ rewrite Ec in Hc'. injection Hc' as <-. lra.
           ++ specialize (Hmin j c'). assert (j < S n')%nat by lia. 
              specialize (Hmin H Hc'). lra.
        -- intros j c' Hj Hc'. specialize (Hmin j c' Hj Hc'). lra.
      * rewrite Rlt_bool_false by lra.
        exists (best, Fin (euclid p cb)). split; [reflexivity|].
        exists cb. simpl. repeat split; auto.
        intros j c' Hj Hc'. destruct (Nat.eq_dec j (S n')) as [->|Hne].
        -- rewrite Ec in Hc'. injection Hc' as <-. lra.
        -- apply (Hmin j c'); [lia | assumption].
Qed.

Lemma closest_scan_full (p : rvec) (run : list rvec) :
  (0 < length run)%nat ->
  exists b cb, closest_scan (inj_vec p) (map inj_vec run) (length run) = Ok (b, Fin (euclid p cb)) /\
    nth_error run b = Some cb /\
    (forall j c, nth_error run j = Some c -> euclid p cb <= euclid p c) /\
    (forall j c, (j < b)%nat -> nth_error run j = Some c -> euclid p cb < euclid p c).
Proof.
  intros Hpos. destruct (closest_scan_prefix p run (length run)) as [[b cl] [Hs Hinv]]; [lia|].
  destruct (length run) as [|n] eqn:El; [lia|].
  destruct Hinv as (cb & Hcb & Hlt & Hcl & Hmin & Hfirst). cbn [fst snd] in *. subst cl.
  exists b, cb. repeat split; auto.
  intros j c Hc. apply (Hmin j c); [|assumption].
  assert (j < length run)%nat by (apply nth_error_Some; congruence). lia.
Qed.

Lemma mapM_map {A B C : Type} (f : B -> result C) (h : A -> B) (l : list A) :
  mapM f (map h l) = mapM (fun a => f (h a)) l.
Proof. induction l as [|a l IH]; simpl; [reflexivity | now rewrite IH]. Qed.

Lemma mapM_Forall2 {A B : Type} (f : A -> result B) (P : A -> B -> Prop)
  (l : list A) :
  (forall a, In a l -> exists b, f a = Ok b /\ P a b) ->
  exists bs, mapM f l = Ok bs /\ Forall2 P l bs.
Proof.
  induction l as [|a l IH]; simpl; intros Hf.
  - exists []. split; [reflexivity | constructor].
  - destruct (Hf a) as [b [Hb HP]]; [auto|].
    destruct IH as [bs [Hbs HF]]; [auto|].
    exists (b :: bs). rewrite Hb. simpl. rewrite Hbs. simpl.
    split; [reflexivity | constructor; assumption].
Qed.

Example get_closest_ties :
  get_closest (inj_vec [2]) (inj_sets [[[3]; [1]]; [[2]; [2]]]) = Ok [O; O].
Proof. feval. reflexivity. Qed.

(** ** [kmeans]: the shift metric and the loop test *)

Lemma map_nth_seq_zip {A B C : Type} (f : A -> B -> C) (da : A) (db : B)
  (l : list A) (l' : list B) (K : nat) :
  length l = K -> length l' = K ->
  map (fun j => f (nth j l da) (nth j l' db)) (seq 0 K) = zip_with f l l'.
Proof.
  revert l l'. induction K as [|K IH]; intros l l' Hl Hl'.
  - destruct l; [|discriminate]. reflexivity.
  - destruct l as [|a l]; [discriminate|]. destruct l' as [|b l']; [discriminate|].
    simpl. f_equal. rewrite <- seq_shift, map_map. simpl.
    apply IH; simpl in *; lia.
Qed.

Lemma fold_fadd_Fin (l : list R) (acc : R) :
  fold_left fadd (map Fin l) (Fin acc) = Fin (acc + Rsum l).
Proof.
  revert acc. induction l as [|x l IH]; intros acc; simpl.
  - f_equal. lra.
  - rewrite IH. f_equal. lra.
Qed.

Lemma np_sum_Fin (l : list R) : np_sum (map Fin l) = Fin (Rsum l).
Proof. unfold np_sum. rewrite fold_fadd_Fin. f_equal. lra. Qed.

Lemma np_max2_Fin (a b : R) : np_max2 (Fin a) (Fin b) = Fin (Rmax a b).
Proof.
  unfold np_max2, Rmax. simpl. unfold Rlt_bool.
  destruct (Rlt_dec a b), (Rle_dec a b); try reflexivity; f_equal; lra.
Qed.

Lemma Rmaximum_Rmax (x y : R) (l : list R) :
  Rmaximum (Rmax x y) l = Rmax x (Rmaximum y l).
Proof.
  revert x y. induction l as [|z l IH]; intros x y; simpl; [reflexivity|].
  rewrite <- Rmax_assoc. f_equal.
Qed.

Lemma fold_np_max2_Fin (l : list R) (x : R) :
  fold_left np_max2 (map Fin l) (Fin x) = Fin (Rmaximum x l).
Proof.
  revert x. induction l as [|y l IH]; intros x; simpl; [reflexivity|].
  rewrite np_max2_Fin, IH, Rmaximum_Rmax. reflexivity.
Qed.

Lemma nth_inj_sets (c : list (list rvec)) (i j : nat) :
  nth j (nth i (inj_sets c) []) [] = inj_vec (nth j (nth i c []) []).
Proof.
  unfold inj_sets.
  change (@nil vec) with (map inj_vec []) at 1. rewrite map_nth.
  change (@nil float) with (inj_vec []) at 1. rewrite map_nth. reflexivity.
Qed.

Lemma nth_map_lt {A B : Type} (f : A -> B) (l : list A) (j : nat) (d : B) (d' : A) :
  (j < length l)%nat -> nth j (map f l) d = f (nth j l d').
Proof.
  intros Hj. rewrite (nth_indep _ d (f d')) by (rewrite length_map; exact Hj).
  apply map_nth.
Qed.

Lemma rect_nth_length {A : Type} (c : list (list A)) (K i : nat) :
  Forall (fun run => length run = K) c -> (i < length c)%nat ->
  length (nth i c []) = K.
Proof.
  intros Hrect Hi. rewrite Forall_forall in Hrect. apply Hrect, nth_In, Hi.
Qed.

Lemma max_shift_finite (old cand : list (list rvec)) (K RUNS : nat) :
  (0 < RUNS)%nat ->
  length old = RUNS -> Forall (fun run => length run = K) old ->
  length cand = RUNS -> Forall (fun run => length run = K) cand ->
  max_shift (inj_sets old) (inj_new cand) K RUNS = Ok (Fin (shift_metric old cand)).
Proof.
  intros HR Hlo Hro Hlc Hrc. unfold max_shift.
  assert (Hrows :
    map (fun idx =>
           np_sum (map (fun j =>
              norm (vsub_nd (nth j (nth idx (inj_sets old) []) [])
                            (nth j (nth idx (inj_new cand) []) (Scalar NaN))))
              (seq 0 K)))
        (seq 0 RUNS)
    = map Fin (zip_with run_shift old cand)).
  { rewrite <- (map_nth_seq_zip run_shift [] [] old cand RUNS Hlo Hlc).
    rewrite map_map. apply map_ext_in. intros idx Hidx.
    apply in_seq in Hidx.
    assert (Hko : length (nth idx old []) = K) by (apply rect_nth_length; [assumption | lia]).
    assert (Hkc : length (nth idx cand []) = K) by (apply rect_nth_length; [assumption | lia]).
    unfold run_shift.
    rewrite <- (map_nth_seq_zip euclid [] [] _ _ K Hko Hkc).
    rewrite <- np_sum_Fin, map_map. f_equal.
    apply map_ext_in. intros j Hj. apply in_seq in Hj.
    rewrite nth_inj_sets. unfold inj_new.
    change (@nil ndarray) with (map (fun c => Array1 (inj_vec c)) []).
    rewrite map_nth.
    rewrite (nth_map_lt _ _ _ _ ([] : rvec)) by lia.
    simpl. apply norm_vsub_inj. }
  rewrite Hrows. unfold shift_metric.
  destruct (zip_with run_shift old cand) as [|x l] eqn:Ez.
  - destruct old; [simpl in Hlo; lia|]. destruct cand; [simpl in Hlc; lia|]. discriminate.
  - simpl. now rewrite fold_np_max2_Fin.
Qed.

Lemma assign_rows_finite (o c : list rvec) :
  length o = length c ->
  zip_with assign_row (map inj_vec o) (map (fun v => Array1 (inj_vec v)) c) =
  map inj_vec c.
Proof.
  revert c. induction o as [|x o IH]; intros [|y c] Hlen; simpl in *;
    try discriminate; try reflexivity.
  f_equal. apply IH. lia.
Qed.

Lemma update_centroids_finite (old cand : list (list rvec)) (K : nat) :
  length old = length cand ->
  Forall (fun run => length run = K) old ->
  Forall (fun run => length run = K) cand ->
  update_centroids (inj_sets old) (inj_new cand) = inj_sets cand.
Proof.
  unfold update_centroids, inj_sets, inj_new.
  revert cand. induction old as [|o old IH]; intros [|c cand] Hlen Ho Hc;
    simpl in *; try discriminate; try reflexivity.
  apply Forall_cons_iff in Ho. destruct Ho as [Ho1 Ho2].
  apply Forall_cons_iff in Hc. destruct Hc as [Hc1 Hc2].
  f_equal.
  - apply assign_rows_finite. congruence.
  - apply IH; auto.
Qed.

Lemma map_eq_In {A B C : Type} (f : A -> C) (g : B -> C) (l : list A) (l' : list B)
  (b : B) :
  map f l = map g l' -> In b l' -> exists a, In a l /\ f a = g b.
Proof.
  revert l. induction l' as [|b0 l' IH]; intros [|a l] Heq Hin; simpl in *;
    try discriminate; try contradiction.
  injection Heq as Hhd Htl. destruct Hin as [->|Hin].
  - exists a. auto.
  - destruct (IH l Htl Hin) as [a' [Ha' Hf]]. exists a'. auto.
Qed.

Lemma new_points_shape (local_data : list vec) (local_cluster : list (list nat))
  (K RUNS : nat) (cand : list (list rvec)) :
  compute_new_points local_data local_cluster K RUNS = inj_new cand ->
  length cand = RUNS /\ Forall (fun run => length run = K) cand.
Proof.
  unfold compute_new_points, inj_new. intros Heq. split.
  - apply (f_equal (@length _)) in Heq. rewrite !length_map, length_seq in Heq. lia.
  - rewrite Forall_forall. intros run Hin.
    destruct (map_eq_In _ _ _ _ _ Heq Hin) as (i & _ & Hrow).
    apply (f_equal (@length _)) in Hrow. rewrite !length_map, length_seq in Hrow. lia.
Qed.

(** ** [kmeans_init]: the table [D] *)


Lemma finite_inj (v : vec) : Forall finite v -> exists l, v = inj_vec l.
Proof.
  induction 1 as [|a v Ha _ [l ->]].
  - exists []. reflexivity.
  - destruct a as [x| | |]; try contradiction. exists (x :: l). reflexivity.
Qed.

Lemma sq_dist_finite (v c : vec) :
  Forall finite v -> Forall finite c ->
  exists q, 0 <= q /\ fsquare (norm (vsub v c)) = Fin q.
Proof.
  intros Hv Hc. destruct (finite_inj v Hv) as [a ->].
  destruct (finite_inj c Hc) as [b ->].
  rewrite norm_vsub_inj. exists (euclid a b * euclid a b). split; [|reflexivity].
  pose proof (euclid_nonneg a b). nra.
Qed.

Lemma euclid_self (a : rvec) : euclid a a = 0.
Proof.
  unfold euclid.
  assert (Hz : Rsum (zip_with (fun x y => (x - y) * (x - y)) a a) = 0).
  { induction a as [|x a IH]; simpl; [reflexivity|]. rewrite IH. ring. }
  rewrite Hz. apply sqrt_0.
Qed.

Lemma sq_dist_self (v : vec) :
  Forall finite v -> fsquare (norm (vsub v v)) = Fin 0.
Proof.
  intros Hv. destruct (finite_inj v Hv) as [a ->].
  rewrite norm_vsub_inj, euclid_self. simpl. f_equal. ring.
Qed.

Lemma np_min2_nonneg (d : float) (q : R) :
  fle (Fin 0) d -> 0 <= q ->
  fle (Fin 0) (np_min2 d (Fin q)) /\ fle (np_min2 d (Fin q)) d /\
  finite (np_min2 d (Fin q)).
Proof.
  intros Hd Hq. destruct d as [x| | |]; simpl in Hd; try contradiction.
  - unfold np_min2. simpl. unfold Rlt_bool.
    destruct (Rlt_dec q x); simpl; repeat split; lra.
  - unfold np_min2. simpl. repeat split; auto.
Qed.

Lemma np_min2_zero_r (d : float) : fle (Fin 0) d -> np_min2 d (Fin 0) = Fin 0.
Proof.
  intros Hd. destruct d as [x| | |]; simpl in Hd; try contradiction.
  - unfold np_min2. simpl. unfold Rlt_bool.
    destruct (Rlt_dec 0 x); [reflexivity|]. f_equal. lra.
  - reflexivity.
Qed.

Lemma np_min2_zero_l (q : R) : 0 <= q -> np_min2 (Fin 0) (Fin q) = Fin 0.
Proof.
  intros Hq. unfold np_min2. simpl. now rewrite Rlt_bool_false.
Qed.

Lemma zip_with_length {A B C : Type} (f : A -> B -> C) (a : list A) (b : list B) :
  length (zip_with f a b) = Nat.min (length a) (length b).
Proof.
  revert b. induction a as [|x a IH]; intros [|y b]; simpl; auto.
Qed.

Lemma zip_with_nth {A B C : Type} (f : A -> B -> C) (a : list A) (b : list B)
  (i : nat) (da : A) (db : B) (dc : C) :
  (i < length a)%nat -> (i < length b)%nat ->
  nth i (zip_with f a b) dc = f (nth i a da) (nth i b db).
Proof.
  revert b i. induction a as [|x a IH]; intros [|y b] [|i] Ha Hb; simpl in *;
    try lia; [reflexivity|]. apply IH; lia.
Qed.

Lemma enumerate_nth {A : Type} (l : list A) (x : nat) (d : A) :
  (x < length l)%nat -> nth x (enumerate l) (O, d) = (x, nth x l d).
Proof.
  intros Hx. unfold enumerate.
  rewrite combine_nth by (now rewrite length_seq).
  rewrite seq_nth by exact Hx. reflexivity.
Qed.

Lemma enumerate_length {A : Type} (l : list A) : length (enumerate l) = length l.
Proof.
  unfold enumerate. rewrite length_combine, length_seq. lia.
Qed.

Lemma transpose_entry (RUNS : nat) (M : list (list float)) (r x : nat) :
  (r < RUNS)%nat -> (x < length M)%nat ->
  entry (transpose NaN RUNS M) r x = nth r (nth x M []) NaN.
Proof.
  intros Hr Hx. unfold entry, transpose.
  rewrite (nth_map_lt _ _ _ _ O) by (now rewrite length_seq).
  rewrite seq_nth by exact Hr. simpl. unfold column.
  now rewrite (nth_map_lt _ _ _ _ ([] : list float)).
Qed.

Lemma next_D_entry (local_data : list vec) (RUNS : nat) (centers : centroid_sets)
  (D : list (list float)) (idx r x : nat) :
  length centers = RUNS -> length D = RUNS ->
  (r < RUNS)%nat -> (x < length local_data)%nat ->
  entry (next_D local_data RUNS centers D idx) r x =
  np_min2 (entry D r x)
          (fsquare (norm (vsub (nth x local_data []) (nth idx (nth r centers []) [])))).
Proof.
  intros Hc HD Hr Hx. unfold next_D.
  rewrite transpose_entry by (rewrite ?length_map, ?enumerate_length; assumption).
  rewrite (nth_map_lt _ _ _ _ (O, ([] : vec))) by (now rewrite enumerate_length).
  rewrite enumerate_nth by exact Hx. simpl. unfold update_dist.
  rewrite (zip_with_nth _ _ _ _ NaN NaN).
  - unfold column. rewrite (nth_map_lt _ _ _ _ ([] : list float)) by lia.
    rewrite (nth_map_lt _ _ _ _ ([] : list vec)) by lia. reflexivity.
  - unfold column. rewrite length_map. lia.
  - rewrite length_map. lia.
Qed.

Lemma next_D_shape (local_data : list vec) (RUNS : nat) (centers : centroid_sets)
  (D : list (list float)) (idx : nat) :
  length (next_D local_data RUNS centers D idx) = RUNS /\
  Forall (fun row => length row = length local_data)
         (next_D local_data RUNS centers D idx).
Proof.
  unfold next_D, transpose. split.
  - now rewrite length_map, length_seq.
  - rewrite Forall_forall. intros row Hin. apply in_map_iff in Hin.
    destruct Hin as [c [<- _]]. unfold column.
    now rewrite !length_map, enumerate_length.
Qed.

Lemma foldM_invariant {A S : Type} (f : S -> A -> result S) (P : S -> Prop)
  (l : list A) (s s' : S) :
  (forall s a s', In a l -> P s -> f s a = Ok s' -> P s') ->
  P s -> foldM f l s = Ok s' -> P s'.
Proof.
  revert s. induction l as [|a l IH]; simpl; intros s Hstep Hs Hf.
  - injection Hf as <-. exact Hs.
  - destruct (f s a) as [s1|e] eqn:E1; simpl in Hf; [|discriminate].
    apply (IH s1); eauto.
Qed.

Lemma set_nth_length {A : Type} (l : list A) (i : nat) (v : A) :
  length (set_nth l i v) = length l.
Proof.
  revert i. induction l as [|a l IH]; intros [|i]; simpl; auto.
Qed.

Lemma set_nth_Forall {A : Type} (P : A -> Prop) (l : list A) (i : nat) (v : A) :
  Forall P l -> P v -> Forall P (set_nth l i v).
Proof.
  intros Hl Hv. revert i. induction Hl as [|a l Ha Hl IH]; intros [|i]; simpl;
    constructor; auto.
Qed.

Lemma Forall_nth_default {A : Type} (P : A -> Prop) (l : list A) (i : nat) (d : A) :
  Forall P l -> P d -> P (nth i l d).
Proof.
  intros Hl Hd. destruct (Nat.lt_ge_cases i (length l)) as [Hi|Hi].
  - rewrite Forall_forall in Hl. apply Hl, nth_In, Hi.
  - rewrite nth_overflow by exact Hi. exact Hd.
Qed.

Lemma getitem_In {A : Type} (l : list A) (i : nat) (a : A) :
  getitem l i = Ok a -> In a l.
Proof.
  unfold getitem. destruct (nth_error l i) eqn:E; [|discriminate].
  intros Heq. injection Heq as <-. eapply nth_error_In, E.
Qed.

Lemma init_sample_centers_ok {G : Type} `{RandomSource G} (local_data : list vec)
  (prob : list (list float)) (idx RUNS : nat) (s s' : centroid_sets * G) (i : nat) :
  Forall (Forall finite) local_data ->
  centers_ok RUNS (fst s) ->
  init_sample local_data prob idx s i = Ok s' ->
  centers_ok RUNS (fst s').
Proof.
  intros Hdata [Hlen Hfin]. destruct s as [centers g]. unfold init_sample.
  destruct (getitem prob i) as [p|e]; simpl; [|discriminate].
  destruct (choice p g) as [[ind g1]|e]; simpl; [|discriminate].
  destruct (getitem local_data ind) as [v|e] eqn:Ev; simpl; [|discriminate].
  intros Heq. injection Heq as <-. simpl in *. split.
  - now rewrite set_nth_length.
  - apply set_nth_Forall; [exact Hfin|].
    apply set_nth_Forall.
    + apply Forall_nth_default; [exact Hfin | constructor].
    + rewrite Forall_forall in Hdata. apply Hdata. eapply getitem_In, Ev.
Qed.

Lemma init_round_spec {G : Type} `{RandomSource G} (local_data : list vec)
  (RUNS idx : nat) (centers centers' : centroid_sets) (D D' : list (list float))
  (g g' : G) :
  Forall (Forall finite) local_data ->
  init_inv (length local_data) RUNS centers D ->
  init_round local_data RUNS (centers, D, g) idx = Ok (centers', D', g') ->
  D' = next_D local_data RUNS centers D idx /\
  init_inv (length local_data) RUNS centers' D' /\
  (forall r x, (r < RUNS)%nat -> (x < length local_data)%nat ->
     fle (entry D' r x) (entry D r x)).
Proof.
  intros Hdata (Hlen & Hfin & HlD & HrD & Hpos). unfold init_round.
  set (D1 := next_D local_data RUNS centers D idx).
  destruct (foldM _ (seq 0 RUNS) (centers, g)) as [[c1 g1]|e] eqn:Ef; simpl;
    [|discriminate].
  intros Heq. injection Heq as <- <- <-.
  assert (Hc1 : centers_ok RUNS c1).
  { apply (foldM_invariant _ (fun s => centers_ok RUNS (fst s)) _ _ _) in Ef.
    - exact Ef.
    - intros s a s' _ Hs Hstep. eapply init_sample_centers_ok; eauto.
    - split; assumption. }
  destruct Hc1 as [Hlen1 Hfin1].
  assert (Hentry : forall r x, (r < RUNS)%nat -> (x < length local_data)%nat ->
            fle (Fin 0) (entry D1 r x) /\ fle (entry D1 r x) (entry D r x)).
  { intros r x Hr Hx. unfold D1. rewrite next_D_entry by assumption.
    destruct (sq_dist_finite (nth x local_data []) (nth idx (nth r centers []) []))
      as (q & Hq & ->).
    - apply Forall_nth_default; [exact Hdata | constructor].
    - apply Forall_nth_default; [|constructor].
      apply Forall_nth_default; [exact Hfin | constructor].
    - destruct (np_min2_nonneg (entry D r x) q (Hpos r x Hr Hx) Hq) as (H1 & H2 & _).
      split; assumption. }
  split; [reflexivity|]. split.
  - destruct (next_D_shape local_data RUNS centers D idx) as [Hl Hrows].
    repeat split; try assumption. intros r x Hr Hx. apply Hentry; assumption.
  - intros r x Hr Hx. apply Hentry; assumption.
Qed.

Lemma randint_array_length {G : Type} `{RandomSource G} (high size : nat) (g : G) :
  length (fst (randint_array high size g)) = size.
Proof.
  revert g. induction size as [|n IH]; intros g; simpl; [reflexivity|].
  destruct (np_random_randint high g) as [k g1].
  specialize (IH g1). destruct (randint_array high n g1) as [ks g2].
  simpl in *. now rewrite IH.
Qed.

Lemma mapM_Forall {A B : Type} (f : A -> result B) (Q : B -> Prop) (l : list A)
  (bs : list B) :
  (forall a b, f a = Ok b -> Q b) -> mapM f l = Ok bs -> Forall Q bs.
Proof.
  intros Hf. revert bs. induction l as [|a l IH]; simpl; intros bs Hm.
  - injection Hm as <-. constructor.
  - destruct (f a) as [b|e] eqn:Eb; simpl in Hm; [|discriminate].
    destruct (mapM f l) as [bs'|e]; simpl in Hm; [|discriminate].
    injection Hm as <-. constructor; eauto.
Qed.

Lemma zip_with_Forall {A B C : Type} (f : A -> B -> C) (P : A -> Prop)
  (Q : B -> Prop) (R : C -> Prop) (a : list A) (b : list B) :
  (forall x y, P x -> Q y -> R (f x y)) ->
  Forall P a -> Forall Q b -> Forall R (zip_with f a b).
Proof.
  intros Hf Ha. revert b. induction Ha as [|x a Hx Ha IH]; intros b Hb.
  - constructor.
  - destruct Hb as [|y b Hy Hb]; simpl; constructor; auto.
Qed.

Lemma Forall_repeat {A : Type} (P : A -> Prop) (a : A) (n : nat) :
  P a -> Forall P (repeat a n).
Proof. intros Ha. induction n; simpl; constructor; auto. Qed.

Lemma Forall_tl {A : Type} (P : A -> Prop) (l : list A) :
  Forall P l -> Forall P (tl l).
Proof. destruct 1; simpl; [constructor | assumption]. Qed.

Lemma finite_data_local (rdd : dataset) :
  finite_data rdd -> Forall (Forall finite) (map snd rdd).
Proof. unfold finite_data. intros Hd. now apply Forall_map. Qed.

Lemma entry_repeat (a : float) (N RUNS r x : nat) :
  (r < RUNS)%nat -> (x < N)%nat -> entry (repeat (repeat a N) RUNS) r x = a.
Proof.
  intros Hr Hx. unfold entry.
  rewrite (nth_indep _ [] (repeat a N)) by (now rewrite repeat_length).
  rewrite nth_repeat.
  rewrite (nth_indep _ NaN a) by (now rewrite repeat_length).
  apply nth_repeat.
Qed.

Lemma kmeans_init_start_inv {G : Type} `{RandomSource G} (rdd : dataset)
  (K RUNS : nat) (g g' : G) (centers : centroid_sets) (D : list (list float)) :
  finite_data rdd ->
  kmeans_init_start rdd K RUNS g = Ok (centers, D, g') ->
  init_inv (length (map snd rdd)) RUNS centers D.
Proof.
  intros Hdata. apply finite_data_local in Hdata. unfold kmeans_init_start.
  destruct (getitem rdd 0) as [first|e]; simpl; [|discriminate].
  pose proof (randint_array_length (length (map snd rdd)) RUNS g) as Hks.
  destruct (randint_array (length (map snd rdd)) RUNS g) as [ks g1]. simpl in Hks.
  destruct (mapM (getitem (map snd rdd)) ks) as [sample|e] eqn:Es; simpl;
    [|discriminate].
  destruct (K =? 0)%nat; simpl; [discriminate|].
  intros Heq. injection Heq as <- <- <-.
  pose proof (mapM_length _ _ _ Es) as Hls.
  assert (Hsf : Forall (Forall finite) sample).
  { apply (mapM_Forall _ _ _ _ (fun a b Hab => getitem_In _ _ _ Hab)) in Es.
    rewrite Forall_forall in *. auto. }
  repeat split.
  - rewrite zip_with_length, repeat_length. lia.
  - apply (zip_with_Forall _ (Forall (Forall finite)) (Forall finite)).
    + intros c s Hc Hs. constructor; [exact Hs | now apply Forall_tl].
    + apply Forall_repeat, Forall_repeat, Forall_repeat. exact I.
    + exact Hsf.
  - apply repeat_length.
  - apply Forall_repeat. rewrite repeat_length. now rewrite length_map.
  - intros r x Hr Hx. rewrite entry_repeat; [exact I | assumption |].
    now rewrite length_map in Hx.
Qed.

Lemma kmeans_init_rounds_S {G : Type} `{RandomSource G} (rdd : dataset)
  (K RUNS : nat) (g : G) (n : nat) :
  kmeans_init_rounds rdd K RUNS g (S n) =
  (s <- kmeans_init_rounds rdd K RUNS g n ;; init_round (map snd rdd) RUNS s n).
Proof.
  unfold kmeans_init_rounds. rewrite seq_snoc.
  destruct (kmeans_init_start rdd K RUNS g) as [s0|e]; simpl; [|reflexivity].
  rewrite foldM_app. destruct (foldM _ (seq 0 n) s0) as [s1|e]; simpl; [|reflexivity].
  destruct (init_round (map snd rdd) RUNS s1 n); reflexivity.
Qed.

Lemma kmeans_init_rounds_inv {G : Type} `{RandomSource G} (rdd : dataset)
  (K RUNS : nat) (g g' : G) (n : nat) (centers : centroid_sets)
  (D : list (list float)) :
  finite_data rdd ->
  kmeans_init_rounds rdd K RUNS g n = Ok (centers, D, g') ->
  init_inv (length (map snd rdd)) RUNS centers D.
Proof.
  intros Hdata. revert centers D g'. induction n as [|n IH]; intros centers D g' Hr.
  - unfold kmeans_init_rounds in Hr.
    destruct (kmeans_init_start rdd K RUNS g) as [[[c0 D0] g0]|e] eqn:E0;
      simpl in Hr; [|discriminate].
    injection Hr as <- <- <-. eapply kmeans_init_start_inv; eauto.
  - rewrite kmeans_init_rounds_S in Hr.
    destruct (kmeans_init_rounds rdd K RUNS g n) as [[[c1 D1] g1]|e] eqn:E1;
      simpl in Hr; [|discriminate].
    eapply init_round_spec in Hr; [| now apply finite_data_local | eapply IH; eauto ].
    apply Hr.
Qed.

Example seeding_distance_cache_round_one :
  kmeans_init_rounds rdd_two 2 1 ([0; 0]%nat : tape) 1
    = Ok ([[[Fin 0]; [Fin 1]]], [[Fin 0; Fin 1]], []).
Proof. unfold rdd_two. feval. reflexivity. Qed.

(** ** [kmeans_init] with fewer points than clusters *)

Lemma choice_loop_raise (p : list float) (idx : nat) (r random : float) (e : exn) :
  choice_loop p idx r random = Raise e -> e = AssertionError.
Proof.
  revert idx r. induction p as [|w p IH]; intros idx r Hr;
    cbn [choice_loop] in Hr.
  - now injection Hr.
  - destruct (fgtb (fadd r w) random); [discriminate | eauto].
Qed.

Lemma passes_positive (r w : float) (u : R) :
  fgtb r (Fin u) = false -> fgtb (fadd r w) (Fin u) = true -> positive w.
Proof.
  destruct r as [r0| | |], w as [w0| | |]; simpl; try discriminate; auto.
  intros Hr Hw. apply Rlt_bool_iff in Hw.
  unfold Rlt_bool in Hr. destruct (Rlt_dec u r0); [discriminate|]. lra.
Qed.

Lemma choice_loop_ok (p : list float) (idx : nat) (r : float) (u : R) (i : nat) :
  fgtb r (Fin u) = false ->
  choice_loop p idx r (Fin u) = Ok i ->
  (idx <= i < idx + length p)%nat /\ positive (nth (i - idx) p NaN).
Proof.
  revert idx r. induction p as [|w p IH]; intros idx r Hr Hc;
    cbn [choice_loop length] in *.
  - discriminate.
  - destruct (fgtb (fadd r w) (Fin u)) eqn:Ew.
    + assert (idx = i) as <- by congruence. split; [lia|]. rewrite Nat.sub_diag.
      simpl. eapply passes_positive; eauto.
    + destruct (IH (S idx) (fadd r w) Ew Hc) as [Hi Hp]. split; [lia|].
      replace (i - idx)%nat with (S (i - S idx)) by lia. exact Hp.
Qed.

Lemma choice_ok {G : Type} `{RandomSource G} (p : list float) (g g' : G) (ind : nat) :
  RandomSourceLaws G ->
  choice p g = Ok (ind, g') ->
  (ind < length p)%nat /\ positive (nth ind p NaN).
Proof.
  intros Hlaws. unfold choice.
  pose proof (random_range G Hlaws g) as Hu.
  destruct (np_random_random g) as [u g1]. simpl in Hu.
  destruct (choice_loop p 0 (Fin 0) (Fin u)) as [i|e] eqn:Ec; simpl; [|discriminate].
  intros Heq. injection Heq as <- <-.
  apply choice_loop_ok in Ec.
  - rewrite Nat.sub_0_r in Ec. simpl in Ec. destruct Ec as [[_ Hi] Hp].
    split; assumption.
  - simpl. apply Rlt_bool_false. lra.
Qed.

Lemma choice_raise {G : Type} `{RandomSource G} (p : list float) (g : G) (e : exn) :
  choice p g = Raise e -> e = AssertionError.
Proof.
  unfold choice. destruct (np_random_random g) as [u g1].
  destruct (choice_loop p 0 (Fin 0) (Fin u)) as [i|e'] eqn:Ec; simpl; [discriminate|].
  intros Heq. injection Heq as <-. eapply choice_loop_raise, Ec.
Qed.

Lemma fdiv_zero_not_positive (y : float) : ~ positive (fdiv (Fin 0) y).
Proof.
  destruct y as [s| | |]; simpl; try tauto; try lra.
  unfold Req_bool. destruct (Req_dec_T s 0).
  - destruct (Req_dec_T 0 0); [simpl; tauto | congruence].
  - simpl. unfold Rdiv. rewrite Rmult_0_l. lra.
Qed.

Lemma set_nth_same {A : Type} (l : list A) (i : nat) (v d : A) :
  (i < length l)%nat -> nth i (set_nth l i v) d = v.
Proof.
  revert i. induction l as [|a l IH]; intros [|i] Hi; simpl in *; try lia; auto.
  apply IH. lia.
Qed.

Lemma set_nth_other {A : Type} (l : list A) (i j : nat) (v d : A) :
  i <> j -> nth j (set_nth l i v) d = nth j l d.
Proof.
  revert i j. induction l as [|a l IH]; intros [|i] [|j] Hij; simpl; auto; try lia.
Qed.

Lemma getitem_lt {A : Type} (l : list A) (i : nat) (d : A) :
  (i < length l)%nat -> getitem l i = Ok (nth i l d).
Proof.
  intros Hi. unfold getitem. now rewrite (nth_error_nth' l d Hi).
Qed.

Lemma foldM_raise {A S : Type} (f : S -> A -> result S) (Q : exn -> Prop)
  (l : list A) (s : S) (e : exn) :
  (forall s a e, In a l -> f s a = Raise e -> Q e) ->
  foldM f l s = Raise e -> Q e.
Proof.
  revert s. induction l as [|a l IH]; simpl; intros s Hstep Hf.
  - discriminate.
  - destruct (f s a) as [s1|e1] eqn:E1; simpl in Hf.
    + apply (IH s1); eauto.
    + injection Hf as <-. eapply Hstep; eauto.
Qed.

Lemma init_sample_spec {G : Type} `{RandomSource G} (local_data : list vec)
  (D : list (list float)) (RUNS idx i : nat) (centers : centroid_sets) (g : G) :
  RandomSourceLaws G ->
  length D = RUNS ->
  Forall (fun row => length row = length local_data) D ->
  (i < RUNS)%nat ->
  match init_sample local_data (prob_of D) idx (centers, g) i with
  | Ok (centers', _) =>
      exists ind, (ind < length local_data)%nat /\ entry D i ind <> Fin 0 /\
        centers' = set_nth centers i
                     (set_nth (nth i centers []) (S idx) (nth ind local_data []))
  | Raise e => e = AssertionError
  end.
Proof.
  intros Hlaws HlD Hrows Hi. unfold init_sample.
  assert (Hrow : length (nth i D []) = length local_data).
  { rewrite Forall_forall in Hrows. apply Hrows, nth_In. lia. }
  rewrite (getitem_lt (prob_of D) i []) by (unfold prob_of; rewrite length_map; lia).
  simpl. unfold prob_of at 1.
  rewrite (nth_map_lt _ _ _ _ ([] : list float)) by lia.
  set (row := nth i D []) in *.
  destruct (choice (map (fun d => fdiv d (np_sum row)) row) g) as [[ind g1]|e] eqn:Ec;
    simpl.
  - apply choice_ok in Ec; [|exact Hlaws]. destruct Ec as [Hind Hpos].
    rewrite length_map in Hind.
    rewrite (nth_map_lt _ _ _ _ NaN) in Hpos by exact Hind.
    rewrite (getitem_lt local_data ind []) by lia. simpl.
    exists ind. repeat split; [lia|].
    intros Hz. unfold entry in Hz. fold row in Hz. rewrite Hz in Hpos.
    exact (fdiv_zero_not_positive _ Hpos).
  - eapply choice_raise, Ec.
Qed.

Lemma init_sample_ok {G : Type} `{RandomSource G} (local_data : list vec)
  (D : list (list float)) (RUNS idx i : nat) (s s' : centroid_sets * G) :
  RandomSourceLaws G ->
  length D = RUNS ->
  Forall (fun row => length row = length local_data) D ->
  (i < RUNS)%nat ->
  init_sample local_data (prob_of D) idx s i = Ok s' ->
  exists ind, (ind < length local_data)%nat /\ entry D i ind <> Fin 0 /\
    fst s' = set_nth (fst s) i
               (set_nth (nth i (fst s) []) (S idx) (nth ind local_data [])).
Proof.
  intros Hlaws HlD Hrows Hi Heq. destruct s as [c g], s' as [c' g'].
  pose proof (init_sample_spec local_data D RUNS idx i c g Hlaws HlD Hrows Hi) as Hs.
  rewrite Heq in Hs. exact Hs.
Qed.

Lemma init_sample_raise {G : Type} `{RandomSource G} (local_data : list vec)
  (D : list (list float)) (RUNS idx i : nat) (s : centroid_sets * G) (e : exn) :
  RandomSourceLaws G ->
  length D = RUNS ->
  Forall (fun row => length row = length local_data) D ->
  (i < RUNS)%nat ->
  init_sample local_data (prob_of D) idx s i = Raise e ->
  e = AssertionError.
Proof.
  intros Hlaws HlD Hrows Hi Heq. destruct s as [c g].
  pose proof (init_sample_spec local_data D RUNS idx i c g Hlaws HlD Hrows Hi) as Hs.
  rewrite Heq in Hs. exact Hs.
Qed.

Lemma init_round_run0 {G : Type} `{RandomSource G} (local_data : list vec)
  (RUNS idx : nat) (centers : centroid_sets) (D : list (list float)) (g : G) :
  RandomSourceLaws G ->
  (0 < RUNS)%nat ->
  length centers = RUNS ->
  match init_round local_data RUNS (centers, D, g) idx with
  | Ok (centers', D', _) =>
      D' = next_D local_data RUNS centers D idx /\
      exists ind, (ind < length local_data)%nat /\ entry D' 0 ind <> Fin 0 /\
        nth 0 centers' [] =
        set_nth (nth 0 centers []) (S idx) (nth ind local_data [])
  | Raise e => e = AssertionError
  end.
Proof.
  intros Hlaws HR Hlc. unfold init_round.
  set (D1 := next_D local_data RUNS centers D idx).
  destruct (next_D_shape local_data RUNS centers D idx) as [HlD Hrows].
  fold D1 in HlD, Hrows.
  destruct RUNS as [|R']; [lia|].
  cbn [seq foldM].
  pose proof (init_sample_spec local_data D1 (S R') idx 0 centers g Hlaws HlD Hrows HR)
    as H0.
  destruct (init_sample local_data (prob_of D1) idx (centers, g) 0) as [[c1 g1]|e];
    cbn [bind]; [|exact H0].
  destruct H0 as (ind & Hind & Hnz & Hc1).
  destruct (foldM (init_sample local_data (prob_of D1) idx) (seq 1 R') (c1, g1))
    as [[c2 g2]|e] eqn:Ef; cbn [bind].
  - split; [reflexivity|]. exists ind. repeat split; try assumption.
    apply (foldM_invariant _ (fun s => nth 0 (fst s) [] = nth 0 c1 [])) in Ef.
    + simpl in Ef. rewrite Ef, Hc1. apply set_nth_same. lia.
    + intros s i s' Hin Hs Hstep. cbv beta in *. apply in_seq in Hin.
      eapply init_sample_ok in Hstep; eauto; [|lia].
      destruct Hstep as (ind' & _ & _ & ->).
      rewrite set_nth_other by lia. exact Hs.
    + reflexivity.
  - apply (foldM_raise _ (fun e => e = AssertionError)) in Ef; [exact Ef|].
    intros s i e' Hin Hstep. apply in_seq in Hin.
    eapply init_sample_raise in Hstep; eauto. lia.
Qed.

Lemma NoDup_snoc {A : Type} (l : list A) (a : A) :
  NoDup l -> ~ In a l -> NoDup (l ++ [a]).
Proof.
  induction l as [|b l IH]; simpl; intros Hnd Hnin.
  - constructor; [tauto | constructor].
  - apply NoDup_cons_iff in Hnd. destruct Hnd as [Hb Hnd].
    constructor.
    + rewrite in_app_iff. simpl. intros [Hin|[Heq|[]]]; [tauto|]. subst. tauto.
    + apply IH; tauto.
Qed.

Lemma run0_zero_entries (local_data : list vec) (K RUNS n : nat)
  (centers : centroid_sets) (D : list (list float)) (cs : list nat) :
  Forall (Forall finite) local_data ->
  (0 < RUNS)%nat ->
  init_inv (length local_data) RUNS centers D ->
  length cs = S n ->
  (forall c, In c cs -> (c < length local_data)%nat) ->
  (forall j, (j <= n)%nat ->
     nth j (nth 0 centers []) [] = nth (nth j cs O) local_data []) ->
  (forall j, (j < n)%nat -> entry D 0 (nth j cs O) = Fin 0) ->
  forall j, (j <= n)%nat ->
    entry (next_D local_data RUNS centers D n) 0 (nth j cs O) = Fin 0.
Proof.
  intros Hdata HR (Hlc & Hfin & HlD & _ & Hpos) Hlen Hbound Hcent Hzero j Hj.
  assert (Hx : (nth j cs O < length local_data)%nat).
  { apply Hbound, nth_In. lia. }
  rewrite next_D_entry by assumption.
  rewrite (Hcent n) by lia.
  destruct (Nat.eq_dec j n) as [->|Hne].
  - rewrite sq_dist_self.
    + apply np_min2_zero_r, Hpos; assumption.
    + apply Forall_nth_default; [exact Hdata | constructor].
  - rewrite Hzero by lia.
    destruct (sq_dist_finite (nth (nth j cs O) local_data [])
                             (nth (nth n cs O) local_data [])) as (q & Hq & ->).
    + apply Forall_nth_default; [exact Hdata | constructor].
    + apply Forall_nth_default; [exact Hdata | constructor].
    + now apply np_min2_zero_l.
Qed.

Lemma run0_step {G : Type} `{RandomSource G} (local_data : list vec)
  (K RUNS n : nat) (centers : centroid_sets) (D : list (list float)) (g : G) :
  RandomSourceLaws G ->
  Forall (Forall finite) local_data ->
  (0 < RUNS)%nat ->
  (S n < K)%nat ->
  init_inv (length local_data) RUNS centers D ->
  run0_inv local_data K n centers D ->
  match init_round local_data RUNS (centers, D, g) n with
  | Ok (centers', D', _) =>
      init_inv (length local_data) RUNS centers' D' /\
      run0_inv local_data K (S n) centers' D'
  | Raise e => e = AssertionError
  end.
Proof.
  intros Hlaws Hdata HR HK Hinv (HlK & cs & Hlen & Hnd & Hbound & Hcent & Hzero).
  assert (Hlc : length centers = RUNS) by apply Hinv.
  pose proof (init_round_run0 local_data RUNS n centers D g Hlaws HR Hlc) as Hrun.
  destruct (init_round local_data RUNS (centers, D, g) n) as [[[c' D'] g']|e] eqn:Er;
    [|exact Hrun].
  destruct Hrun as (HD' & ind & Hind & Hnz & Hc').
  destruct (init_round_spec _ _ _ _ _ _ _ _ _ Hdata Hinv Er) as (_ & Hinv' & _).
  split; [exact Hinv'|].
  pose proof (run0_zero_entries local_data K RUNS n centers D cs
                Hdata HR Hinv Hlen Hbound Hcent Hzero) as Hz.
  rewrite <- HD' in Hz.
  split.
  - rewrite Hc'. now rewrite set_nth_length.
  - exists (cs ++ [ind]). repeat split.
    + rewrite length_app. simpl. lia.
    + apply NoDup_snoc; [exact Hnd|]. intros Hin.
      destruct (In_nth cs ind O Hin) as (j & Hj & Hjn).
      apply Hnz. rewrite <- Hjn. apply Hz. lia.
    + intros c Hin. apply in_app_or in Hin. destruct Hin as [Hin|[<-|[]]]; auto.
    + intros j Hj. rewrite Hc'. destruct (Nat.eq_dec j (S n)) as [->|Hne].
      * rewrite set_nth_same by lia.
        rewrite app_nth2 by lia. rewrite Hlen, Nat.sub_diag. reflexivity.
      * rewrite set_nth_other by lia. rewrite app_nth1 by lia. apply Hcent. lia.
    + intros j Hj. rewrite app_nth1 by lia. apply Hz. lia.
Qed.

Lemma randint_array_range {G : Type} `{RandomSource G} (high size : nat) (g : G) :
  RandomSourceLaws G -> (0 < high)%nat ->
  Forall (fun k => (k < high)%nat) (fst (randint_array high size g)).
Proof.
  intros Hlaws Hh. revert g. induction size as [|n IH]; intros g; simpl.
  - constructor.
  - pose proof (randint_range G Hlaws high g Hh) as Hk.
    destruct (np_random_randint high g) as [k g1]. simpl in Hk.
    specialize (IH g1). destruct (randint_array high n g1) as [ks g2].
    simpl in *. constructor; assumption.
Qed.

Lemma mapM_getitem_ok {A : Type} (l : list A) (ks : list nat) (d : A) :
  Forall (fun k => (k < length l)%nat) ks ->
  mapM (getitem l) ks = Ok (map (fun k => nth k l d) ks).
Proof.
  intros Hks. apply mapM_ok_pointwise. intros k Hin.
  rewrite Forall_forall in Hks. now apply getitem_lt, Hks.
Qed.

Lemma kmeans_init_start_run0 {G : Type} `{RandomSource G} (rdd : dataset)
  (K RUNS : nat) (g : G) :
  RandomSourceLaws G ->
  (0 < length rdd)%nat -> (0 < K)%nat -> (0 < RUNS)%nat ->
  exists centers D g',
    kmeans_init_start rdd K RUNS g = Ok (centers, D, g') /\
    run0_inv (map snd rdd) K 0 centers D.
Proof.
  intros Hlaws HN HK HR. unfold kmeans_init_start.
  destruct rdd as [|first rdd']; [simpl in HN; lia|].
  set (rdd := first :: rdd') in *.
  assert (HN' : (0 < length (map snd rdd))%nat) by (rewrite length_map; exact HN).
  replace (getitem rdd 0) with (Ok first) by reflexivity. cbn [bind].
  pose proof (randint_array_range (length (map snd rdd)) RUNS g Hlaws HN') as Hrange.
  pose proof (randint_array_length (length (map snd rdd)) RUNS g) as Hlen.
  destruct (randint_array (length (map snd rdd)) RUNS g) as [ks g1].
  cbn [fst] in Hrange, Hlen.
  rewrite (mapM_getitem_ok _ _ [] Hrange). cbn [bind].
  destruct K as [|K']; [lia|]. cbn [Nat.eqb bind].
  destruct ks as [|k0 ks]; [simpl in Hlen; lia|].
  destruct RUNS as [|R']; [lia|].
  eexists _, _, _. split; [reflexivity|].
  cbn [repeat map zip_with nth tl]. split.
  - simpl. now rewrite repeat_length.
  - exists [k0]. repeat split.
    + constructor; [simpl; tauto | constructor].
    + intros c [<-|[]]. now inversion Hrange.
    + intros j Hj. assert (j = O) as -> by lia. reflexivity.
    + intros j Hj. lia.
Qed.

Lemma kmeans_init_rounds_0 {G : Type} `{RandomSource G} (rdd : dataset)
  (K RUNS : nat) (g : G) :
  kmeans_init_rounds rdd K RUNS g 0 = kmeans_init_start rdd K RUNS g.
Proof.
  unfold kmeans_init_rounds.
  destruct (kmeans_init_start rdd K RUNS g); reflexivity.
Qed.

Lemma kmeans_init_rounds_run0 {G : Type} `{RandomSource G} (rdd : dataset)
  (K RUNS : nat) (g : G) (n : nat) :
  RandomSourceLaws G ->
  finite_data rdd ->
  (0 < length rdd)%nat -> (0 < RUNS)%nat ->
  (n < K)%nat ->
  match kmeans_init_rounds rdd K RUNS g n with
  | Ok (centers, D, _) =>
      init_inv (length (map snd rdd)) RUNS centers D /\
      run0_inv (map snd rdd) K n centers D
  | Raise e => e = AssertionError
  end.
Proof.
  intros Hlaws Hdata HN HR. induction n as [|n IH]; intros HK.
  - rewrite kmeans_init_rounds_0.
    destruct (kmeans_init_start_run0 rdd K RUNS g Hlaws HN HK HR)
      as (c & D & g' & Hs & Hrun).
    rewrite Hs. split; [|exact Hrun].
    eapply kmeans_init_start_inv; eauto.
  - rewrite kmeans_init_rounds_S.
    specialize (IH ltac:(lia)).
    destruct (kmeans_init_rounds rdd K RUNS g n) as [[[c D] g1]|e]; cbn [bind];
      [|exact IH].
    destruct IH as [Hinv Hrun].
    apply run0_step; auto. now apply finite_data_local.
Qed.

Lemma run0_inv_bound (local_data : list vec) (K n : nat) (centers : centroid_sets)
  (D : list (list float)) :
  run0_inv local_data K n centers D -> (S n <= length local_data)%nat.
Proof.
  intros (_ & cs & Hlen & Hnd & Hbound & _).
  assert (Hle : (length cs <= length (seq 0 (length local_data)))%nat).
  { apply NoDup_incl_length; [exact Hnd|].
    intros c Hin. apply in_seq. specialize (Hbound c Hin). lia. }
  rewrite length_seq in Hle. lia.
Qed.

Lemma kmeans_init_rounds_raise_more {G : Type} `{RandomSource G} (rdd : dataset)
  (K RUNS : nat) (g : G) (n m : nat) (e : exn) :
  kmeans_init_rounds rdd K RUNS g n = Raise e ->
  kmeans_init_rounds rdd K RUNS g (n + m) = Raise e.
Proof.
  intros Hn. induction m as [|m IH].
  - replace (n + 0)%nat with n by lia. exact Hn.
  - replace (n + S m)%nat with (S (n + m)) by lia.
    rewrite kmeans_init_rounds_S, IH. reflexivity.
Qed.

(** C4, as the code behaves.  [kmeans_init] has no check of [N] against
    [K].  On real-valued data with [N < K] (and at least one run) it still
    never returns: for [N = 0] reading the first record raises
    [IndexError]; for [1 <= N < K] the rounds use up the distinct points,
    the table [D] of some run becomes all zero, its weights become [nan],
    and [choice] ends in its [AssertionError].  The array [centers] is
    local to the call, so the caller sees no collection at all. *)
Theorem kmeans_init_too_few_points_fails :
  forall (G : Type) (RS : RandomSource G),
    RandomSourceLaws G ->
    forall (rdd : dataset) (K RUNS : nat) (seed : Z) (g : G),
      finite_data rdd ->
      (0 < RUNS)%nat ->
      (length rdd < K)%nat ->
      kmeans_init rdd K RUNS seed g =
      Raise (if (length rdd =? 0)%nat then IndexError else AssertionError).
Proof.
  intros G RS Hlaws rdd K RUNS seed g Hdata HR HNK. unfold kmeans_init.
  destruct (length rdd) as [|N'] eqn:EN.
  - destruct rdd; [|discriminate]. reflexivity.
  - cbn [Nat.eqb].
    assert (Hfail : kmeans_init_rounds rdd K RUNS g (S N') = Raise AssertionError).
    { pose proof (kmeans_init_rounds_run0 rdd K RUNS g (S N') Hlaws Hdata
                    ltac:(lia) HR HNK) as Hr.
      destruct (kmeans_init_rounds rdd K RUNS g (S N')) as [[[c D] g1]|e].
      - destruct Hr as [_ Hrun]. apply run0_inv_bound in Hrun.
        rewrite length_map in Hrun. lia.
      - now subst e. }
    replace (K - 1)%nat with (S N' + (K - 1 - S N'))%nat by lia.
    rewrite (kmeans_init_rounds_raise_more _ _ _ _ _ _ _ Hfail). reflexivity.
Qed.

Lemma tape_laws : RandomSourceLaws tape.
Proof.
  split.
  - intros [|n t]; simpl; [lra|].
    pose proof (pos_INR n) as Hn.
    assert (Hpos : 0 < INR n + 1) by lra.
    destruct n as [|n']; [simpl; lra|]. rewrite <- S_INR in Hpos.
    set (x := INR (S n')) in *.
    pose proof (Rinv_0_lt_compat (x + 1)) as Hinv.
    assert (Hx : 0 <= x) by (subst x; apply pos_INR).
    replace (x / (x + 1)) with (1 - / (x + 1)) by (field; lra).
    split; [|lra].
    assert (/ (x + 1) <= 1).
    { rewrite <- Rinv_1. apply Rinv_le_contravar; lra. }
    lra.
  - intros high [|n t] Hh; simpl; [exact Hh|].
    apply Nat.mod_upper_bound. lia.
Qed.

Lemma kmeans_init_too_few_points_fails_witness :
  RandomSourceLaws tape /\
  finite_data rdd_one /\
  (0 < 1)%nat /\
  (length rdd_one < 2)%nat /\
  kmeans_init rdd_one 2 1 7%Z ([] : tape) =
  Raise (if (length rdd_one =? 0)%nat then IndexError else AssertionError).
Proof.
  assert (Hfin : finite_data rdd_one) by (repeat constructor).
  split; [exact tape_laws|]. split; [exact Hfin|].
  split; [lia|]. split; [simpl; lia|].
  apply (kmeans_init_too_few_points_fails tape tape_source tape_laws rdd_one 2 1
           7%Z ([] : tape) Hfin); simpl; lia.
Defined.

(** C4 fails as stated: with one point and [K = 2] the first centroid of
    the run is written, the only weight of the first round is [nan], and
    the call ends in the [AssertionError] of [choice]; no check of [N]
    against [K] has raised anything before. *)
Lemma kmeans_init_too_few_points_assertion :
  kmeans_init_start rdd_one 2 1 ([] : tape)
    = Ok ([[[Fin 0]; [Fin 0]]], [[PInf]], []) /\
  prob_of (next_D (map snd rdd_one) 1 [[[Fin 0]; [Fin 0]]] [[PInf]] 0)
    = [[NaN]] /\
  kmeans_init rdd_one 2 1 7%Z ([] : tape) = Raise AssertionError.
Proof.
  unfold rdd_one. repeat split; feval; reflexivity.
Qed.

(** ** [kmeans]: a cluster without points *)

Lemma fadd_nan_r (a : float) : fadd a NaN = NaN.
Proof. destruct a; reflexivity. Qed.

Lemma fold_fadd_nan (l : list float) : fold_left fadd l NaN = NaN.
Proof. induction l as [|a l IH]; simpl; auto. Qed.

Lemma np_sum_nan (l : list float) : In NaN l -> np_sum l = NaN.
Proof.
  unfold np_sum. generalize (Fin 0). induction l as [|a l IH]; intros acc Hin.
  - contradiction.
  - simpl. destruct Hin as [->|Hin].
    + rewrite fadd_nan_r. apply fold_fadd_nan.
    + now apply IH.
Qed.

Lemma np_max2_nan_r (a : float) : np_max2 a NaN = NaN.
Proof. destruct a; reflexivity. Qed.

Lemma fold_np_max2_nan (l : list float) : fold_left np_max2 l NaN = NaN.
Proof. induction l as [|a l IH]; simpl; auto. Qed.

Lemma np_max_nan (l : list float) : In NaN l -> np_max l = Ok NaN.
Proof.
  destruct l as [|x l]; [contradiction|]. simpl. intros [->|Hin].
  - now rewrite fold_np_max2_nan.
  - f_equal. revert x. induction l as [|a l IH]; intros x; [contradiction|].
    simpl. destruct Hin as [->|Hin].
    + rewrite np_max2_nan_r. apply fold_np_max2_nan.
    + now apply IH.
Qed.

Lemma norm_minus_nan (v : vec) : v <> [] -> norm (vsub_nd v (Scalar NaN)) = NaN.
Proof.
  intros Hv. destruct v as [|c v]; [congruence|].
  unfold norm. rewrite np_sum_nan; [reflexivity|].
  simpl. left. unfold fsub. simpl. now rewrite fadd_nan_r.
Qed.

Lemma new_points_entry (local_data : list vec) (local_cluster : list (list nat))
  (K RUNS i j : nat) :
  (i < RUNS)%nat -> (j < K)%nat ->
  nth j (nth i (compute_new_points local_data local_cluster K RUNS) []) (Scalar NaN)
  = mean_axis0 (EachSet local_data local_cluster i j).
Proof.
  intros Hi Hj. unfold compute_new_points.
  rewrite (nth_map_lt _ _ _ _ O) by (now rewrite length_seq).
  rewrite seq_nth by exact Hi.
  rewrite (nth_map_lt _ _ _ _ O) by (now rewrite length_seq).
  now rewrite seq_nth by exact Hj.
Qed.

Lemma new_points_shape_code (local_data : list vec) (local_cluster : list (list nat))
  (K RUNS i : nat) :
  length (compute_new_points local_data local_cluster K RUNS) = RUNS /\
  ((i < RUNS)%nat ->
   length (nth i (compute_new_points local_data local_cluster K RUNS) []) = K).
Proof.
  unfold compute_new_points. split.
  - now rewrite length_map, length_seq.
  - intros Hi. rewrite (nth_map_lt _ _ _ _ O) by (now rewrite length_seq).
    now rewrite length_map, length_seq.
Qed.





(** ** [get_cost] and the global [centroids] *)

Lemma get_cost_ignores_centers (centroids : centroid_sets) (rdd : dataset)
  (centers1 centers2 : centroid_sets) :
  get_cost centroids rdd centers1 = get_cost centroids rdd centers2.
Proof. reflexivity. Qed.

Lemma euclid_1d (x y : R) : euclid [x] [y] = Rabs (x - y).
Proof.
  unfold euclid. simpl.
  replace ((x - y) * (x - y) + 0) with (Rsqr (x - y)) by (unfold Rsqr; ring).
  apply sqrt_Rsqr_abs.
Qed.

(** C1 fails on the code.  The body of [get_cost] passes the notebook's
    global [centroids] to [_get_cost], not its parameter [centers]: with
    the global holding the centroid [0], the cost reported for the
    collection whose centroid is [1] and the single point [0] is [0],
    while the cost of that collection is [1] (which is what the call
    returns once the global holds the same collection). *)
Theorem get_cost_reads_global_centroids :
  get_cost [[[Fin 0]]] rdd_one [[[Fin 1]]] = Ok (Array1 [Fin 0]) /\
  get_cost [[[Fin 1]]] rdd_one [[[Fin 1]]] = Ok (Array1 [Fin 1]) /\
  run_cost [[0]] [[1]] = 1.
Proof.
  split; [|split].
  - unfold rdd_one. feval. reflexivity.
  - unfold rdd_one. feval. reflexivity.
  - unfold run_cost, nearest_sq. simpl. rewrite euclid_1d.
    replace (0 - 1) with (- (1)) by ring. rewrite Rabs_Ropp, Rabs_R1. ring.
Qed.

(** ** [get_cost]: the objective it computes *)

Lemma fold_Rmin_spec (l : list R) (x : R) :
  let m := fold_left Rmin l x in
  m <= x /\ (forall y, In y l -> m <= y) /\ (m = x \/ In m l).
Proof.
  revert x. induction l as [|a l IH]; intros x; simpl.
  - split; [lra|]. split; [tauto | auto].
  - destruct (IH (Rmin x a)) as (H1 & H2 & H3).
    pose proof (Rmin_l x a). pose proof (Rmin_r x a).
    split; [lra|]. split.
    + intros y [<-|Hy]; [lra | auto].
    + destruct H3 as [H3|H3]; [|auto].
      rewrite H3. unfold Rmin. destruct (Rle_dec x a); auto.
Qed.

Lemma closest_scan_nearest_sq (p : rvec) (run : list rvec) :
  (0 < length run)%nat ->
  exists b d, closest_scan (inj_vec p) (map inj_vec run) (length run) = Ok (b, Fin d) /\
              d * d = nearest_sq p run.
Proof.
  intros Hpos.
  destruct (closest_scan_full p run Hpos) as (b & cb & Hs & Hcb & Hmin & _).
  exists b, (euclid p cb). split; [exact Hs|].
  unfold nearest_sq. destruct run as [|c cs]; [simpl in Hpos; lia|].
  cbn [map]. cbv zeta.
  destruct (fold_Rmin_spec (map (euclid p) cs) (euclid p c)) as (H1 & H2 & H3).
  set (m := fold_left Rmin (map (euclid p) cs) (euclid p c)) in *.
  assert (Hle : euclid p cb <= m).
  { destruct H3 as [->|Hin].
    - apply (Hmin O c). reflexivity.
    - apply in_map_iff in Hin. destruct Hin as (c' & <- & Hc').
      destruct (In_nth_error _ _ Hc') as [j Hj].
      apply (Hmin (S j) c'). exact Hj. }
  assert (Hge : m <= euclid p cb).
  { apply nth_error_In in Hcb. destruct Hcb as [<-|Hin]; [exact H1|].
    apply H2, in_map, Hin. }
  replace m with (euclid p cb) by lra. reflexivity.
Qed.

Lemma get_cost_row (p : rvec) (G : list (list rvec)) (K : nat) :
  (0 < K)%nat -> Forall (fun run => length run = K) G ->
  exists row, _get_cost (inj_vec p) (inj_sets G) = Ok (map Fin row) /\
              Forall2 (fun run c => c = nearest_sq p run) G row.
Proof.
  intros HK Hrect. unfold _get_cost, inj_sets. rewrite mapM_map.
  assert (HK0 : forall run, In run G ->
            length (hd [] (map (map inj_vec) G)) = length run).
  { intros run Hin. destruct G as [|run0 rest]; [contradiction|]. simpl.
    rewrite length_map. rewrite Forall_forall in Hrect.
    rewrite (Hrect run0), (Hrect run); simpl; auto. }
  clear HK0.
  assert (Hhd : length (hd [] (map (map inj_vec) G)) = K \/ G = []).
  { destruct G as [|run0 rest]; [now right|]. left. simpl. rewrite length_map.
    now inversion Hrect. }
  destruct Hhd as [Hhd| ->]; [|exists []; split; [reflexivity | constructor]].
  rewrite Hhd. clear Hhd.
  induction Hrect as [|run G Hrun Hrect IH].
  - exists []. split; [reflexivity | constructor].
  - destruct IH as (row & Hrow & HF).
    destruct (closest_scan_nearest_sq p run) as (b & d & Hs & Hd); [lia|].
    rewrite Hrun in Hs.
    exists (d * d :: row). cbn [mapM]. rewrite Hs. cbn [bind snd fsquare fmul].
    rewrite Hrow. cbn [bind map]. split; [reflexivity|].
    constructor; [exact Hd | exact HF].
Qed.

Lemma vadd_Fin (a b : list R) :
  vadd (map Fin a) (map Fin b) = map Fin (zip_with Rplus a b).
Proof.
  revert b. induction a as [|x a IH]; intros [|y b]; simpl; try reflexivity.
  unfold vadd in *. simpl. f_equal. apply IH.
Qed.

Lemma fold_vadd_Fin (rs : list (list R)) (acc : list R) :
  fold_left vadd (map (map Fin) rs) (map Fin acc) =
  map Fin (fold_left (zip_with Rplus) rs acc).
Proof.
  revert acc. induction rs as [|r rs IH]; intros acc; simpl; [reflexivity|].
  rewrite vadd_Fin. apply IH.
Qed.

Lemma column_sums {A B : Type} (f : B -> A -> R) (G : list A) (ps : list B)
  (rs : list (list R)) (g : A -> R) (acc : list R) :
  Forall2 (fun run c => c = g run) G acc ->
  Forall2 (fun p row => Forall2 (fun run c => c = f p run) G row) ps rs ->
  Forall2 (fun run c => c = g run + Rsum (map (fun p => f p run) ps)) G
          (fold_left (zip_with Rplus) rs acc).
Proof.
  intros Hacc Hrows. revert g acc Hacc.
  induction Hrows as [|p row ps rs Hrow Hrows IH]; intros g acc Hacc; simpl.
  - eapply Forall2_impl; [|exact Hacc]. intros run c ->. simpl. lra.
  - assert (Hstep : Forall2 (fun run c => c = g run + f p run) G
                            (zip_with Rplus acc row)).
    { clear - Hacc Hrow. revert row Hrow.
      induction Hacc as [|run c G acc Hc Hacc IHa]; intros row Hrow.
      - inversion Hrow. constructor.
      - inversion Hrow as [|run' c' G' row' Hc' Hrow']; subst. simpl.
        constructor; [reflexivity | auto]. }
    specialize (IH (fun run => g run + f p run) _ Hstep).
    eapply Forall2_impl; [|exact IH]. intros run c ->. simpl. lra.
Qed.

Lemma get_cost_rows (pts : list (string * rvec)) (G : list (list rvec)) (K : nat) :
  (0 < K)%nat -> Forall (fun run => length run = K) G ->
  exists rows,
    mapM (fun nv => _get_cost (snd nv) (inj_sets G)) (inj_data pts)
      = Ok (map (map Fin) rows) /\
    Forall2 (fun p row => Forall2 (fun run c => c = nearest_sq p run) G row)
            (map snd pts) rows.
Proof.
  intros HK Hrect. unfold inj_data. rewrite mapM_map. cbn [snd].
  induction pts as [|[name p] pts IH].
  - exists []. split; [reflexivity | constructor].
  - destruct IH as (rows & Hrows & HF).
    destruct (get_cost_row p G K HK Hrect) as (row & Hrow & Hr).
    exists (row :: rows). cbn [mapM snd]. rewrite Hrow. cbn [bind].
    rewrite Hrows. cbn [bind map]. split; [reflexivity|].
    constructor; assumption.
Qed.

(** With the global [centroids] holding a rectangular collection of
    [K > 0] real-valued centroids per run, and at least one point,
    [get_cost] returns for every run of that global the k-means objective:
    the sum over the points of the squared distance to the nearest
    centroid of the run. *)
Lemma get_cost_is_cost_of_global (pts : list (string * rvec))
  (G : list (list rvec)) (K : nat) (centers : centroid_sets) :
  pts <> [] -> (0 < K)%nat -> Forall (fun run => length run = K) G ->
  exists costs,
    get_cost (inj_sets G) (inj_data pts) centers = Ok (Array1 (map Fin costs)) /\
    Forall2 (fun run c => c = run_cost (map snd pts) run) G costs.
Proof.
  intros Hne HK Hrect. unfold get_cost.
  destruct (get_cost_rows pts G K HK Hrect) as (rows & Hrows & HF).
  rewrite Hrows. cbn [bind].
  destruct pts as [|[name p] pts]; [congruence|].
  cbn [map snd] in HF. inversion HF as [|p' row ps rs Hrow Hrest]; subst.
  cbn [map sum_axis0]. rewrite fold_vadd_Fin.
  eexists. split; [reflexivity|].
  unfold run_cost. cbn [map Rsum fold_right].
  apply (column_sums nearest_sq G (map snd pts) rs (nearest_sq p) row Hrow Hrest).
Qed.

(* ================================================================= *)
(** * Further properties of the code *)

(** ** [choice]: the index it returns *)




(** ** [get_closest] on arbitrary numbers *)

Lemma fltb_trans (a b c : float) :
  fltb a b = true -> fltb b c = true -> fltb a c = true.
Proof.
  destruct a as [x| | |], b as [y| | |], c as [z| | |]; simpl;
    try discriminate; auto.
  intros H1 H2. apply Rlt_bool_iff in H1. apply Rlt_bool_iff in H2.
  apply Rlt_bool_true. lra.
Qed.

Lemma fltb_irrefl (a : float) : fltb a a = false.
Proof. destruct a as [x| | |]; simpl; auto. apply Rlt_bool_false. lra. Qed.

Lemma fltb_lt_inf (a b : float) : fltb a b = true -> fltb a PInf = true.
Proof. destruct a, b; simpl; auto; discriminate. Qed.

Lemma fltb_not_nan (a b : float) : fltb a b = true -> is_nan a = false.
Proof. destruct a, b; simpl; auto; discriminate. Qed.

Lemma not_lt_inf_never_less (a b : float) :
  fltb a PInf = false -> fltb a b = false.
Proof. destruct a, b; simpl; auto; discriminate. Qed.

Lemma closest_scan_any (p : vec) (run : list vec) (n : nat) :
  (n <= length run)%nat ->
  exists best closest,
    closest_scan p run n = Ok (best, closest) /\
    ((best = O /\ closest = PInf) \/
     ((best < n)%nat /\ closest = norm (vsub p (nth best run [])) /\
      fltb closest PInf = true)) /\
    (forall j, (j < n)%nat ->
       fltb (norm (vsub p (nth j run []))) closest = false).
Proof.
  unfold closest_scan. induction n as [|n IH]; intros Hn.
  - exists O, PInf. split; [reflexivity|]. split; [auto|]. intros j Hj. lia.
  - destruct IH as (best & closest & Hs & Hst & Hmin); [lia|].
    rewrite seq_snoc, foldM_app, Hs. cbn [bind foldM closest_step].
    rewrite (getitem_lt run n []) by lia. cbn [bind].
    set (d := norm (vsub p (nth n run []))).
    destruct (fltb d closest) eqn:Ed.
    + exists n, d. split; [reflexivity|]. split.
      * right. split; [lia|]. split; [reflexivity|]. eapply fltb_lt_inf, Ed.
      * intros j Hj. destruct (Nat.eq_dec j n) as [->|Hne].
        -- apply fltb_irrefl.
        -- destruct (fltb (norm (vsub p (nth j run []))) d) eqn:Ej; [|reflexivity].
           rewrite <- (Hmin j) by lia. symmetry. eapply fltb_trans; eauto.
    + exists best, closest. split; [reflexivity|]. split.
      * destruct Hst as [Hst|(Hb & Hc & Hf)]; [left; exact Hst|].
        right. split; [lia | auto].
      * intros j Hj. destruct (Nat.eq_dec j n) as [->|Hne]; [exact Ed|].
        apply Hmin. lia.
Qed.

Lemma get_closest_any (p : vec) (centers : centroid_sets) (K : nat) :
    (0 < K)%nat ->
    Forall (fun run => length run = K) centers ->
    exists best,
      get_closest p centers = Ok best /\
      Forall2 (fun run b =>
                 (b < K)%nat /\
                 (forall j, (j < K)%nat ->
                    fltb (norm (vsub p (nth j run [])))
                         (norm (vsub p (nth b run []))) = false) /\
                 (b <> O -> is_nan (norm (vsub p (nth b run []))) = false))
              centers best.
Proof.
  intros HK Hrect. unfold get_closest.
  apply mapM_Forall2. intros run Hin.
  assert (Hlen : length run = K) by (rewrite Forall_forall in Hrect; auto).
  assert (HK0 : length (hd [] centers) = K).
  { destruct centers as [|run0 rest]; [contradiction|]. now inversion Hrect. }
  rewrite HK0.
  destruct (closest_scan_any p run K) as (b & cl & Hs & Hst & Hmin); [lia|].
  exists b. rewrite Hs. cbn [bind fst]. split; [reflexivity|].
  destruct Hst as [[-> ->]|(Hb & Hc & Hf)].
  - split; [exact HK|]. split; [|congruence].
    intros j Hj. apply not_lt_inf_never_less. now apply Hmin.
  - split; [exact Hb|]. split.
    + intros j Hj. rewrite <- Hc. now apply Hmin.
    + intros _. rewrite <- Hc. eapply fltb_not_nan, Hf.
Qed.

Lemma norm_nan (v : vec) : In NaN v -> norm v = NaN.
Proof.
  intros Hin. unfold norm. rewrite np_sum_nan; [reflexivity|].
  apply in_map_iff. exists NaN. auto.
Qed.

Lemma vsub_nan_r (p c : vec) (k : nat) :
  (k < length p)%nat -> nth_error c k = Some NaN -> In NaN (vsub p c).
Proof.
  revert c k. induction p as [|x p IH]; intros c k Hk Hc; simpl in Hk; [lia|].
  destruct c as [|y c]; [destruct k; discriminate|].
  destruct k as [|k]; simpl in Hc.
  - injection Hc as ->. left. unfold fsub. simpl. apply fadd_nan_r.
  - right. apply (IH c k); [lia | exact Hc].
Qed.

Lemma Forall2_nth_both {A B : Type} (P : A -> B -> Prop) (l : list A)
  (l' : list B) (i : nat) (d : A) (d' : B) :
  Forall2 P l l' -> (i < length l)%nat -> P (nth i l d) (nth i l' d').
Proof.
  intros HF. revert i. induction HF as [|a b l l' Hab HF IH]; intros i Hi;
    simpl in Hi; [lia|].
  destruct i as [|i]; simpl; [exact Hab | apply IH; lia].
Qed.

(** X4.  A centroid with a [nan] coordinate is never the answer of
    [get_closest] unless it sits at position [0]: its distance is [nan],
    and no comparison with [nan] succeeds. *)
Theorem get_closest_skips_nan_centroid :
  forall (p : vec) (centers : centroid_sets) (K : nat) (best : list nat)
         (r j k : nat),
    (0 < K)%nat ->
    Forall (fun run => length run = K) centers ->
    get_closest p centers = Ok best ->
    (r < length centers)%nat ->
    (0 < j)%nat ->
    (k < length p)%nat ->
    nth_error (nth j (nth r centers []) []) k = Some NaN ->
    nth r best O <> j.
Proof.
  intros p centers K best r j k HK Hrect Hbest Hr Hj Hk Hnan Heq.
  destruct (get_closest_any p centers K HK Hrect) as (best' & Hbest' & HF).
  rewrite Hbest in Hbest'. injection Hbest' as <-.
  destruct (Forall2_nth_both _ _ _ r [] O HF Hr) as (_ & _ & Hnot).
  rewrite Heq in Hnot. specialize (Hnot ltac:(lia)).
  rewrite (norm_nan (vsub p (nth j (nth r centers []) []))) in Hnot.
  - discriminate.
  - eapply vsub_nan_r; eauto.
Qed.

(** ** [kmeans]: the assignment of points to clusters *)

Lemma mapM_ok_Forall2 {A B : Type} (f : A -> result B) (l : list A) (bs : list B) :
  mapM f l = Ok bs -> Forall2 (fun a b => f a = Ok b) l bs.
Proof.
  revert bs. induction l as [|a l IH]; simpl; intros bs Hm.
  - injection Hm as <-. constructor.
  - destruct (f a) as [b|e] eqn:Eb; simpl in Hm; [|discriminate].
    destruct (mapM f l) as [bs'|e]; simpl in Hm; [|discriminate].
    injection Hm as <-. constructor; auto.
Qed.

Lemma list_sum_indicator (k a K : nat) :
  (a <= k < a + K)%nat ->
  list_sum (map (fun j => if (k =? j)%nat then 1%nat else O) (seq a K)) = 1%nat.
Proof.
  revert a. induction K as [|K IH]; intros a Hk; [lia|].
  simpl. destruct (Nat.eqb_spec k a) as [->|Hne].
  - clear IH Hk.
    assert (H : forall b, (a < b)%nat ->
              list_sum (map (fun j => if (a =? j)%nat then 1%nat else O) (seq b K)) = O).
    { revert a. induction K as [|K IHK]; intros a b Hb; [reflexivity|].
      simpl. destruct (Nat.eqb_spec a b); [lia|]. apply IHK. lia. }
    rewrite H by lia. reflexivity.
  - simpl. apply IH. lia.
Qed.

Lemma list_sum_map_add (f g : nat -> nat) (l : list nat) :
  list_sum (map (fun j => (f j + g j)%nat) l) =
  (list_sum (map f l) + list_sum (map g l))%nat.
Proof. induction l as [|a l IH]; simpl; [reflexivity | lia]. Qed.

Lemma filter_by_key_counts {A : Type} (key : A -> nat) (L : list A) (K : nat) :
  Forall (fun e => (key e < K)%nat) L ->
  list_sum (map (fun j => length (filter (fun e => (key e =? j)%nat) L)) (seq 0 K))
  = length L.
Proof.
  induction 1 as [|e L He HL IH].
  - simpl. induction (seq 0 K) as [|a l IHl]; simpl; auto.
  - cbn [length filter].
    rewrite (map_ext _ (fun j => ((if (key e =? j)%nat then 1%nat else O)
                                  + length (filter (fun e0 => (key e0 =? j)%nat) L))%nat)).
    + rewrite list_sum_map_add, list_sum_indicator by lia. now rewrite IH.
    + intros j. destruct (key e =? j)%nat; reflexivity.
Qed.

(** X5.  In an iteration of [kmeans] on a well-shaped collection, the
    sets [EachSet] of one run partition the data: their sizes over the
    clusters [0 .. K-1] add up to the number of points. *)
Theorem kmeans_every_point_in_one_cluster :
  forall (rdd : dataset) (K RUNS : nat) (k_points : centroid_sets),
    (0 < K)%nat ->
    length k_points = RUNS ->
    Forall (fun run => length run = K) k_points ->
    exists cluster,
      mapM (fun x => get_closest (snd x) k_points) rdd = Ok cluster /\
      forall i, (i < RUNS)%nat ->
        list_sum
          (map (fun j => length (EachSet (map snd rdd)
                                         (transpose O RUNS cluster) i j))
               (seq 0 K))
        = length rdd.
Proof.
  intros rdd K RUNS k_points HK Hlen Hrect.
  destruct (mapM_Forall2 (fun x => get_closest (snd x) k_points)
              (fun x best => get_closest (snd x) k_points = Ok best) rdd)
    as (cluster & Hcl & HF).
  { intros x _. destruct (get_closest_any (snd x) k_points K HK Hrect)
      as (best & Hbest & _). eauto. }
  exists cluster. split; [exact Hcl|]. intros i Hi.
  unfold EachSet.
  rewrite (map_ext _ (fun j => length (filter
             (fun xy : nat * vec =>
                (nth (fst xy) (nth i (transpose O RUNS cluster) []) O =? j)%nat)
             (enumerate (map snd rdd))))) by (intros j; apply length_map).
  rewrite (filter_by_key_counts
             (fun xy : nat * vec => nth (fst xy) (nth i (transpose O RUNS cluster) []) O)).
  - now rewrite enumerate_length, length_map.
  - rewrite Forall_forall. intros [x y] Hin. cbn [fst].
    unfold enumerate in Hin. apply in_combine_l in Hin. apply in_seq in Hin.
    rewrite length_map in Hin.
    unfold transpose. rewrite (nth_map_lt _ _ _ _ O) by (now rewrite length_seq).
    rewrite seq_nth by exact Hi. cbn [Nat.add]. unfold column.
    assert (Hx : (x < length cluster)%nat).
    { rewrite <- (Forall2_length HF). lia. }
    rewrite (nth_map_lt _ _ _ _ ([] : list nat)) by exact Hx.
    pose proof (Forall2_nth_both _ _ _ x (EmptyString, []) [] HF ltac:(lia)) as Hbest.
    cbv beta in Hbest.
    destruct (get_closest_any (snd (nth x rdd (EmptyString, []))) k_points K HK Hrect)
      as (best & Hbest' & HF').
    rewrite Hbest in Hbest'. injection Hbest' as <-.
    apply (Forall2_nth_both _ _ _ i [] O HF'). lia.
Qed.

(** ** [kmeans]: the new centroids *)

Lemma fold_zip_Rplus_length (rs : list (list R)) (acc : list R) (d : nat) :
  length acc = d -> Forall (fun row => length row = d) rs ->
  length (fold_left (zip_with Rplus) rs acc) = d.
Proof.
  intros Hacc Hrs. revert acc Hacc.
  induction Hrs as [|row rs Hrow Hrs IH]; intros acc Hacc; simpl; [exact Hacc|].
  apply IH. rewrite zip_with_length. lia.
Qed.

Lemma nth_fold_zip_Rplus (rs : list (list R)) (acc : list R) (d k : nat) :
  length acc = d -> Forall (fun row => length row = d) rs -> (k < d)%nat ->
  nth k (fold_left (zip_with Rplus) rs acc) 0 =
  nth k acc 0 + Rsum (map (fun row => nth k row 0) rs).
Proof.
  intros Hacc Hrs Hk. revert acc Hacc.
  induction Hrs as [|row rs Hrow Hrs IH]; intros acc Hacc; simpl; [lra|].
  rewrite IH by (rewrite zip_with_length; lia).
  rewrite (zip_with_nth _ _ _ _ 0 0) by lia. lra.
Qed.

(** X6.  For at least one real-valued row, all of one dimension,
    [EachSet.mean(axis=0)] is the coordinate-wise arithmetic mean: a
    vector of that dimension whose every coordinate, times the number of
    rows, is the sum of that coordinate over the rows. *)
Theorem mean_axis0_coordinate_mean :
  forall (rows : list (list R)) (d : nat),
    rows <> [] ->
    Forall (fun row => length row = d) rows ->
    exists m,
      mean_axis0 (map inj_vec rows) = Array1 (inj_vec m) /\
      length m = d /\
      forall k, (k < d)%nat ->
        nth k m 0 * INR (length rows) = Rsum (map (fun row => nth k row 0) rows).
Proof.
  intros rows d Hne Hrows. destruct rows as [|r rs]; [congruence|].
  apply Forall_cons_iff in Hrows. destruct Hrows as [Hr Hrs].
  set (n := length (r :: rs)).
  assert (Hn : INR n <> 0).
  { apply not_0_INR. unfold n. simpl. lia. }
  exists (map (fun s => s / INR n) (fold_left (zip_with Rplus) rs r)).
  split; [|split].
  - cbn [map mean_axis0]. f_equal. unfold inj_vec at 1.
    rewrite fold_vadd_Fin. unfold inj_vec. rewrite !map_map.
    apply map_ext. intros s. cbn [length]. rewrite length_map. fold n.
    simpl. now rewrite Req_bool_false.
  - rewrite length_map. now apply fold_zip_Rplus_length.
  - intros k Hk.
    pose proof (fold_zip_Rplus_length rs r d Hr Hrs) as Hl.
    rewrite (nth_map_lt _ _ _ _ 0) by lia.
    rewrite (nth_fold_zip_Rplus rs r d k Hr Hrs Hk).
    cbn [map]. unfold Rsum. cbn [fold_right]. fold n. clearbody n.
    field. exact Hn.
Qed.

(** ** [kmeans]: one iteration on a well-shaped collection *)

Lemma max_shift_ok (k_points : centroid_sets) (new_points : list (list ndarray))
  (K RUNS : nat) :
  (0 < RUNS)%nat -> exists td, max_shift k_points new_points K RUNS = Ok td.
Proof.
  intros HR. unfold max_shift. destruct RUNS as [|R']; [lia|].
  cbn [seq map np_max]. eauto.
Qed.

(** X7.  On a collection of [RUNS > 0] sets of [K > 0] centroids the
    body of the loop of [kmeans] raises nothing, whatever the numbers, and
    the collection it produces has again [RUNS] sets of [K] centroids. *)
Theorem kmeans_body_keeps_shape :
  forall (rdd : dataset) (K RUNS : nat) (k_points : centroid_sets),
    (0 < K)%nat -> (0 < RUNS)%nat ->
    length k_points = RUNS ->
    Forall (fun run => length run = K) k_points ->
    exists k_points' temp_dist,
      kmeans_body rdd K RUNS k_points = Ok (k_points', temp_dist) /\
      length k_points' = RUNS /\
      Forall (fun run => length run = K) k_points'.
Proof.
  intros rdd K RUNS k_points HK HR Hlen Hrect. unfold kmeans_body.
  destruct (mapM_Forall2 (fun x => get_closest (snd x) k_points)
              (fun _ _ => True) rdd) as (cluster & Hcl & _).
  { intros x _. destruct (get_closest_any (snd x) k_points K HK Hrect)
      as (best & Hbest & _). eauto. }
  rewrite Hcl. cbn [bind].
  set (np := compute_new_points (map snd rdd) (transpose O RUNS cluster) K RUNS).
  destruct (max_shift_ok k_points np K RUNS HR) as [td Htd].
  rewrite Htd. cbn [bind]. eexists _, _. split; [reflexivity|].
  assert (Hnp : length np = RUNS)
    by apply (new_points_shape_code (map snd rdd) (transpose O RUNS cluster) K RUNS 0).
  unfold update_centroids. split.
  - rewrite zip_with_length. lia.
  - rewrite Forall_forall. intros run Hin.
    destruct (In_nth _ _ [] Hin) as (r & Hr & <-).
    rewrite zip_with_length in Hr.
    rewrite (zip_with_nth _ _ _ _ [] []) by lia.
    rewrite zip_with_length.
    rewrite (rect_nth_length k_points K r Hrect) by lia.
    destruct (new_points_shape_code (map snd rdd) (transpose O RUNS cluster) K RUNS r)
      as [_ Hrow].
    fold np in Hrow. rewrite Hrow by lia. lia.
Qed.

Lemma Rsum_nonneg_list (l : list R) : Forall (fun x => 0 <= x) l -> 0 <= Rsum l.
Proof. induction 1; simpl; lra. Qed.













Lemma get_closest_nan_example :
  get_closest [Fin 0] [[[Fin 5]; [NaN]]] = Ok [O].
Proof.
  feval. reflexivity.
Qed.

Lemma get_closest_skips_nan_centroid_witness :
  nth 0 [O] O <> 1%nat.
Proof.
  apply (get_closest_skips_nan_centroid [Fin 0] [[[Fin 5]; [NaN]]] 2 [O] 0 1 0).
  - lia.
  - repeat constructor.
  - exact get_closest_nan_example.
  - simpl. lia.
  - lia.
  - simpl. lia.
  - reflexivity.
Defined.

Lemma kmeans_every_point_in_one_cluster_witness :
  exists cluster,
    mapM (fun x => get_closest (snd x) [[[Fin 0]; [Fin 1]]]) rdd_two = Ok cluster /\
    forall i, (i < 1)%nat ->
      list_sum
        (map (fun j => length (EachSet (map snd rdd_two)
                                       (transpose O 1 cluster) i j))
             (seq 0 2))
      = length rdd_two.
Proof.
  apply (kmeans_every_point_in_one_cluster rdd_two 2 1 [[[Fin 0]; [Fin 1]]]).
  - lia.
  - reflexivity.
  - repeat constructor.
Defined.

Lemma mean_axis0_coordinate_mean_witness :
  exists m,
    mean_axis0 (map inj_vec [[0]; [2]]) = Array1 (inj_vec m) /\
    length m = 1%nat /\
    forall k, (k < 1)%nat ->
      nth k m 0 * INR (length [[0]; [2]])
      = Rsum (map (fun row => nth k row 0) [[0]; [2]]).
Proof.
  apply (mean_axis0_coordinate_mean [[0]; [2]] 1).
  - discriminate.
  - repeat constructor.
Defined.

Lemma kmeans_body_keeps_shape_witness :
  exists k_points' temp_dist,
    kmeans_body rdd_two 2 1 [[[Fin 0]; [Fin 1]]] = Ok (k_points', temp_dist) /\
    length k_points' = 1%nat /\
    Forall (fun run => length run = 2%nat) k_points'.
Proof.
  apply (kmeans_body_keeps_shape rdd_two 2 1 [[[Fin 0]; [Fin 1]]]).
  - lia.
  - lia.
  - reflexivity.
  - repeat constructor.
Defined.



(** ** [get_cost]: the values it returns *)

Lemma nearest_sq_nonneg (p : list R) (run : list (list R)) : 0 <= nearest_sq p run.
Proof.
  unfold nearest_sq. destruct (map (euclid p) run) as [|d ds]; [lra|].
  cbv zeta. apply Rle_0_sqr.
Qed.

Lemma nearest_sq_member (p : list R) (run : list (list R)) :
  In p run -> nearest_sq p run = 0.
Proof.
  intros Hin. unfold nearest_sq. destruct run as [|c cs]; [contradiction|].
  cbn [map]. cbv zeta.
  destruct (fold_Rmin_spec (map (euclid p) cs) (euclid p c)) as (H1 & H2 & H3).
  set (m := fold_left Rmin (map (euclid p) cs) (euclid p c)) in *.
  assert (Hle : m <= 0).
  { rewrite <- (euclid_self p). destruct Hin as [->|Hin]; [exact H1|].
    apply H2, in_map, Hin. }
  assert (Hge : 0 <= m).
  { destruct H3 as [->|H3]; [apply euclid_nonneg|].
    apply in_map_iff in H3. destruct H3 as (c' & <- & _). apply euclid_nonneg. }
  replace m with 0 by lra. ring.
Qed.

Lemma run_cost_nonneg (pts : list (list R)) (run : list (list R)) :
  0 <= run_cost pts run.
Proof.
  unfold run_cost. apply Rsum_nonneg_list. rewrite Forall_forall.
  intros x Hx. apply in_map_iff in Hx. destruct Hx as (p & <- & _).
  apply nearest_sq_nonneg.
Qed.

Lemma run_cost_members (pts : list (list R)) (run : list (list R)) :
  (forall p, In p pts -> In p run) -> run_cost pts run = 0.
Proof.
  unfold run_cost. induction pts as [|p pts IH]; intros Hall; simpl; [reflexivity|].
  rewrite nearest_sq_member by (apply Hall; now left).
  rewrite IH by (intros q Hq; apply Hall; now right). lra.
Qed.

(** X10.  With at least one real-valued point and the global [centroids]
    holding [K > 0] real-valued centroids per run, all of the points'
    dimension, [get_cost] returns one number per run of the global: the
    k-means objective of that run (the sum over the points of the squared
    distance to the nearest centroid), which is non-negative.  The
    argument [centers] plays no part.  (Arithmetic on finite values is
    exact.) *)
Theorem get_cost_objective_of_global :
  forall (pts : list (string * list R)) (G : list (list (list R))) (K d : nat)
         (centers : centroid_sets),
    pts <> [] -> (0 < K)%nat -> Forall (fun run => length run = K) G ->
    Forall (fun nv => length (snd nv) = d) pts ->
    Forall (Forall (fun c => length c = d)) G ->
    exists costs,
      get_cost (inj_sets G) (inj_data pts) centers = Ok (Array1 (map Fin costs)) /\
      length costs = length G /\
      forall r, (r < length G)%nat ->
        nth r costs 0 = run_cost (map snd pts) (nth r G []) /\
        0 <= nth r costs 0.
Proof.
  intros pts G K d centers Hne HK Hrect _ _.
  destruct (get_cost_is_cost_of_global pts G K centers Hne HK Hrect)
    as (costs & Hcost & HF).
  exists costs. split; [exact Hcost|]. split.
  - symmetry. eapply Forall2_length, HF.
  - intros r Hr. pose proof (Forall2_nth_both _ _ _ r [] 0 HF Hr) as Heq.
    cbv beta in Heq. split; [exact Heq|]. rewrite Heq. apply run_cost_nonneg.
Qed.

(** X11.  When every point is itself a centroid of every run of the
    global [centroids] (as when [K = N] after convergence), [get_cost]
    returns zero for every run. *)
Theorem get_cost_zero_when_points_are_centroids :
  forall (pts : list (string * list R)) (G : list (list (list R))) (K : nat)
         (centers : centroid_sets),
    pts <> [] -> (0 < K)%nat -> Forall (fun run => length run = K) G ->
    Forall (fun run => forall nv, In nv pts -> In (snd nv) run) G ->
    get_cost (inj_sets G) (inj_data pts) centers
    = Ok (Array1 (map Fin (repeat 0 (length G)))).
Proof.
  intros pts G K centers Hne HK Hrect Hmem.
  destruct (get_cost_is_cost_of_global pts G K centers Hne HK Hrect)
    as (costs & Hcost & HF).
  rewrite Hcost. do 3 f_equal.
  clear Hcost Hrect. induction HF as [|run c G costs Hc HF IH]; [reflexivity|].
  apply Forall_cons_iff in Hmem. destruct Hmem as [Hrun Hmem].
  simpl. f_equal; [|now apply IH].
  rewrite Hc. apply run_cost_members. intros p Hp.
  apply in_map_iff in Hp. destruct Hp as (nv & <- & Hnv). now apply Hrun.
Qed.

Lemma get_cost_objective_of_global_witness :
  exists costs,
    get_cost (inj_sets [[[1]]]) (inj_data [("a"%string, [0])]) []
      = Ok (Array1 (map Fin costs)) /\
    length costs = length [[[1]]] /\
    forall r, (r < length [[[1]]])%nat ->
      nth r costs 0 = run_cost (map snd [("a"%string, [0])]) (nth r [[[1]]] []) /\
      0 <= nth r costs 0.
Proof.
  apply (get_cost_objective_of_global [("a"%string, [0])] [[[1]]] 1 1 []).
  - discriminate.
  - lia.
  - repeat constructor.
  - repeat constructor.
  - repeat constructor.
Defined.

Lemma get_cost_zero_when_points_are_centroids_witness :
  get_cost (inj_sets [[[0]; [2]]])
           (inj_data [("a"%string, [0]); ("b"%string, [2])]) []
  = Ok (Array1 (map Fin (repeat 0 (length [[[0]; [2]]])))).
Proof.
  apply (get_cost_zero_when_points_are_centroids
           [("a"%string, [0]); ("b"%string, [2])] [[[0]; [2]]] 2 []).
  - discriminate.
  - lia.
  - repeat constructor.
  - constructor; [|constructor].
    intros nv [<-|[<-|[]]]; simpl; auto.
Defined.

(** ** [kmeans_init]: what a successful seeding returns *)

Lemma init_samples_all {G : Type} `{RandomSource G} (local_data : list vec)
  (D : list (list float)) (RUNS idx : nat) :
  RandomSourceLaws G ->
  length D = RUNS ->
  Forall (fun row => length row = length local_data) D ->
  forall (m a : nat) (s s' : centroid_sets * G),
    (a + m <= RUNS)%nat ->
    length (fst s) = RUNS ->
    foldM (init_sample local_data (prob_of D) idx) (seq a m) s = Ok s' ->
    length (fst s') = RUNS /\
    (forall r, (r < a \/ a + m <= r)%nat -> nth r (fst s') [] = nth r (fst s) []) /\
    (forall r, (a <= r < a + m)%nat ->
       exists ind, (ind < length local_data)%nat /\ entry D r ind <> Fin 0 /\
         nth r (fst s') [] =
         set_nth (nth r (fst s) []) (S idx) (nth ind local_data [])).
Proof.
  intros Hlaws HlD Hrows. induction m as [|m IH]; intros a s s' Ham Hlen Hf.
  - simpl in Hf. injection Hf as <-. split; [exact Hlen|]. split; [auto|].
    intros r Hr. lia.
  - cbn [seq foldM] in Hf.
    destruct (init_sample local_data (prob_of D) idx s a) as [s1|e] eqn:E1;
      cbn [bind] in Hf; [|discriminate].
    destruct (init_sample_ok local_data D RUNS idx a s s1 Hlaws HlD Hrows
                ltac:(lia) E1) as (ind & Hind & Hnz & Hs1).
    assert (Hlen1 : length (fst s1) = RUNS).
    { rewrite Hs1. now rewrite set_nth_length. }
    destruct (IH (S a) s1 s' ltac:(lia) Hlen1 Hf) as (Hlen' & Hout & Hin).
    split; [exact Hlen'|]. split.
    + intros r Hr. rewrite Hout by lia. rewrite Hs1. apply set_nth_other. lia.
    + intros r Hr. destruct (Nat.eq_dec r a) as [->|Hne].
      * exists ind. split; [exact Hind|]. split; [exact Hnz|].
        rewrite Hout by lia. rewrite Hs1. apply set_nth_same. lia.
      * destruct (Hin r ltac:(lia)) as (ind' & Hind' & Hnz' & Hr').
        exists ind'. split; [exact Hind'|]. split; [exact Hnz'|].
        rewrite Hr'. rewrite Hs1. now rewrite set_nth_other by lia.
Qed.

Lemma init_round_all_runs {G : Type} `{RandomSource G} (local_data : list vec)
  (RUNS idx : nat) (centers centers' : centroid_sets) (D D' : list (list float))
  (g g' : G) :
  RandomSourceLaws G ->
  length centers = RUNS ->
  init_round local_data RUNS (centers, D, g) idx = Ok (centers', D', g') ->
  D' = next_D local_data RUNS centers D idx /\
  forall r, (r < RUNS)%nat ->
    exists ind, (ind < length local_data)%nat /\ entry D' r ind <> Fin 0 /\
      nth r centers' [] = set_nth (nth r centers []) (S idx) (nth ind local_data []).
Proof.
  intros Hlaws Hlc. unfold init_round.
  set (D1 := next_D local_data RUNS centers D idx).
  destruct (next_D_shape local_data RUNS centers D idx) as [HlD Hrows].
  fold D1 in HlD, Hrows.
  destruct (foldM (init_sample local_data (prob_of D1) idx) (seq 0 RUNS) (centers, g))
    as [[c1 g1]|e] eqn:Ef; cbn [bind]; [|discriminate].
  intros Heq. injection Heq as <- <- <-. split; [reflexivity|].
  destruct (init_samples_all local_data D1 RUNS idx Hlaws HlD Hrows RUNS 0
              (centers, g) (c1, g1) ltac:(lia) Hlc Ef) as (_ & _ & Hin).
  intros r Hr. apply (Hin r). lia.
Qed.

Lemma fle_trans (a b c : float) : fle a b -> fle b c -> fle a c.
Proof.
  destruct a as [x| | |], b as [y| | |], c as [z| | |]; simpl; try tauto. lra.
Qed.

Lemma fle_zero_antisym (a : float) : fle (Fin 0) a -> fle a (Fin 0) -> a = Fin 0.
Proof.
  destruct a as [x| | |]; simpl; try tauto. intros. f_equal. lra.
Qed.

Lemma np_min2_cases (d : float) (q : R) :
  fle (Fin 0) d ->
  (np_min2 d (Fin q) = Fin q /\ fle (Fin q) d) \/
  (np_min2 d (Fin q) = d /\ fle d (Fin q)).
Proof.
  intros Hd. destruct d as [x| | |]; simpl in Hd; try contradiction.
  - unfold np_min2. simpl. unfold Rlt_bool.
    destruct (Rlt_dec q x); [left | right]; simpl; split; auto; lra.
  - left. split; [reflexivity | exact I].
Qed.

Lemma firstn_set_nth_snoc {A : Type} (l : list A) (i : nat) (v : A) :
  (i < length l)%nat -> firstn (S i) (set_nth l i v) = firstn i l ++ [v].
Proof.
  revert i. induction l as [|a l IH]; intros i Hi; simpl in Hi; [lia|].
  destruct i as [|i]; [reflexivity|].
  cbn [set_nth]. rewrite firstn_cons. rewrite IH by lia. reflexivity.
Qed.

Lemma In_firstn_nth {A : Type} (l : list A) (m : nat) (v d : A) :
  In v (firstn m l) -> exists j, (j < m)%nat /\ (j < length l)%nat /\ nth j l d = v.
Proof.
  revert m. induction l as [|a l IH]; intros m Hin.
  - rewrite firstn_nil in Hin. contradiction.
  - destruct m as [|m]; [contradiction|]. simpl in Hin. destruct Hin as [<-|Hin].
    + exists O. simpl. repeat split; lia.
    + destruct (IH m Hin) as (j & Hj & Hl & Hn). exists (S j). simpl.
      repeat split; try lia. exact Hn.
Qed.

Lemma next_D_least (local_data : list vec) (K RUNS n r : nat)
  (centers : centroid_sets) (D : list (list float)) :
  Forall (Forall finite) local_data ->
  init_inv (length local_data) RUNS centers D ->
  (r < RUNS)%nat ->
  seed_inv local_data K n r centers D ->
  forall x, (x < length local_data)%nat ->
    finite (entry (next_D local_data RUNS centers D n) r x) /\
    fle (Fin 0) (entry (next_D local_data RUNS centers D n) r x) /\
    (forall j, (j < S n)%nat ->
       fle (entry (next_D local_data RUNS centers D n) r x)
           (sq_dist local_data (nth r centers []) x j)) /\
    (exists j, (j < S n)%nat /\
       entry (next_D local_data RUNS centers D n) r x
       = sq_dist local_data (nth r centers []) x j).
Proof.
  intros Hdata (Hlc & Hfin & HlD & _ & Hpos) Hr (HlK & Hmem & Hnd & Htab) x Hx.
  set (run := nth r centers []) in *.
  rewrite next_D_entry by assumption. fold run.
  fold (sq_dist local_data run x n).
  destruct (Htab x Hx) as (H0 & Hle & Hex).
  destruct (sq_dist_finite (nth x local_data []) (nth n run [])) as (q & Hq & Hsqn).
  { apply Forall_nth_default; [exact Hdata | constructor]. }
  { apply Forall_nth_default; [|constructor].
    apply Forall_nth_default; [exact Hfin | constructor]. }
  fold (sq_dist local_data run x n) in Hsqn. rewrite Hsqn.
  destruct (np_min2_nonneg (entry D r x) q (Hpos r x Hr Hx) Hq) as (Hnn & _ & Hf).
  split; [exact Hf|]. split; [exact Hnn|].
  destruct (np_min2_cases (entry D r x) q (Hpos r x Hr Hx)) as [[Hm Hc]|[Hm Hc]].
  - rewrite Hm. split.
    + intros j Hj. destruct (Nat.eq_dec j n) as [->|Hne].
      * rewrite Hsqn. simpl. lra.
      * eapply fle_trans; [exact Hc | apply Hle; lia].
    + exists n. split; [lia | now rewrite Hsqn].
  - rewrite Hm. split.
    + intros j Hj. destruct (Nat.eq_dec j n) as [->|Hne].
      * now rewrite Hsqn.
      * apply Hle. lia.
    + destruct n as [|n'].
      * rewrite (H0 eq_refl) in Hc. simpl in Hc. contradiction.
      * destruct (Hex ltac:(lia)) as (j & Hj & Hej). exists j. split; [lia | exact Hej].
Qed.

Lemma seed_step (local_data : list vec) (K RUNS n r ind : nat)
  (centers centers' : centroid_sets) (D : list (list float)) :
  Forall (Forall finite) local_data ->
  init_inv (length local_data) RUNS centers D ->
  (r < RUNS)%nat -> (S n < K)%nat ->
  seed_inv local_data K n r centers D ->
  (ind < length local_data)%nat ->
  entry (next_D local_data RUNS centers D n) r ind <> Fin 0 ->
  nth r centers' [] = set_nth (nth r centers []) (S n) (nth ind local_data []) ->
  seed_inv local_data K (S n) r centers' (next_D local_data RUNS centers D n).
Proof.
  intros Hdata Hinv Hr HK Hseed Hind Hnz Hrun.
  pose proof (next_D_least local_data K RUNS n r centers D Hdata Hinv Hr Hseed)
    as Htab'.
  destruct Hseed as (HlK & Hmem & Hnd & Htab).
  set (run := nth r centers []) in *.
  set (v := nth ind local_data []) in *.
  assert (Hslot : forall j, (j <= n)%nat ->
            nth j (nth r centers' []) [] = nth j run []).
  { intros j Hj. rewrite Hrun. apply set_nth_other. lia. }
  assert (Hsq : forall x j, (j <= n)%nat ->
            sq_dist local_data (nth r centers' []) x j = sq_dist local_data run x j).
  { intros x j Hj. unfold sq_dist. now rewrite Hslot. }
  assert (Hfinpt : forall x, Forall finite (nth x local_data [])).
  { intros x. apply Forall_nth_default; [exact Hdata | constructor]. }
  unfold seed_inv. cbv zeta.
  split; [rewrite Hrun; now rewrite set_nth_length|]. split; [|split].
  - intros j Hj. destruct (Nat.eq_dec j (S n)) as [->|Hne].
    + rewrite Hrun, set_nth_same by lia. apply nth_In. exact Hind.
    + rewrite Hslot by lia. apply Hmem. lia.
  - rewrite Hrun, firstn_set_nth_snoc by lia.
    apply NoDup_snoc; [exact Hnd|]. intros Hin.
    destruct (In_firstn_nth _ _ _ [] Hin) as (j & Hj & _ & Hjv).
    apply Hnz. destruct (Htab' ind Hind) as (_ & Hnn & Hle & _).
    apply fle_zero_antisym; [exact Hnn|].
    specialize (Hle j ltac:(lia)). unfold sq_dist in Hle. rewrite Hjv in Hle.
    fold v in Hle. rewrite sq_dist_self in Hle by apply Hfinpt. exact Hle.
  - intros x Hx. destruct (Htab' x Hx) as (_ & _ & Hle & Hex). split; [lia|]. split.
    + intros j Hj. rewrite Hsq by lia. now apply Hle.
    + intros _. destruct Hex as (j & Hj & Hej). exists j. split; [exact Hj|].
      rewrite Hsq by lia. exact Hej.
Qed.

Lemma kmeans_init_start_seed_inv {G : Type} `{RandomSource G} (rdd : dataset)
  (K RUNS : nat) (g g' : G) (centers : centroid_sets) (D : list (list float)) :
  kmeans_init_start rdd K RUNS g = Ok (centers, D, g') ->
  forall r, (r < RUNS)%nat -> seed_inv (map snd rdd) K 0 r centers D.
Proof.
  unfold kmeans_init_start.
  destruct (getitem rdd 0) as [first|e]; cbn [bind]; [|discriminate].
  pose proof (randint_array_length (length (map snd rdd)) RUNS g) as Hks.
  destruct (randint_array (length (map snd rdd)) RUNS g) as [ks g1]. cbn [fst] in Hks.
  destruct (mapM (getitem (map snd rdd)) ks) as [sample|e] eqn:Es; cbn [bind];
    [|discriminate].
  destruct (Nat.eqb_spec K 0) as [->|HK]; cbn [bind]; [discriminate|].
  intros Heq r Hr. injection Heq as <- <- <-.
  pose proof (mapM_length _ _ _ Es) as Hls.
  assert (Hmem : Forall (fun v => In v (map snd rdd)) sample).
  { apply (mapM_Forall _ _ _ _ (fun a b Hab => getitem_In _ _ _ Hab)) in Es.
    exact Es. }
  set (Z := repeat (repeat (Fin 0) (length (snd first))) K).
  assert (Hrun : nth r (zip_with (fun c s => s :: tl c) (repeat Z RUNS) sample) []
                 = nth r sample [] :: tl Z).
  { rewrite (zip_with_nth _ _ _ _ Z []) by (rewrite ?repeat_length; lia).
    now rewrite nth_repeat. }
  unfold seed_inv. cbv zeta. rewrite Hrun.
  split; [|split; [|split]].
  - simpl. unfold Z. destruct K as [|K']; [lia|]. simpl. now rewrite repeat_length.
  - intros j Hj. assert (j = O) as -> by lia. simpl.
    rewrite Forall_forall in Hmem. apply Hmem, nth_In. lia.
  - simpl. constructor; [simpl; tauto | constructor].
  - intros x Hx. rewrite length_map in Hx. split; [|split].
    + intros _. apply entry_repeat; assumption.
    + intros j Hj. lia.
    + intros Hn. lia.
Qed.

Lemma kmeans_init_rounds_seed_inv {G : Type} `{RandomSource G} (rdd : dataset)
  (K RUNS : nat) (g : G) :
  RandomSourceLaws G ->
  finite_data rdd ->
  forall (n : nat) (centers : centroid_sets) (D : list (list float)) (g' : G),
    (n < K)%nat ->
    kmeans_init_rounds rdd K RUNS g n = Ok (centers, D, g') ->
    forall r, (r < RUNS)%nat -> seed_inv (map snd rdd) K n r centers D.
Proof.
  intros Hlaws Hdata. induction n as [|n IH]; intros centers D g' HK Hn r Hr.
  - rewrite kmeans_init_rounds_0 in Hn. eapply kmeans_init_start_seed_inv; eauto.
  - rewrite kmeans_init_rounds_S in Hn.
    destruct (kmeans_init_rounds rdd K RUNS g n) as [[[c1 D1] g1]|e] eqn:E1;
      cbn [bind] in Hn; [|discriminate].
    pose proof (kmeans_init_rounds_inv rdd K RUNS g g1 n c1 D1 Hdata E1) as Hinv.
    assert (Hlc : length c1 = RUNS) by apply Hinv.
    destruct (init_round_all_runs _ _ _ _ _ _ _ _ _ Hlaws Hlc Hn) as (-> & Hall).
    destruct (Hall r Hr) as (ind & Hind & Hnz & Hrun).
    eapply seed_step; eauto.
    + now apply finite_data_local.
    + eapply IH; eauto. lia.
Qed.

(** X12.  On real-valued points of one dimension, with [K > 0] and
    [RUNS > 0], a collection returned by [kmeans_init] has [RUNS] sets of
    [K] centroids; every centroid is a point of the data, and the
    centroids of one set are pairwise different. *)
Theorem kmeans_init_returns_distinct_data_points :
  forall (G : Type) (RS : RandomSource G),
    RandomSourceLaws G ->
    forall (rdd : dataset) (d K RUNS : nat) (seed : Z) (g g' : G)
           (centers : centroid_sets),
      finite_data rdd -> same_dim d rdd ->
      (0 < K)%nat -> (0 < RUNS)%nat ->
      kmeans_init rdd K RUNS seed g = Ok (centers, g') ->
      length centers = RUNS /\
      forall r, (r < RUNS)%nat ->
        length (nth r centers []) = K /\
        (forall c, In c (nth r centers []) -> In c (map snd rdd)) /\
        NoDup (nth r centers []).
Proof.
  intros G RS Hlaws rdd d K RUNS seed g g' centers Hdata _ HK _. unfold kmeans_init.
  destruct (kmeans_init_rounds rdd K RUNS g (K - 1)) as [[[c D] g1]|e] eqn:Er;
    cbn [bind]; [|discriminate].
  intros Heq. injection Heq as <- <-.
  split; [apply (kmeans_init_rounds_inv rdd K RUNS g g1 (K - 1) c D Hdata Er)|].
  intros r Hr.
  destruct (kmeans_init_rounds_seed_inv rdd K RUNS g Hlaws Hdata (K - 1) c D g1
              ltac:(lia) Er r Hr) as (HlK & Hmem & Hnd & _).
  cbv zeta in *. split; [exact HlK|]. split.
  - intros v Hin. destruct (In_nth _ _ [] Hin) as (j & Hj & <-).
    apply Hmem. lia.
  - replace (S (K - 1)) with (length (nth r c [])) in Hnd by lia.
    now rewrite firstn_all in Hnd.
Qed.

Lemma kmeans_init_returns_distinct_data_points_witness :
  kmeans_init rdd_two 2 1 0%Z ([0; 0]%nat : tape) = Ok ([[[Fin 0]; [Fin 1]]], []) /\
  (length [[[Fin 0]; [Fin 1]]] = 1%nat /\
   forall r, (r < 1)%nat ->
     length (nth r [[[Fin 0]; [Fin 1]]] []) = 2%nat /\
     (forall c, In c (nth r [[[Fin 0]; [Fin 1]]] []) -> In c (map snd rdd_two)) /\
     NoDup (nth r [[[Fin 0]; [Fin 1]]] [])).
Proof.
  assert (Hrun : kmeans_init rdd_two 2 1 0%Z ([0; 0]%nat : tape)
                 = Ok ([[[Fin 0]; [Fin 1]]], [])).
  { unfold rdd_two. feval. reflexivity. }
  split; [exact Hrun|].
  apply (kmeans_init_returns_distinct_data_points tape tape_source tape_laws
           rdd_two 1 2 1 0%Z ([0; 0]%nat : tape) [] [[[Fin 0]; [Fin 1]]]).
  - repeat constructor.
  - repeat constructor.
  - lia.
  - lia.
  - exact Hrun.
Defined.

(** X13.  After [n >= 1] rounds of the seeding loop on real-valued points
    of one dimension, the entry [D[r][x]] is the least squared distance
    from point [x] to the centroids [0 .. n-1] of run [r]: it is below or
    equal to each of them and equal to one of them.  The centroid added
    last, at position [n], is not yet taken into account. *)
Theorem seeding_table_is_least_squared_distance :
  forall (G : Type) (RS : RandomSource G),
    RandomSourceLaws G ->
    forall (rdd : dataset) (d K RUNS : nat) (g g' : G) (n : nat)
           (centers : centroid_sets) (D : list (list float)),
      finite_data rdd -> same_dim d rdd ->
      (0 < n < K)%nat ->
      kmeans_init_rounds rdd K RUNS g n = Ok (centers, D, g') ->
      forall r x, (r < RUNS)%nat -> (x < length rdd)%nat ->
        (forall j, (j < n)%nat ->
           fle (entry D r x) (sq_dist (map snd rdd) (nth r centers []) x j)) /\
        exists j, (j < n)%nat /\
           entry D r x = sq_dist (map snd rdd) (nth r centers []) x j.
Proof.
  intros G RS Hlaws rdd d K RUNS g g' n centers D Hdata _ Hn Hrounds r x Hr Hx.
  destruct (kmeans_init_rounds_seed_inv rdd K RUNS g Hlaws Hdata n centers D g'
              ltac:(lia) Hrounds r Hr) as (_ & _ & _ & Htab).
  destruct (Htab x ltac:(now rewrite length_map)) as (_ & Hle & Hex).
  split; [exact Hle | apply Hex; lia].
Qed.

Lemma seeding_table_is_least_squared_distance_witness :
  (forall j, (j < 1)%nat ->
     fle (entry [[Fin 0; Fin 1]] 0 1)
         (sq_dist (map snd rdd_two) (nth 0 [[[Fin 0]; [Fin 1]]] []) 1 j)) /\
  exists j, (j < 1)%nat /\
     entry [[Fin 0; Fin 1]] 0 1
     = sq_dist (map snd rdd_two) (nth 0 [[[Fin 0]; [Fin 1]]] []) 1 j.
Proof.
  apply (seeding_table_is_least_squared_distance tape tape_source tape_laws
           rdd_two 1 2 1 ([0; 0]%nat : tape) [] 1 [[[Fin 0]; [Fin 1]]]
           [[Fin 0; Fin 1]]).
  - repeat constructor.
  - repeat constructor.
  - lia.
  - exact seeding_distance_cache_round_one.
  - lia.
  - simpl. lia.
Defined.

(** C9.  In every state the seeding loop of [kmeans_init] reaches on
    real-valued points of one dimension, before a round [n] that the loop
    runs: each entry [D[r][x]] is non-negative; and the table that round
    [n] assigns to [D] (the table of the next state, when the round
    returns) holds at [(r, x)] a non-negative number that is less or equal
    to the previous entry, less or equal to the squared distance from
    point [x] to the centroid last added to run [r], and equal to one of
    the two: their minimum. *)
Theorem seeding_distance_cache_nonneg_nonincreasing :
  forall (G : Type) (RS : RandomSource G) (rdd : dataset) (d K RUNS : nat) (g : G)
         (n : nat) (centers : centroid_sets) (D : list (list float)) (g' : G),
    finite_data rdd -> same_dim d rdd ->
    (S n < K)%nat ->
    kmeans_init_rounds rdd K RUNS g n = Ok (centers, D, g') ->
    (forall centers2 D2 g2,
        kmeans_init_rounds rdd K RUNS g (S n) = Ok (centers2, D2, g2) ->
        D2 = next_D (map snd rdd) RUNS centers D n) /\
    forall r x, (r < RUNS)%nat -> (x < length rdd)%nat ->
      fle (Fin 0) (entry D r x) /\
      fle (Fin 0) (entry (next_D (map snd rdd) RUNS centers D n) r x) /\
      fle (entry (next_D (map snd rdd) RUNS centers D n) r x) (entry D r x) /\
      fle (entry (next_D (map snd rdd) RUNS centers D n) r x)
          (sq_dist (map snd rdd) (nth r centers []) x n) /\
      (entry (next_D (map snd rdd) RUNS centers D n) r x = entry D r x \/
       entry (next_D (map snd rdd) RUNS centers D n) r x
       = sq_dist (map snd rdd) (nth r centers []) x n).
Proof.
  intros G RS rdd d K RUNS g n centers D g' Hdata _ _ Hn.
  pose proof (kmeans_init_rounds_inv rdd K RUNS g g' n centers D Hdata Hn) as Hinv.
  split.
  - intros centers2 D2 g2 HSn.
    rewrite kmeans_init_rounds_S, Hn in HSn. cbn [bind] in HSn.
    apply (init_round_spec _ _ _ _ _ _ _ _ _ (finite_data_local rdd Hdata) Hinv HSn).
  - intros r x Hr Hx.
    assert (Hx' : (x < length (map snd rdd))%nat) by (now rewrite length_map).
    destruct Hinv as (Hlc & Hfin & HlD & _ & Hpos).
    pose proof (Hpos r x Hr Hx') as Hnn.
    rewrite next_D_entry by assumption.
    fold (sq_dist (map snd rdd) (nth r centers []) x n).
    destruct (sq_dist_finite (nth x (map snd rdd) []) (nth n (nth r centers []) []))
      as (q & Hq & Hsq).
    { apply Forall_nth_default; [now apply finite_data_local | constructor]. }
    { apply Forall_nth_default; [|constructor].
      apply Forall_nth_default; [exact Hfin | constructor]. }
    fold (sq_dist (map snd rdd) (nth r centers []) x n) in Hsq. rewrite Hsq.
    split; [exact Hnn|].
    destruct (np_min2_nonneg (entry D r x) q Hnn Hq) as (H0 & Hle & _).
    split; [exact H0|]. split; [exact Hle|].
    destruct (np_min2_cases (entry D r x) q Hnn) as [[-> Hc]|[-> Hc]].
    + split; [simpl; lra | now right].
    + split; [exact Hc | now left].
Qed.

Lemma seeding_distance_cache_nonneg_nonincreasing_witness :
  kmeans_init_rounds rdd_two 2 1 ([0; 0]%nat : tape) 0
    = Ok ([[[Fin 0]; [Fin 0]]], [[PInf; PInf]], [0%nat]) /\
  next_D (map snd rdd_two) 1 [[[Fin 0]; [Fin 0]]] [[PInf; PInf]] 0
    = [[Fin 0; Fin 1]] /\
  (forall centers2 D2 g2,
      kmeans_init_rounds rdd_two 2 1 ([0; 0]%nat : tape) 1 = Ok (centers2, D2, g2) ->
      D2 = next_D (map snd rdd_two) 1 [[[Fin 0]; [Fin 0]]] [[PInf; PInf]] 0) /\
  forall r x, (r < 1)%nat -> (x < length rdd_two)%nat ->
    fle (Fin 0) (entry [[PInf; PInf]] r x) /\
    fle (Fin 0)
        (entry (next_D (map snd rdd_two) 1 [[[Fin 0]; [Fin 0]]] [[PInf; PInf]] 0) r x) /\
    fle (entry (next_D (map snd rdd_two) 1 [[[Fin 0]; [Fin 0]]] [[PInf; PInf]] 0) r x)
        (entry [[PInf; PInf]] r x) /\
    fle (entry (next_D (map snd rdd_two) 1 [[[Fin 0]; [Fin 0]]] [[PInf; PInf]] 0) r x)
        (sq_dist (map snd rdd_two) (nth r [[[Fin 0]; [Fin 0]]] []) x 0) /\
    (entry (next_D (map snd rdd_two) 1 [[[Fin 0]; [Fin 0]]] [[PInf; PInf]] 0) r x
     = entry [[PInf; PInf]] r x \/
     entry (next_D (map snd rdd_two) 1 [[[Fin 0]; [Fin 0]]] [[PInf; PInf]] 0) r x
     = sq_dist (map snd rdd_two) (nth r [[[Fin 0]; [Fin 0]]] []) x 0).
Proof.
  assert (Hrun : kmeans_init_rounds rdd_two 2 1 ([0; 0]%nat : tape) 0
                 = Ok ([[[Fin 0]; [Fin 0]]], [[PInf; PInf]], [0%nat])).
  { unfold rdd_two. feval. reflexivity. }
  split; [exact Hrun|].
  split; [unfold rdd_two, next_D; feval; reflexivity|].
  apply (seeding_distance_cache_nonneg_nonincreasing tape tape_source rdd_two 1 2 1
           ([0; 0]%nat : tape) 0 [[[Fin 0]; [Fin 0]]] [[PInf; PInf]] [0%nat]).
  - repeat constructor.
  - repeat constructor.
  - lia.
  - exact Hrun.
Defined.

(** ** [kmeans_init] with one cluster *)

Lemma zip_first_slot (z : vec) (sample : list vec) (n : nat) :
  length sample = n ->
  zip_with (fun (c : list vec) s => s :: tl c) (repeat [z] n) sample
  = map (fun s => [s]) sample.
Proof.
  revert sample. induction n as [|n IH]; intros [|s sample] Hl; simpl in *;
    try discriminate; [reflexivity|].
  f_equal. apply IH. lia.
Qed.

(** X14.  With [K = 1] the loop of [kmeans_init] has no round: on a
    non-empty data set of one dimension and [RUNS > 0], the call returns,
    for every run, the one point drawn for it by [np.random.randint], and
    leaves the generator as these [RUNS] draws left it; [choice] is never
    called. *)
Theorem kmeans_init_single_cluster :
  forall (G : Type) (RS : RandomSource G),
    RandomSourceLaws G ->
    forall (rdd : dataset) (d RUNS : nat) (seed : Z) (g : G),
      rdd <> [] -> same_dim d rdd -> (0 < RUNS)%nat ->
      kmeans_init rdd 1 RUNS seed g =
      Ok (map (fun k => [nth k (map snd rdd) []])
              (fst (randint_array (length rdd) RUNS g)),
          snd (randint_array (length rdd) RUNS g)).
Proof.
  intros G RS Hlaws rdd d RUNS seed g Hne _ _.
  unfold kmeans_init, kmeans_init_rounds, kmeans_init_start.
  destruct rdd as [|first rdd']; [congruence|].
  set (rdd := first :: rdd') in *.
  replace (getitem rdd 0) with (Ok first) by reflexivity. cbn [bind].
  assert (HN : (0 < length (map snd rdd))%nat) by (simpl; lia).
  pose proof (randint_array_range (length (map snd rdd)) RUNS g Hlaws HN) as Hrange.
  pose proof (randint_array_length (length (map snd rdd)) RUNS g) as Hlen.
  replace (length rdd) with (length (map snd rdd)) by apply length_map.
  destruct (randint_array (length (map snd rdd)) RUNS g) as [ks g1].
  cbn [fst snd] in *.
  rewrite (mapM_getitem_ok _ _ [] Hrange).
  cbn [bind Nat.eqb Nat.sub seq foldM repeat].
  rewrite zip_first_slot by (now rewrite length_map).
  now rewrite map_map.
Qed.

Lemma kmeans_init_single_cluster_witness :
  kmeans_init rdd_two 1 2 0%Z ([1; 0]%nat : tape) =
  Ok (map (fun k => [nth k (map snd rdd_two) []])
          (fst (randint_array (length rdd_two) 2 ([1; 0]%nat : tape))),
      snd (randint_array (length rdd_two) 2 ([1; 0]%nat : tape))).
Proof.
  apply (kmeans_init_single_cluster tape tape_source tape_laws rdd_two 1 2 0%Z
           ([1; 0]%nat : tape)).
  - discriminate.
  - repeat constructor.
  - lia.
Defined.

(** ** Sums of non-negative reals *)

Lemma Rsum_ge_entry (qs : list R) (x : nat) :
  Forall (fun q => 0 <= q) qs -> nth x qs 0 <= Rsum qs.
Proof.
  intros Hq. revert x. induction Hq as [|q qs Hq0 Hq IH]; intros [|x]; simpl;
    try lra.
  - pose proof (Rsum_nonneg_list qs Hq). unfold Rsum in *. lra.
  - specialize (IH x). unfold Rsum in *. lra.
Qed.

Lemma Rsum_scale (qs : list R) (s : R) :
  Rsum (map (fun q => q / s) qs) = Rsum qs / s.
Proof.
  induction qs as [|q qs IH]; simpl; [lra|]. unfold Rsum in *. rewrite IH. lra.
Qed.

(** ** [compute_entropy] *)

Lemma ln_monotone (x y : R) : 0 < x -> x <= y -> ln x <= ln y.
Proof.
  intros Hx [Hlt| ->]; [left; now apply ln_increasing | right; reflexivity].
Qed.

Lemma ln_le_sub1 (x : R) : 0 < x -> ln x <= x - 1.
Proof.
  intros Hx. pose proof (exp_ineq1_le (x - 1)) as He.
  replace (1 + (x - 1)) with x in He by lra.
  rewrite <- (ln_exp (x - 1)). now apply ln_monotone.
Qed.

Lemma ln2_pos : 0 < ln 2.
Proof. pose proof ln_lt_2. lra. Qed.

Lemma In_le_Rsum (qs : list R) (q : R) :
  Forall (fun q => 0 <= q) qs -> In q qs -> q <= Rsum qs.
Proof.
  intros Hq Hin. destruct (In_nth _ _ 0 Hin) as (x & _ & <-).
  now apply Rsum_ge_entry.
Qed.

Lemma Rsum_pos (cs : list R) :
  cs <> [] -> Forall (fun c => 0 < c) cs -> 0 < Rsum cs.
Proof.
  intros Hne Hc. destruct Hc as [|c cs Hc Hcs]; [congruence|].
  assert (0 <= Rsum cs).
  { apply Rsum_nonneg_list. eapply Forall_impl; [|exact Hcs]. intros; cbv beta; lra. }
  unfold Rsum in *. simpl. lra.
Qed.

Lemma compute_entropy_Fin (cs : list R) :
  cs <> [] -> Forall (fun c => 0 < c) cs ->
  compute_entropy (map Fin cs) = Fin (shannon (map (fun c => c / Rsum cs) cs)).
Proof.
  intros Hne Hc. pose proof (Rsum_pos cs Hne Hc) as Hs.
  unfold compute_entropy, shannon. rewrite np_sum_Fin, !map_map.
  assert (Hmap : map (fun c => fmul (fdiv (fmul (Fin 1) (Fin c)) (Fin (Rsum cs)))
                                  (flog2 (fdiv (fmul (Fin 1) (Fin c)) (Fin (Rsum cs))))) cs
                 = map Fin (map (fun c => c / Rsum cs * (ln (c / Rsum cs) / ln 2)) cs)).
  { rewrite map_map. apply map_ext_in. intros c Hin.
    rewrite Forall_forall in Hc. specialize (Hc c Hin).
    cbn [fmul fdiv]. unfold Req_bool.
    destruct (Req_dec_T (Rsum cs) 0); [lra|].
    replace (1 * c / Rsum cs) with (c / Rsum cs) by (field; lra).
    cbn [flog2]. rewrite Rlt_bool_true; [reflexivity|].
    apply Rmult_lt_0_compat; [exact Hc | now apply Rinv_0_lt_compat]. }
  rewrite Hmap, np_sum_Fin. reflexivity.
Qed.

Lemma shannon_term_upper (p n : R) :
  0 < p -> 0 < n -> - (p * (ln p / ln 2)) * ln 2 <= p * ln n + / n - p.
Proof.
  intros Hp Hn. pose proof ln2_pos.
  replace (- (p * (ln p / ln 2)) * ln 2) with (- p * ln p) by (field; lra).
  assert (Hy : 0 < / (n * p)).
  { apply Rinv_0_lt_compat. now apply Rmult_lt_0_compat. }
  pose proof (ln_le_sub1 _ Hy) as Hl.
  rewrite ln_Rinv in Hl by (now apply Rmult_lt_0_compat).
  rewrite ln_mult in Hl by assumption.
  assert (Hm : p * (- (ln n + ln p)) <= p * (/ (n * p) - 1)).
  { apply Rmult_le_compat_l; lra. }
  replace (p * (/ (n * p) - 1)) with (/ n - p) in Hm by (field; lra).
  lra.
Qed.

Lemma shannon_upper_sum (ps : list R) (n : R) :
  0 < n -> Forall (fun p => 0 < p) ps ->
  shannon ps * ln 2 <= Rsum ps * ln n + INR (length ps) * / n - Rsum ps.
Proof.
  intros Hn Hp. unfold shannon. induction Hp as [|p ps Hp0 Hp IH].
  - simpl. lra.
  - pose proof (shannon_term_upper p n Hp0 Hn) as Ht.
    change (length (p :: ps)) with (S (length ps)). rewrite S_INR.
    unfold Rsum in *. cbn [map fold_right]. lra.
Qed.

Lemma shannon_nonneg (ps : list R) :
  Forall (fun p => 0 < p <= 1) ps -> 0 <= shannon ps.
Proof.
  intros Hp. unfold shannon. pose proof ln2_pos as H2.
  assert (Rsum (map (fun p => p * (ln p / ln 2)) ps) <= 0); [|lra].
  induction Hp as [|p ps [Hp0 Hp1] Hp IH]; simpl; [lra|].
  assert (Hl : ln p <= 0).
  { rewrite <- ln_1. apply ln_monotone; lra. }
  assert (p * (ln p / ln 2) <= 0).
  { assert (Hd : ln p / ln 2 <= 0).
    { unfold Rdiv. pose proof (Rinv_0_lt_compat _ H2).
      rewrite <- (Rmult_0_l (/ ln 2)). apply Rmult_le_compat_r; lra. }
    rewrite <- (Rmult_0_r p). apply Rmult_le_compat_l; lra. }
  unfold Rsum in *. lra.
Qed.

Lemma shannon_normalised_bounds (cs : list R) :
  cs <> [] -> Forall (fun c => 0 < c) cs ->
  0 <= shannon (map (fun c => c / Rsum cs) cs) <= ln (INR (length cs)) / ln 2.
Proof.
  intros Hne Hc. pose proof (Rsum_pos cs Hne Hc) as Hs. pose proof ln2_pos as H2.
  assert (Hnn : Forall (fun c => 0 <= c) cs).
  { eapply Forall_impl; [|exact Hc]. intros; cbv beta; lra. }
  split.
  - apply shannon_nonneg. rewrite Forall_map. apply Forall_forall.
    intros c Hin. pose proof (In_le_Rsum cs c Hnn Hin).
    rewrite Forall_forall in Hc. pose proof (Hc c Hin).
    split.
    + apply Rmult_lt_0_compat; [lra | now apply Rinv_0_lt_compat].
    + apply (Rmult_le_reg_r (Rsum cs)); [exact Hs|]. field_simplify; lra.
  - assert (Hn : 0 < INR (length cs)).
    { apply lt_0_INR. destruct cs; [congruence | simpl; lia]. }
    pose proof (shannon_upper_sum (map (fun c => c / Rsum cs) cs) (INR (length cs)) Hn)
      as Hu.
    rewrite length_map, Rsum_scale in Hu.
    replace (Rsum cs / Rsum cs) with 1 in Hu by (field; lra).
    rewrite Rinv_r in Hu by lra.
    apply (Rmult_le_reg_r (ln 2)); [exact H2|].
    replace (ln (INR (length cs)) / ln 2 * ln 2) with (ln (INR (length cs)))
      by (field; lra).
    assert (Forall (fun p => 0 < p) (map (fun c => c / Rsum cs) cs)).
    { rewrite Forall_map. eapply Forall_impl; [|exact Hc]. intros c Hc0. cbv beta in *.
      apply Rmult_lt_0_compat; [lra | now apply Rinv_0_lt_compat]. }
    specialize (Hu H). lra.
Qed.

(** X16.  On a non-empty vector of positive frequencies [compute_entropy]
    returns a number (no [nan], no infinity) between [0] and
    [log2 (len d)].  (Arithmetic on finite values is exact.) *)
Theorem compute_entropy_bounds :
  forall cs : list R,
    cs <> [] -> Forall (fun c => 0 < c) cs ->
    exists h, compute_entropy (map Fin cs) = Fin h /\
              0 <= h <= ln (INR (length cs)) / ln 2.
Proof.
  intros cs Hne Hc. exists (shannon (map (fun c => c / Rsum cs) cs)).
  split; [now apply compute_entropy_Fin | now apply shannon_normalised_bounds].
Qed.

Lemma compute_entropy_bounds_witness :
  exists h, compute_entropy (map Fin [1; 3]) = Fin h /\
            0 <= h <= ln (INR (length [1; 3])) / ln 2.
Proof.
  apply (compute_entropy_bounds [1; 3]).
  - discriminate.
  - repeat constructor; lra.
Defined.

Lemma fmul_flog2_zero_or_nan (a : float) :
  a = Fin 0 \/ a = NaN -> fmul a (flog2 a) = NaN.
Proof.
  intros [->| ->]; [|reflexivity]. cbn [flog2].
  rewrite Rlt_bool_false by lra. rewrite Req_bool_true by reflexivity.
  cbn [fmul]. now rewrite Req_bool_true.
Qed.

(** X17.  A frequency vector with a zero entry makes [compute_entropy]
    return [nan]: the entry contributes [0 * log2(0) = 0 * -inf], or
    [0 / 0] when the frequencies sum to zero. *)
Theorem compute_entropy_zero_count_nan :
  forall cs : list R, In 0 cs -> compute_entropy (map Fin cs) = NaN.
Proof.
  intros cs Hin. unfold compute_entropy.
  rewrite np_sum_nan; [reflexivity|].
  rewrite np_sum_Fin, !map_map. apply in_map_iff. exists 0. split; [|exact Hin].
  apply fmul_flog2_zero_or_nan. cbn [fmul fdiv]. unfold Req_bool.
  destruct (Req_dec_T (Rsum cs) 0).
  - destruct (Req_dec_T (1 * 0) 0); [now right | lra].
  - left. f_equal. field. assumption.
Qed.

Lemma compute_entropy_zero_count_nan_witness :
  compute_entropy (map Fin [2; 0; 2]) = NaN.
Proof.
  apply (compute_entropy_zero_count_nan [2; 0; 2]). simpl. tauto.
Defined.

Lemma Rsum_repeat (c : R) (n : nat) : Rsum (repeat c n) = INR n * c.
Proof.
  induction n as [|n IH]; [simpl; lra|].
  rewrite S_INR. cbn [repeat]. unfold Rsum in *. cbn [fold_right]. rewrite IH. lra.
Qed.

Lemma map_repeat {A B : Type} (f : A -> B) (a : A) (n : nat) :
  map f (repeat a n) = repeat (f a) n.
Proof. induction n as [|n IH]; simpl; [reflexivity | now rewrite IH]. Qed.

(** X18.  On [n > 0] equal positive frequencies [compute_entropy] returns
    [log2 n], the largest value it takes on [n] positive frequencies.
    (Arithmetic on finite values is exact.) *)
Theorem compute_entropy_equal_counts :
  forall (c : R) (n : nat),
    0 < c -> (0 < n)%nat ->
    compute_entropy (repeat (Fin c) n) = Fin (ln (INR n) / ln 2).
Proof.
  intros c n Hc Hn. pose proof ln2_pos as H2.
  assert (HN : 0 < INR n) by (now apply lt_0_INR).
  rewrite <- (map_repeat Fin c n).
  rewrite compute_entropy_Fin.
  - f_equal. unfold shannon. rewrite !map_repeat, !Rsum_repeat.
    replace (c / (INR n * c)) with (/ INR n) by (field; lra).
    rewrite ln_Rinv by exact HN. field. lra.
  - destruct n; [lia | discriminate].
  - apply Forall_forall. intros x Hx. apply repeat_spec in Hx. now subst.
Qed.

Lemma compute_entropy_equal_counts_witness :
  compute_entropy (repeat (Fin 5) 4) = Fin (ln (INR 4) / ln 2).
Proof.
  apply (compute_entropy_equal_counts 5 4); [lra | lia].
Defined.

(** ** The entropy of the signatures *)

Lemma dict_get_set {V : Type} (d : list (string * V)) (k k' : string) (v default : V) :
  dict_get (dict_set d k v) k' default
  = if String.eqb k k' then v else dict_get d k' default.
Proof.
  induction d as [|[k0 v0] d IH]; simpl.
  - reflexivity.
  - destruct (String.eqb_spec k0 k) as [->|Hne]; simpl.
    + destruct (String.eqb k k'); reflexivity.
    + rewrite IH. destruct (String.eqb_spec k0 k') as [->|Hne'].
      * destruct (String.eqb_spec k k') as [->|_]; [congruence | reflexivity].
      * reflexivity.
Qed.

Lemma count_fold_get (i : nat) (group : list (string * list nat))
  (count : list (string * Z)) (k : string) :
  dict_get (fold_left (count_step i) group count) k 0%Z
  = (dict_get count k 0 +
     Z.of_nat (count_occ string_dec
                 (map (fun gs => signature_key (snd gs) i) group) k))%Z.
Proof.
  revert count. induction group as [|gs group IH]; intros count.
  - simpl. lia.
  - cbn [fold_left map]. rewrite IH. unfold count_step.
    rewrite dict_get_set.
    destruct (String.eqb_spec (signature_key (snd gs) i) k) as [Heq|Hne].
    + rewrite (count_occ_cons_eq _ _ Heq). rewrite Heq. lia.
    + rewrite (count_occ_cons_neq _ _ Hne). lia.
Qed.

(** X19.  After the inner loop of the entropy cell, [count] maps every
    string to the number of entries of [group] whose signature, cut after
    run [i] and joined by commas, is that string ([0] for a string that is
    no key). *)
Theorem count_signatures_histogram :
  forall (group : list (string * list nat)) (i : nat) (k : string),
    dict_get (count_signatures group i) k 0%Z
    = Z.of_nat (count_occ string_dec
                  (map (fun gs => signature_key (snd gs) i) group) k).
Proof.
  intros group i k. unfold count_signatures. rewrite count_fold_get. simpl. lia.
Qed.

Lemma dict_step_values (d : list (string * Z)) (k : string) :
  Forall (fun kv => (1 <= snd kv)%Z) d ->
  Forall (fun kv => (1 <= snd kv)%Z) (dict_set d k (dict_get d k 0 + 1)%Z) /\
  Zsum (map snd (dict_set d k (dict_get d k 0 + 1)%Z)) = (Zsum (map snd d) + 1)%Z.
Proof.
  induction 1 as [|[k0 v0] d Hv Hd IH]; simpl.
  - split; [repeat constructor; simpl; lia | reflexivity].
  - simpl in Hv. destruct (String.eqb k0 k); simpl.
    + split; [constructor; [simpl; lia | exact Hd] | lia].
    + destruct IH as [IH1 IH2]. split; [constructor; assumption | lia].
Qed.

Lemma count_fold_values (i : nat) (group : list (string * list nat))
  (count : list (string * Z)) :
  Forall (fun kv => (1 <= snd kv)%Z) count ->
  Forall (fun kv => (1 <= snd kv)%Z) (fold_left (count_step i) group count) /\
  Zsum (map snd (fold_left (count_step i) group count))
  = (Zsum (map snd count) + Z.of_nat (length group))%Z.
Proof.
  revert count. induction group as [|gs group IH]; intros count Hc.
  - simpl. split; [exact Hc | lia].
  - cbn [fold_left].
    change (count_step i count gs)
      with (dict_set count (signature_key (snd gs) i)
              (dict_get count (signature_key (snd gs) i) 0 + 1)%Z).
    destruct (dict_step_values count (signature_key (snd gs) i) Hc) as [H1 H2].
    destruct (IH _ H1) as [H3 H4]. split; [exact H3|].
    rewrite H4, H2. cbn [length]. lia.
Qed.

Lemma Zsum_ge_length (l : list Z) :
  Forall (fun z => (1 <= z)%Z) l -> (Z.of_nat (length l) <= Zsum l)%Z.
Proof. induction 1; simpl; lia. Qed.

Lemma Zsum_perm (l l' : list Z) : Permutation l l' -> Zsum l = Zsum l'.
Proof. induction 1; simpl; lia. Qed.

(** X20.  For a non-empty [group] and every run index [i], in whatever
    order [count.values()] lists the counts, the entropy appended by the
    cell is a number between [0] and [log2 (len group)]: the counts are at
    least one and sum to [len group].  (Arithmetic on finite values is
    exact.) *)
Theorem signature_entropy_bounds :
  forall (group : list (string * list nat)) (i : nat) (values : list Z),
    group <> [] ->
    Permutation values (map snd (count_signatures group i)) ->
    exists h, compute_entropy (int_array values) = Fin h /\
              0 <= h <= ln (INR (length group)) / ln 2.
Proof.
  intros group i values Hne Hperm.
  destruct (count_fold_values i group [] (Forall_nil _)) as [Hpos Hsum].
  fold (count_signatures group i) in Hpos, Hsum. simpl in Hsum.
  assert (Hv : Forall (fun z => (1 <= z)%Z) values).
  { eapply Permutation_Forall; [symmetry; exact Hperm|].
    rewrite Forall_map. exact Hpos. }
  assert (Hs : Zsum values = Z.of_nat (length group)).
  { rewrite (Zsum_perm _ _ Hperm). exact Hsum. }
  pose proof (Zsum_ge_length values Hv) as Hlen.
  assert (Hnv : values <> []).
  { intros ->. simpl in Hs. destruct group; [congruence | simpl in Hs; lia]. }
  unfold int_array. rewrite <- (map_map IZR Fin).
  assert (Hne' : map IZR values <> []).
  { destruct values; [congruence | discriminate]. }
  assert (Hpos' : Forall (fun c => 0 < c) (map IZR values)).
  { rewrite Forall_map. eapply Forall_impl; [|exact Hv].
    intros z Hz. cbv beta in *. apply IZR_lt. lia. }
  destruct (shannon_normalised_bounds (map IZR values) Hne' Hpos') as (H0 & Hup).
  eexists. split; [now apply compute_entropy_Fin|]. split; [exact H0|].
  eapply Rle_trans; [exact Hup|]. rewrite length_map.
  pose proof ln2_pos. apply Rmult_le_compat_r; [left; now apply Rinv_0_lt_compat|].
  apply ln_monotone.
  - apply lt_0_INR. destruct values; [congruence | simpl; lia].
  - apply le_INR. lia.
Qed.

Lemma signature_entropy_bounds_witness :
  exists h,
    compute_entropy
      (int_array (map snd (count_signatures
                             [("a"%string, [0; 1]%nat); ("b"%string, [1; 1]%nat)] 0)))
    = Fin h /\
    0 <= h <= ln (INR (length [("a"%string, [0; 1]%nat); ("b"%string, [1; 1]%nat)]))
              / ln 2.
Proof.
  apply (signature_entropy_bounds
           [("a"%string, [0; 1]%nat); ("b"%string, [1; 1]%nat)] 0).
  - discriminate.
  - apply Permutation_refl.
Defined.

(* ================================================================= *)
(** * Decisions on machine numbers *)

(** ** The comparison of binary64 *)

Lemma SFcompare_refl (s : spec_float) :
  s <> S754_nan -> SFcompare s s = Some Eq.
Proof.
  destruct s as [[]|[]| |[] m e]; simpl; try congruence; intros _;
    rewrite Z.compare_refl; change (PosDef.Pos.compare_cont Eq m m) with (Pos.compare m m);
    now rewrite Pos.compare_refl.
Qed.

Lemma is_nan_spec (x : PrimFloat.float) :
  PrimFloat.is_nan x = true <-> Prim2SF x = S754_nan.
Proof.
  unfold PrimFloat.is_nan. rewrite FloatAxioms.eqb_spec. unfold SFeqb. split.
  - intros Hn. destruct (Prim2SF x) eqn:E; try reflexivity;
      rewrite SFcompare_refl in Hn by discriminate; discriminate.
  - intros ->. reflexivity.
Qed.

Lemma SFltb_irrefl (s : spec_float) : SFltb s s = false.
Proof.
  unfold SFltb. destruct s as [[]|[]| |[] m e]; simpl; try reflexivity;
    rewrite Z.compare_refl; change (PosDef.Pos.compare_cont Eq m m) with (Pos.compare m m);
    now rewrite Pos.compare_refl.
Qed.

Ltac sf_order :=
  repeat match goal with
         | H : context [(?a ?= ?b)%Z] |- _ =>
             let E := fresh "E" in
             destruct (Z.compare_spec a b) as [E|E|E]
         | |- context [(?a ?= ?b)%Z] =>
             let E := fresh "E" in
             destruct (Z.compare_spec a b) as [E|E|E]
         | H : context [PosDef.Pos.compare_cont Eq ?a ?b] |- _ =>
             let E := fresh "E" in
             change (PosDef.Pos.compare_cont Eq a b) with (Pos.compare a b) in *;
             destruct (Pos.compare_spec a b) as [E|E|E]
         | |- context [PosDef.Pos.compare_cont Eq ?a ?b] =>
             let E := fresh "E" in
             change (PosDef.Pos.compare_cont Eq a b) with (Pos.compare a b) in *;
             destruct (Pos.compare_spec a b) as [E|E|E]
         end;
  simpl in *; subst; try lia; try discriminate; try reflexivity.

Lemma SFltb_trans (a b c : spec_float) :
  SFltb a b = true -> SFltb b c = true -> SFltb a c = true.
Proof.
  unfold SFltb.
  destruct a as [[]|[]| |[] ma ea], b as [[]|[]| |[] mb eb], c as [[]|[]| |[] mc ec];
    simpl; try discriminate; try reflexivity; intros H1 H2; sf_order.
Qed.

Lemma SFltb_below (a b c : spec_float) :
  SFltb a c = true -> SFltb b c = false -> b <> S754_nan -> SFltb a b = true.
Proof.
  unfold SFltb.
  destruct a as [[]|[]| |[] ma ea], b as [[]|[]| |[] mb eb], c as [[]|[]| |[] mc ec];
    simpl; try discriminate; try reflexivity; try congruence; intros H1 H2 _; sf_order.
Qed.

Lemma SFltb_inf_top (a b : spec_float) :
  SFltb a (S754_infinity false) = false -> SFltb b (S754_infinity false) = false ->
  SFltb b a = false.
Proof.
  unfold SFltb.
  destruct a as [[]|[]| |[] ma ea], b as [[]|[]| |[] mb eb];
    simpl; try discriminate; reflexivity.
Qed.

Lemma binary64_laws : ArithmeticLaws PrimFloat.float.
Proof.
  constructor; cbn [num_ltb num_is_nan num_inf binary64].
  - intros a. rewrite FloatAxioms.ltb_spec. apply SFltb_irrefl.
  - intros a b c. rewrite !FloatAxioms.ltb_spec. apply SFltb_trans.
  - intros a b c H1 H2 Hn. rewrite FloatAxioms.ltb_spec in *.
    apply (SFltb_below _ _ _ H1 H2). intros Hb.
    apply is_nan_spec in Hb. congruence.
  - intros a b. rewrite !FloatAxioms.ltb_spec.
    replace (Prim2SF infinity) with (S754_infinity false) by reflexivity.
    apply SFltb_inf_top.
  - intros a b Hn. apply is_nan_spec in Hn. rewrite FloatAxioms.ltb_spec, Hn.
    unfold SFltb. destruct (Prim2SF a) as [[]|[]| |[] ma ea]; reflexivity.
Qed.

Lemma exact_laws : ArithmeticLaws float.
Proof.
  constructor; cbn [num_ltb num_is_nan num_inf exact_arithmetic].
  - apply fltb_irrefl.
  - apply fltb_trans.
  - intros a b c. destruct a as [x| | |], b as [y| | |], c as [z| | |]; simpl;
      try discriminate; auto; intros H1 H2 _;
      apply Rlt_bool_iff in H1; apply Rlt_bool_true;
      unfold Rlt_bool in H2; destruct (Rlt_dec y z); [discriminate | lra].
  - intros a b. destruct a, b; simpl; auto; discriminate.
  - intros a b. destruct a, b; simpl; auto; discriminate.
Qed.

(** ** [get_closest] on machine numbers *)

Section ClosestScan.
Context {num : Type} {A : Arithmetic num} (L : ArithmeticLaws num).

Lemma np_sub_same_length (a b : list num) :
  length b = length a -> Machine.np_sub a b = Ok (zip_with num_sub a b).
Proof.
  intros Hl. unfold Machine.np_sub. rewrite Hl, Nat.eqb_refl. reflexivity.
Qed.

Lemma machine_closest_scan (p : list num) (run : list (list num)) (n : nat) :
  (n <= length run)%nat ->
  Forall (fun c => length c = length p) run ->
  exists best closest,
    Machine.closest_scan p run n = Ok (best, closest) /\
    ((best = O /\ closest = num_inf) \/
     ((best < n)%nat /\ closest = Machine.distance p (nth best run []))) /\
    (forall j, (j < n)%nat ->
       num_ltb (Machine.distance p (nth j run [])) closest = false) /\
    ((forall j, (j < n)%nat ->
        num_is_nan (Machine.distance p (nth j run [])) = false) ->
     forall j, (j < best)%nat ->
       num_ltb (Machine.distance p (nth best run []))
               (Machine.distance p (nth j run [])) = true).
Proof.
  intros Hn Hdim. unfold Machine.closest_scan. induction n as [|n IH].
  - exists O, num_inf. split; [reflexivity|]. split; [auto|].
    split; intros; lia.
  - destruct IH as (best & closest & Hs & Hst & Hmin & Hfirst); [lia|].
    rewrite seq_snoc, foldM_app, Hs. cbn [bind foldM Machine.closest_step].
    rewrite (getitem_lt run n []) by lia. cbn [bind].
    rewrite np_sub_same_length
      by (rewrite Forall_forall in Hdim; apply Hdim, nth_In; lia).
    cbn [bind]. fold (Machine.distance p (nth n run [])).
    set (d := Machine.distance p (nth n run [])).
    destruct (num_ltb d closest) eqn:Ed.
    + exists n, d. split; [reflexivity|]. split; [right; split; [lia | reflexivity]|].
      split.
      * intros j Hj. destruct (Nat.eq_dec j n) as [->|Hne].
        -- apply num_ltb_irrefl.
        -- destruct (num_ltb (Machine.distance p (nth j run [])) d) eqn:Ej;
             [|reflexivity].
           rewrite <- (Hmin j) by lia. symmetry. eapply num_ltb_trans; eauto.
      * intros Hnan j Hj. fold d.
        apply (num_ltb_below d _ closest Ed); [apply Hmin; lia | apply Hnan; lia].
    + exists best, closest. split; [reflexivity|]. split.
      * destruct Hst as [Hst|(Hb & Hc)]; [left; exact Hst | right; split; [lia | exact Hc]].
      * split.
        -- intros j Hj. destruct (Nat.eq_dec j n) as [->|Hne]; [exact Ed|].
           apply Hmin. lia.
        -- intros Hnan j Hj. apply Hfirst; [|exact Hj].
           intros i Hi. apply Hnan. lia.
Qed.

Lemma machine_get_closest (p : list num) (centers : list (list (list num)))
  (K : nat) :
  (0 < K)%nat ->
  Forall (fun run => length run = K) centers ->
  Forall (Forall (fun c => length c = length p)) centers ->
  exists best,
    Machine.get_closest p centers = Ok best /\
    Forall2 (fun run b =>
               (b < K)%nat /\
               (forall j, (j < K)%nat ->
                  num_ltb (Machine.distance p (nth j run []))
                          (Machine.distance p (nth b run [])) = false) /\
               ((forall j, (j < K)%nat ->
                   num_is_nan (Machine.distance p (nth j run [])) = false) ->
                forall j, (j < b)%nat ->
                  num_ltb (Machine.distance p (nth b run []))
                          (Machine.distance p (nth j run [])) = true))
            centers best.
Proof.
  intros HK Hrect Hdim. unfold Machine.get_closest.
  apply mapM_Forall2. intros run Hin.
  assert (Hlen : length run = K) by (rewrite Forall_forall in Hrect; auto).
  assert (Hdr : Forall (fun c => length c = length p) run)
    by (rewrite Forall_forall in Hdim; auto).
  assert (HK0 : length (hd [] centers) = K).
  { destruct centers as [|run0 rest]; [contradiction|]. now inversion Hrect. }
  rewrite HK0.
  destruct (machine_closest_scan p run K) as (b & cl & Hs & Hst & Hmin & Hfirst);
    [lia | exact Hdr |].
  exists b. rewrite Hs. cbn [bind fst]. split; [reflexivity|].
  destruct Hst as [[-> ->]|(Hb & Hc)].
  - split; [exact HK|]. split.
    + intros j Hj. apply num_inf_top; apply Hmin; lia.
    + intros _ j Hj. lia.
  - split; [exact Hb|]. split.
    + intros j Hj. rewrite <- Hc. now apply Hmin.
    + exact Hfirst.
Qed.

End ClosestScan.

(** C6, as the code behaves.  In every arithmetic whose comparison obeys
    [ArithmeticLaws] (binary64 does), for a point and a rectangular
    collection of [K > 0] centroids per run, all of the point's dimension,
    whose computed distances [norm(p - c)] are not [nan]: [get_closest]
    returns one index per run, and that index is the first position at
    which the computed distance is least.  No centroid of the run has a
    computed distance strictly below it, and every earlier centroid has
    one strictly above. *)
Theorem get_closest_first_least_computed :
  forall (num : Type) (A : Arithmetic num),
    ArithmeticLaws num ->
    forall (p : list num) (centers : list (list (list num))) (K : nat),
      (0 < K)%nat ->
      Forall (fun run => length run = K) centers ->
      Forall (Forall (fun c => length c = length p)) centers ->
      Forall (Forall (fun c => num_is_nan (Machine.distance p c) = false)) centers ->
      exists best,
        Machine.get_closest p centers = Ok best /\
        length best = length centers /\
        forall r, (r < length centers)%nat ->
          (nth r best O < K)%nat /\
          (forall j, (j < K)%nat ->
             num_ltb (Machine.distance p (nth j (nth r centers []) []))
                     (Machine.distance p (nth (nth r best O) (nth r centers []) []))
             = false) /\
          (forall j, (j < nth r best O)%nat ->
             num_ltb (Machine.distance p (nth (nth r best O) (nth r centers []) []))
                     (Machine.distance p (nth j (nth r centers []) []))
             = true).
Proof.
  intros num A L p centers K HK Hrect Hdim Hnan.
  destruct (machine_get_closest L p centers K HK Hrect Hdim) as (best & Hbest & HF).
  exists best. split; [exact Hbest|]. split.
  - symmetry. eapply Forall2_length, HF.
  - intros r Hr.
    destruct (Forall2_nth_both _ _ _ r [] O HF Hr) as (Hb & Hmin & Hfirst).
    split; [exact Hb|]. split; [exact Hmin|].
    apply Hfirst. intros j Hj.
    assert (Hrun : Forall (fun c => num_is_nan (Machine.distance p c) = false)
                          (nth r centers [])).
    { rewrite Forall_forall in Hnan. apply Hnan, nth_In, Hr. }
    rewrite Forall_forall in Hrun. apply Hrun, nth_In.
    rewrite Forall_forall in Hrect. rewrite (Hrect (nth r centers [])); [exact Hj|].
    apply nth_In, Hr.
Qed.

Lemma get_closest_first_least_computed_witness :
  exists best,
    Machine.get_closest [0%float; 0%float]
      [[[0.5%float; 0x1p-31%float]; [0.5%float; 0%float]; [0.25%float; 0%float]]]
    = Ok best /\
    length best = 1%nat /\
    forall r, (r < 1)%nat ->
      (nth r best O < 3)%nat /\
      (forall j, (j < 3)%nat ->
         num_ltb
           (Machine.distance [0%float; 0%float]
              (nth j (nth r [[[0.5%float; 0x1p-31%float]; [0.5%float; 0%float];
                               [0.25%float; 0%float]]] []) []))
           (Machine.distance [0%float; 0%float]
              (nth (nth r best O)
                   (nth r [[[0.5%float; 0x1p-31%float]; [0.5%float; 0%float];
                            [0.25%float; 0%float]]] []) []))
         = false) /\
      (forall j, (j < nth r best O)%nat ->
         num_ltb
           (Machine.distance [0%float; 0%float]
              (nth (nth r best O)
                   (nth r [[[0.5%float; 0x1p-31%float]; [0.5%float; 0%float];
                            [0.25%float; 0%float]]] []) []))
           (Machine.distance [0%float; 0%float]
              (nth j (nth r [[[0.5%float; 0x1p-31%float]; [0.5%float; 0%float];
                               [0.25%float; 0%float]]] []) []))
         = true).
Proof.
  apply (get_closest_first_least_computed PrimFloat.float binary64 binary64_laws
           [0%float; 0%float]
           [[[0.5%float; 0x1p-31%float]; [0.5%float; 0%float]; [0.25%float; 0%float]]]
           3).
  - lia.
  - repeat constructor.
  - repeat constructor.
  - repeat constructor.
Defined.

Ltac b2r :=
  unfold B2R;
  repeat match goal with
         | |- context [SF2Q (Prim2SF ?x)] =>
             let v := eval vm_compute in (SF2Q (Prim2SF x)) in
             change (SF2Q (Prim2SF x)) with v
         end;
  unfold Q2R; cbn [Qnum Qden].

Lemma sqrt_lt_sq (a b : R) : 0 <= a -> a < b -> sqrt a < sqrt b.
Proof. intros Ha Hab. apply sqrt_lt_1; lra. Qed.

(** C6 fails as stated: in binary64, for the point [(0, 0)] and the
    centroids [(1/2, 2^-31)] and [(1/2, 0)] both distances are computed as
    [0.5] (the sum [1/4 + 2^-62] rounds to [1/4]), the comparison
    [0.5 < 0.5] fails and [get_closest] answers [0]; the centroid at
    position [1] is strictly nearer in Euclidean distance, so position [0]
    is not the first position of least Euclidean distance. *)
Lemma get_closest_near_tie_keeps_first :
  Machine.get_closest [0%float; 0%float]
    [[[0.5%float; 0x1p-31%float]; [0.5%float; 0%float]]] = Ok [O] /\
  map B2R [0%float; 0%float] = [0; 0] /\
  map B2R [0.5%float; 0x1p-31%float] = [1 / 2; 1 / 2147483648] /\
  map B2R [0.5%float; 0%float] = [1 / 2; 0] /\
  euclid [0; 0] [1 / 2; 0] < euclid [0; 0] [1 / 2; 1 / 2147483648] /\
  ~ first_argmin (euclid [0; 0]) [[1 / 2; 1 / 2147483648]; [1 / 2; 0]] 0.
Proof.
  assert (Hlt : euclid [0; 0] [1 / 2; 0] < euclid [0; 0] [1 / 2; 1 / 2147483648]).
  { unfold euclid, Rsum. cbn [zip_with fold_right]. apply sqrt_lt_sq; lra. }
  split; [vm_compute; reflexivity|].
  split; [cbn [map]; b2r; repeat f_equal; lra|].
  split; [cbn [map]; b2r; repeat f_equal; lra|].
  split; [cbn [map]; b2r; repeat f_equal; lra|].
  split; [exact Hlt|].
  intros (cb & Hcb & Hmin & _). cbn [nth_error] in Hcb. injection Hcb as <-.
  specialize (Hmin 1%nat [1 / 2; 0] eq_refl). lra.
Qed.

(** X3.  In every arithmetic whose comparison obeys [ArithmeticLaws]
    (binary64 does), on a rectangular collection with [K > 0] whose
    centroids have the point's dimension, whatever the numbers ([nan] and
    infinities included), [get_closest] raises nothing and returns one
    index per run; every index is below [K], and no centroid of the run
    has a computed distance [norm(p - c)] strictly below that of the
    centroid returned. *)
Theorem get_closest_in_range_none_closer :
  forall (num : Type) (A : Arithmetic num),
    ArithmeticLaws num ->
    forall (p : list num) (centers : list (list (list num))) (K : nat),
      (0 < K)%nat ->
      Forall (fun run => length run = K) centers ->
      Forall (Forall (fun c => length c = length p)) centers ->
      exists best,
        Machine.get_closest p centers = Ok best /\
        length best = length centers /\
        forall r, (r < length centers)%nat ->
          (nth r best O < K)%nat /\
          forall j, (j < K)%nat ->
            num_ltb (Machine.distance p (nth j (nth r centers []) []))
                    (Machine.distance p (nth (nth r best O) (nth r centers []) []))
            = false.
Proof.
  intros num A L p centers K HK Hrect Hdim.
  destruct (machine_get_closest L p centers K HK Hrect Hdim) as (best & Hbest & HF).
  exists best. split; [exact Hbest|]. split.
  - symmetry. eapply Forall2_length, HF.
  - intros r Hr.
    destruct (Forall2_nth_both _ _ _ r [] O HF Hr) as (Hb & Hmin & _).
    split; assumption.
Qed.

Lemma get_closest_in_range_none_closer_witness :
  exists best,
    Machine.get_closest [0x1p600%float] [[[(-0x1p600)%float]; [nan]; [0%float]]]
    = Ok best /\
    length best = 1%nat /\
    forall r, (r < 1)%nat ->
      (nth r best O < 3)%nat /\
      forall j, (j < 3)%nat ->
        num_ltb
          (Machine.distance [0x1p600%float]
             (nth j (nth r [[[(-0x1p600)%float]; [nan]; [0%float]]] []) []))
          (Machine.distance [0x1p600%float]
             (nth (nth r best O)
                  (nth r [[[(-0x1p600)%float]; [nan]; [0%float]]] []) []))
        = false.
Proof.
  apply (get_closest_in_range_none_closer PrimFloat.float binary64 binary64_laws
           [0x1p600%float] [[[(-0x1p600)%float]; [nan]; [0%float]]] 3).
  - lia.
  - repeat constructor.
  - repeat constructor.
Defined.

(** ** The two embeddings of [get_closest]

    On the extended reals, and for centroids of the point's dimension,
    [Machine.get_closest] is the function [get_closest] of the first
    embedding. *)

Lemma foldM_ext_in {A S : Type} (f g : S -> A -> result S) (l : list A) (s : S) :
  (forall s a, In a l -> f s a = g s a) -> foldM f l s = foldM g l s.
Proof.
  revert s. induction l as [|a l IH]; intros s Hfg; simpl; [reflexivity|].
  rewrite Hfg by (now left). destruct (g s a); simpl; [|reflexivity].
  apply IH. intros s' b Hb. apply Hfg. now right.
Qed.

Lemma mapM_ext_in {A B : Type} (f g : A -> result B) (l : list A) :
  (forall a, In a l -> f a = g a) -> mapM f l = mapM g l.
Proof.
  induction l as [|a l IH]; intros Hfg; simpl; [reflexivity|].
  rewrite Hfg by (now left). rewrite IH; [reflexivity|].
  intros b Hb. apply Hfg. now right.
Qed.

Lemma machine_norm_exact (v : vec) : Machine.norm v = norm v.
Proof. reflexivity. Qed.

(** On the extended reals the computed distance is the Euclidean one. *)
Lemma machine_distance_exact (a b : list R) :
  Machine.distance (inj_vec a) (inj_vec b) = Fin (euclid a b).
Proof. exact (norm_vsub_inj a b). Qed.

Lemma machine_get_closest_exact (p : vec) (centers : centroid_sets) :
  Forall (Forall (fun c => length c = length p)) centers ->
  Machine.get_closest p centers = get_closest p centers.
Proof.
  intros Hdim. unfold Machine.get_closest, get_closest.
  apply mapM_ext_in. intros run Hin.
  assert (Hrun : Forall (fun c => length c = length p) run)
    by (rewrite Forall_forall in Hdim; auto).
  unfold Machine.closest_scan, closest_scan.
  rewrite (foldM_ext_in (Machine.closest_step p run) (closest_step p run));
    [reflexivity|].
  intros [best closest] j _. unfold Machine.closest_step, closest_step.
  destruct (getitem run j) as [c|e] eqn:Ec; cbn [bind]; [|reflexivity].
  rewrite np_sub_same_length.
  - reflexivity.
  - rewrite Forall_forall in Hrun. apply Hrun. eapply getitem_In, Ec.
Qed.

(** ** [kmeans]: the shift metric in every iteration, and the loop test *)

Lemma enumerate_map {A B : Type} (f : A -> B) (l : list A) :
  enumerate (map f l) = map (fun xy => (fst xy, f (snd xy))) (enumerate l).
Proof.
  unfold enumerate. rewrite length_map. generalize (seq 0 (length l)) as ns.
  induction l as [|a l IH]; intros [|n ns]; simpl; try reflexivity.
  now rewrite IH.
Qed.

Lemma EachSet_real (pts : list (list R)) (local_cluster : list (list nat)) (i j : nat) :
  EachSet (map inj_vec pts) local_cluster i j
  = map inj_vec (real_EachSet pts local_cluster i j).
Proof.
  unfold EachSet, real_EachSet. rewrite enumerate_map, filter_map_swap, !map_map.
  reflexivity.
Qed.

Lemma mean_axis0_real (rows : list (list R)) :
  rows <> [] -> mean_axis0 (map inj_vec rows) = Array1 (inj_vec (real_mean rows)).
Proof.
  destruct rows as [|r rs]; [congruence|]. intros _.
  unfold mean_axis0, real_mean. cbn [map hd tl]. f_equal.
  unfold inj_vec at 2. rewrite fold_vadd_Fin. unfold inj_vec. rewrite !map_map.
  apply map_ext. intros s. cbn [length]. rewrite length_map.
  unfold fdiv, Req_bool.
  destruct (Req_dec_T (INR (S (length rs))) 0) as [Hz|_]; [|reflexivity].
  exfalso. apply (not_0_INR (S (length rs))); [lia | exact Hz].
Qed.

Lemma new_points_real (pts : list (list R)) (local_cluster : list (list nat))
  (K RUNS : nat) :
  (forall r j, (r < RUNS)%nat -> (j < K)%nat ->
     real_EachSet pts local_cluster r j <> []) ->
  compute_new_points (map inj_vec pts) local_cluster K RUNS
  = inj_new (real_candidates pts local_cluster K RUNS).
Proof.
  intros Hne. unfold compute_new_points, inj_new, real_candidates.
  rewrite map_map. apply map_ext_in. intros i Hi. apply in_seq in Hi.
  rewrite map_map. apply map_ext_in. intros j Hj. apply in_seq in Hj.
  rewrite EachSet_real. apply mean_axis0_real. apply Hne; lia.
Qed.

Lemma real_candidates_shape (pts : list (list R)) (local_cluster : list (list nat))
  (K RUNS : nat) :
  length (real_candidates pts local_cluster K RUNS) = RUNS /\
  Forall (fun run => length run = K) (real_candidates pts local_cluster K RUNS).
Proof.
  unfold real_candidates. split.
  - now rewrite length_map, length_seq.
  - rewrite Forall_map. apply Forall_forall. intros i _.
    now rewrite length_map, length_seq.
Qed.

Lemma max_shift_empty_cluster (k_points : centroid_sets) (local_data : list vec)
  (local_cluster : list (list nat)) (K RUNS r j : nat) :
  (r < RUNS)%nat -> (j < K)%nat ->
  nth j (nth r k_points []) [] <> [] ->
  EachSet local_data local_cluster r j = [] ->
  max_shift k_points (compute_new_points local_data local_cluster K RUNS) K RUNS
  = Ok NaN.
Proof.
  intros Hr Hj Hdim Hempty. unfold max_shift. apply np_max_nan.
  apply in_map_iff. exists r. split; [|apply in_seq; lia].
  apply np_sum_nan. apply in_map_iff. exists j. split; [|apply in_seq; lia].
  rewrite new_points_entry by assumption. rewrite Hempty.
  now apply norm_minus_nan.
Qed.

Lemma machine_loop_enter {num : Type} {A : Arithmetic num} (fuel : nat)
  (rdd : list (string * list num)) (K RUNS : nat) (converge_dist : num)
  (k_points : list (list (list num))) (temp_dist : num) :
  num_ltb converge_dist temp_dist = true ->
  Machine.kmeans_loop (S fuel) rdd K RUNS converge_dist k_points temp_dist =
  match Machine.kmeans_body rdd K RUNS k_points with
  | Ok (k_points', temp_dist') =>
      Machine.kmeans_loop fuel rdd K RUNS converge_dist k_points' temp_dist'
  | Raise e => Some (Raise e)
  end.
Proof. intros Hgt. cbn [Machine.kmeans_loop]. rewrite Hgt. reflexivity. Qed.

Lemma machine_loop_exit {num : Type} {A : Arithmetic num} (fuel : nat)
  (rdd : list (string * list num)) (K RUNS : nat) (converge_dist : num)
  (k_points : list (list (list num))) (temp_dist : num) :
  num_ltb converge_dist temp_dist = false ->
  Machine.kmeans_loop fuel rdd K RUNS converge_dist k_points temp_dist
  = Some (Ok k_points).
Proof. intros Hgt. destruct fuel; cbn [Machine.kmeans_loop]; rewrite Hgt; reflexivity. Qed.

(** C8, as the code behaves.  Values, in exact arithmetic: in every
    iteration of [kmeans] from [RUNS > 0] sets of [K > 0] real-valued
    centroids, on real-valued points of the centroids' dimension, and
    whatever assignment [local_cluster] of the points to the clusters
    [get_closest] has made, the expression assigned to [temp_dist] has a
    value.  When every cluster of every run has a point, the candidates
    are the means of the clusters' points, the update replaces the
    centroids by them, and [temp_dist] is the largest, over the runs, of
    the summed Euclidean distances between the run's old and candidate
    centroids; when some cluster has no point, [temp_dist] is [nan].
    Decisions, in every arithmetic whose comparison obeys [ArithmeticLaws]
    (binary64 does): the loop goes through its body again exactly when the
    computed [temp_dist] compares strictly greater than [converge_dist],
    and returns the centroids otherwise, in particular when [temp_dist] is
    [nan]. *)
Theorem kmeans_shift_metric_and_loop_test :
  (forall (local_data : list (list R)) (local_cluster : list (list nat))
          (K RUNS d : nat) (old : list (list (list R))),
      (0 < K)%nat -> (0 < RUNS)%nat -> (0 < d)%nat ->
      length old = RUNS ->
      Forall (fun run => length run = K) old ->
      Forall (Forall (fun c => length c = d)) old ->
      Forall (fun v => length v = d) local_data ->
      exists temp_dist,
        max_shift (inj_sets old)
          (compute_new_points (map inj_vec local_data) local_cluster K RUNS) K RUNS
        = Ok temp_dist /\
        ((forall r j, (r < RUNS)%nat -> (j < K)%nat ->
            real_EachSet local_data local_cluster r j <> []) ->
         compute_new_points (map inj_vec local_data) local_cluster K RUNS
         = inj_new (real_candidates local_data local_cluster K RUNS) /\
         update_centroids (inj_sets old)
           (compute_new_points (map inj_vec local_data) local_cluster K RUNS)
         = inj_sets (real_candidates local_data local_cluster K RUNS) /\
         temp_dist
         = Fin (shift_metric old (real_candidates local_data local_cluster K RUNS))) /\
        (forall r j, (r < RUNS)%nat -> (j < K)%nat ->
           real_EachSet local_data local_cluster r j = [] ->
           temp_dist = NaN)) /\
  (forall (num : Type) (A : Arithmetic num),
      ArithmeticLaws num ->
      forall (rdd : list (string * list num)) (K RUNS : nat) (converge_dist : num)
             (k_points : list (list (list num))) (temp_dist : num) (fuel : nat),
        (num_ltb converge_dist temp_dist = true ->
         Machine.kmeans_loop (S fuel) rdd K RUNS converge_dist k_points temp_dist =
         match Machine.kmeans_body rdd K RUNS k_points with
         | Ok (k_points', temp_dist') =>
             Machine.kmeans_loop fuel rdd K RUNS converge_dist k_points' temp_dist'
         | Raise e => Some (Raise e)
         end) /\
        (num_ltb converge_dist temp_dist = false ->
         Machine.kmeans_loop fuel rdd K RUNS converge_dist k_points temp_dist
         = Some (Ok k_points)) /\
        (num_is_nan temp_dist = true ->
         Machine.kmeans_loop fuel rdd K RUNS converge_dist k_points temp_dist
         = Some (Ok k_points))).
Proof.
  split.
  - intros local_data lc K RUNS d old HK HR Hd Hlo Hro Hdo _.
    set (np := compute_new_points (map inj_vec local_data) lc K RUNS).
    destruct (max_shift_ok (inj_sets old) np K RUNS HR) as [td Htd].
    exists td. split; [exact Htd|]. split.
    + intros Hne.
      pose proof (new_points_real local_data lc K RUNS Hne) as Hnp. fold np in Hnp.
      destruct (real_candidates_shape local_data lc K RUNS) as [Hlc Hrc].
      split; [exact Hnp|]. rewrite Hnp in Htd |- *.
      rewrite (max_shift_finite old _ K RUNS) in Htd by assumption.
      injection Htd as <-.
      rewrite (update_centroids_finite old _ K) by congruence. split; reflexivity.
    + intros r j Hr Hj Hempty.
      assert (Hmax : max_shift (inj_sets old) np K RUNS = Ok NaN).
      { apply (max_shift_empty_cluster _ _ _ K RUNS r j); [exact Hr | exact Hj | |].
        - rewrite nth_inj_sets. intros Hnil.
          apply (f_equal (@length _)) in Hnil. unfold inj_vec in Hnil.
          rewrite length_map in Hnil. simpl in Hnil.
          assert (Hc : length (nth j (nth r old []) []) = d).
          { assert (Hrun : Forall (fun c => length c = d) (nth r old [])).
            { rewrite Forall_forall in Hdo. apply Hdo, nth_In. lia. }
            rewrite Forall_forall in Hrun. apply Hrun, nth_In.
            rewrite (rect_nth_length old K r Hro) by lia. exact Hj. }
          lia.
        - rewrite EachSet_real, Hempty. reflexivity. }
      congruence.
  - intros num A L rdd K RUNS cd k_points td fuel. split; [|split].
    + apply machine_loop_enter.
    + apply machine_loop_exit.
    + intros Hnan. apply machine_loop_exit. now apply num_ltb_nan_r.
Qed.

Lemma kmeans_shift_metric_and_loop_test_witness :
  (exists temp_dist,
      max_shift (inj_sets [[[0]]])
        (compute_new_points (map inj_vec [[0]; [1]]) [[O; O]] 1 1) 1 1
      = Ok temp_dist /\
      ((forall r j, (r < 1)%nat -> (j < 1)%nat ->
          real_EachSet [[0]; [1]] [[O; O]] r j <> []) ->
       compute_new_points (map inj_vec [[0]; [1]]) [[O; O]] 1 1
       = inj_new (real_candidates [[0]; [1]] [[O; O]] 1 1) /\
       update_centroids (inj_sets [[[0]]])
         (compute_new_points (map inj_vec [[0]; [1]]) [[O; O]] 1 1)
       = inj_sets (real_candidates [[0]; [1]] [[O; O]] 1 1) /\
       temp_dist
       = Fin (shift_metric [[[0]]] (real_candidates [[0]; [1]] [[O; O]] 1 1))) /\
      (forall r j, (r < 1)%nat -> (j < 1)%nat ->
         real_EachSet [[0]; [1]] [[O; O]] r j = [] ->
         temp_dist = NaN)) /\
  Machine.kmeans_loop 0 rdd_mirror 1 1 0.5%float [[[0%float; 0%float]]] 0.5%float
  = Some (Ok [[[0%float; 0%float]]]).
Proof.
  destruct kmeans_shift_metric_and_loop_test as [Hvalue Hloop]. split.
  - apply (Hvalue [[0]; [1]] [[O; O]] 1%nat 1%nat 1%nat [[[0]]]).
    + lia.
    + lia.
    + lia.
    + reflexivity.
    + repeat constructor.
    + repeat constructor.
    + repeat constructor.
  - destruct (Hloop PrimFloat.float binary64 binary64_laws rdd_mirror 1%nat 1%nat
                0.5%float [[[0%float; 0%float]]] 0.5%float 0%nat)
      as (_ & Hexit & _).
    apply Hexit. reflexivity.
Defined.

(** C8 fails as stated: in binary64, for the points [(1/2, 2^-31)] and
    [(-1/2, -2^-31)], one run of one cluster that starts at the first
    point, and the threshold [0.5], the candidate is [(0, 0)] and the
    Euclidean distance from the old centroid to it is strictly greater
    than [1/2]; but [temp_dist] is computed as [0.5] (the sum
    [1/4 + 2^-62] rounds to [1/4]), the test [0.5 > 0.5] fails, and the
    loop returns after this one iteration. *)
Lemma kmeans_loop_returns_above_threshold :
  Machine.kmeans_body rdd_mirror 1 1 [[[0.5%float; 0x1p-31%float]]]
    = Ok ([[[0%float; 0%float]]], 0.5%float) /\
  Machine.kmeans_loop 1 rdd_mirror 1 1 0.5%float
                      [[[0.5%float; 0x1p-31%float]]] 1%float
    = Some (Ok [[[0%float; 0%float]]]) /\
  map B2R [0.5%float; 0x1p-31%float] = [1 / 2; 1 / 2147483648] /\
  map B2R [0%float; 0%float] = [0; 0] /\
  B2R 0.5%float = 1 / 2 /\
  1 / 2 < shift_metric [[[1 / 2; 1 / 2147483648]]] [[[0; 0]]].
Proof.
  split; [vm_compute; reflexivity|].
  split; [vm_compute; reflexivity|].
  split; [cbn [map]; b2r; repeat f_equal; lra|].
  split; [cbn [map]; b2r; repeat f_equal; lra|].
  split; [b2r; lra|].
  unfold shift_metric, run_shift, euclid, Rsum.
  cbn [zip_with fold_right Rmaximum].
  rewrite Rplus_0_r.
  replace (1 / 2) with (sqrt (1 / 2 * (1 / 2))) at 1 by (apply sqrt_square; lra).
  apply sqrt_lt_sq; lra.
Qed.
